(** * VectorFieldVisualizer: the numerical core of the 2D and 3D views

    A shallow embedding of the field-evaluation engine of the repository,
    VectorField2D.tsx (src/unnamed/part_000) and VectorField3D.tsx
    (src/unnamed/part_001): the expression wrapper [createFieldFunction],
    the point-source superposition [Fx]/[Fy], the central-difference
    [derivative], the divergence grid, the particle tick of both views and
    the colour mapper [getColor].  Canvas and three.js drawing is left out.

    Numbers.  A JavaScript number is modelled as an exact rational or one
    of the three IEEE special values.  Arithmetic on the specials follows
    IEEE 754 (what [isFinite] and the comparisons of the source observe);
    arithmetic on rationals is exact: rounding, overflow and the sign of
    zero are not modelled.

    Host.  [new Function] and the global scope belong to the JavaScript
    engine, not to the repository: they are a parameter ([Host]) of the
    wrapper, with the ambient state threaded through every call.

    The file has two parts: the model, then its properties. *)

From Stdlib Require Import Morphisms Setoid ZArith QArith Qcanon Qround.
From Stdlib Require Import Lqa Lia List String Ascii Bool.
From Stdlib Require Import Floats Uint63 Permutation.
Import ListNotations.

(* ================================================================== *)
(** ** JavaScript numbers *)
(* ================================================================== *)

Module JsNumber.

Inductive number : Type :=
  | Finite (q : Qc)
  | PosInfinity
  | NegInfinity
  | NaN.

(** A numeric literal of the source, e.g. [lit 0.01]. *)
Definition lit (q : Q) : number := Finite (Q2Qc q).

(** A loop counter used as a number. *)
Definition ofNat (n : nat) : number := lit (inject_Z (Z.of_nat n)).

Definition isFinite (n : number) : bool :=
  match n with Finite _ => true | _ => false end.

Definition isNaN (n : number) : bool :=
  match n with NaN => true | _ => false end.

(** Sign of a rational: [Lt] negative, [Eq] zero, [Gt] positive. *)
Definition sgn (q : Qc) : comparison := (q ?= Q2Qc 0)%Qc.

Definition neg (a : number) : number :=
  match a with
  | Finite q => Finite (- q)%Qc
  | PosInfinity => NegInfinity
  | NegInfinity => PosInfinity
  | NaN => NaN
  end.

Definition add (a b : number) : number :=
  match a, b with
  | NaN, _ | _, NaN => NaN
  | Finite p, Finite q => Finite (p + q)%Qc
  | PosInfinity, NegInfinity | NegInfinity, PosInfinity => NaN
  | PosInfinity, _ | _, PosInfinity => PosInfinity
  | NegInfinity, _ | _, NegInfinity => NegInfinity
  end.

Definition sub (a b : number) : number := add a (neg b).

(** An infinity of the given sign; a zero sign gives [NaN]
    (the IEEE result of [0 * Infinity]). *)
Definition signedInfinity (s : comparison) : number :=
  match s with Gt => PosInfinity | Lt => NegInfinity | Eq => NaN end.

Definition flip (s : comparison) : comparison := CompOpp s.

Definition mul (a b : number) : number :=
  match a, b with
  | NaN, _ | _, NaN => NaN
  | Finite p, Finite q => Finite (p * q)%Qc
  | Finite p, PosInfinity | PosInfinity, Finite p => signedInfinity (sgn p)
  | Finite p, NegInfinity | NegInfinity, Finite p => signedInfinity (flip (sgn p))
  | PosInfinity, PosInfinity | NegInfinity, NegInfinity => PosInfinity
  | PosInfinity, NegInfinity | NegInfinity, PosInfinity => NegInfinity
  end.

(** Division.  A zero divisor is the positive zero: [p / 0] is an infinity
    of the sign of [p], and [0 / 0] is [NaN]. *)
Definition div (a b : number) : number :=
  match a, b with
  | NaN, _ | _, NaN => NaN
  | Finite p, Finite q =>
      match sgn q with
      | Eq => signedInfinity (sgn p)
      | _ => Finite (p / q)%Qc
      end
  | Finite _, _ => Finite (Q2Qc 0)
  | PosInfinity, Finite q =>
      match sgn q with Lt => NegInfinity | _ => PosInfinity end
  | NegInfinity, Finite q =>
      match sgn q with Lt => PosInfinity | _ => NegInfinity end
  | _, _ => NaN
  end.

(** The relational operators: every comparison with [NaN] is false. *)
Definition lt (a b : number) : bool :=
  match a, b with
  | NaN, _ | _, NaN => false
  | Finite p, Finite q => match (p ?= q)%Qc with Lt => true | _ => false end
  | Finite _, PosInfinity => true
  | Finite _, NegInfinity => false
  | NegInfinity, NegInfinity => false
  | NegInfinity, _ => true
  | PosInfinity, _ => false
  end.

Definition gt (a b : number) : bool := lt b a.

Definition le (a b : number) : bool :=
  match a, b with
  | NaN, _ | _, NaN => false
  | Finite p, Finite q => match (p ?= q)%Qc with Gt => false | _ => true end
  | NegInfinity, _ => true
  | _, PosInfinity => true
  | _, _ => false
  end.

Definition ge (a b : number) : bool := le b a.

(** [a === b] on numbers. *)
Definition strictEq (a b : number) : bool :=
  match a, b with
  | Finite p, Finite q => Qc_eq_bool p q
  | PosInfinity, PosInfinity | NegInfinity, NegInfinity => true
  | _, _ => false
  end.

Definition Math_abs (a : number) : number :=
  match a with
  | Finite q => match sgn q with Lt => Finite (- q)%Qc | _ => Finite q end
  | PosInfinity | NegInfinity => PosInfinity
  | NaN => NaN
  end.

(** [Math.max] and [Math.min] of two arguments: [NaN] if either is. *)
Definition Math_max (a b : number) : number :=
  match a, b with
  | NaN, _ | _, NaN => NaN
  | _, _ => if lt a b then b else a
  end.

Definition Math_min (a b : number) : number :=
  match a, b with
  | NaN, _ | _, NaN => NaN
  | _, _ => if lt b a then b else a
  end.

Definition Math_floor (a : number) : number :=
  match a with
  | Finite q => lit (inject_Z (Qfloor q))
  | _ => a
  end.

(** [Math.round]: nearest integer, ties towards +Infinity. *)
Definition Math_round (a : number) : number :=
  match a with
  | Finite q => lit (inject_Z (Qfloor (q + Q2Qc 0.5)%Qc))
  | _ => a
  end.

Declare Scope js_scope.
Delimit Scope js_scope with js.
Bind Scope js_scope with number.
Infix "+" := add : js_scope.
Infix "-" := sub : js_scope.
Infix "*" := mul : js_scope.
Infix "/" := div : js_scope.
Notation "- x" := (neg x) : js_scope.
Infix "<?" := lt : js_scope.
Infix "<=?" := le : js_scope.
Infix ">?" := gt : js_scope.
Infix ">=?" := ge : js_scope.
Infix "===" := strictEq (at level 70, no associativity) : js_scope.

End JsNumber.
Export JsNumber.

Local Open Scope string_scope.
Local Open Scope js_scope.

(* ================================================================== *)
(** ** The host: values, completions and the [Function] constructor *)
(* ================================================================== *)

(** The values an evaluated expression can produce.  Only the distinction
    drawn by [typeof result === 'number'] matters to the wrapper. *)
Inductive JsValue : Type :=
  | VNumber (n : number)
  | VUndefined
  | VNull
  | VBoolean (b : bool)
  | VString (s : string)
  | VObject (ref : nat).

Definition typeof (v : JsValue) : string :=
  match v with
  | VNumber _ => "number"
  | VUndefined => "undefined"
  | VNull => "object"
  | VBoolean _ => "boolean"
  | VString _ => "string"
  | VObject _ => "object"
  end.

(** A completion: a returned value or a thrown exception. *)
Inductive Completion (A : Type) : Type :=
  | Normal (v : A)
  | Throw (exn : JsValue).
Arguments Normal {A} v.
Arguments Throw {A} exn.

(** Code that runs in the host reads and may change the ambient state
    [World] (global object, clock, DOM, ...). *)
Definition Js (World A : Type) : Type := World -> Completion A * World.

Definition ret {World A} (v : A) : Js World A := fun w => (Normal v, w).

(** [try { body } catch { handler }] *)
Definition tryCatch {World A} (body handler : Js World A) : Js World A :=
  fun w =>
    match body w with
    | (Normal v, w') => (Normal v, w')
    | (Throw _, w') => handler w'
    end.

(** What the engine provides and the repository does not contain: the
    [Function] constructor and the [Math] namespace object.
    [newFunction params body] either throws (a [SyntaxError]) or returns a
    callable; calling it runs the body in the host. *)
Record Host (World : Type) : Type := {
  newFunction : list string -> string ->
                Completion (list JsValue -> Js World JsValue);
  Math : JsValue
}.
Arguments newFunction {World} _ _ _.
Arguments Math {World} _.

(* ================================================================== *)
(** ** ExpressionCompiler: [createFieldFunction], [createFieldFunction3D] *)
(* ================================================================== *)

Definition newline : string := String (ascii_of_nat 10) EmptyString.

(** The template literal handed to [new Function] in the 2D view. *)
Definition functionBody (expression : string) : string :=
  newline ++ "      'use strict';" ++
  newline ++ "      return " ++ expression ++ ";" ++
  newline ++ "    ".

(** [typeof result === 'number' && isFinite(result) ? result : 0] *)
Definition finiteOrZero (result : JsValue) : number :=
  match result with
  | VNumber n =>
      if (typeof result =? "number")%string && isFinite n then n else lit 0
  | _ => lit 0
  end.

Section ExpressionCompiler.
Context {World : Type} (host : Host World).

(** [createFieldFunction(expression)], part_000 lines 93-112. *)
Definition createFieldFunction (expression : string)
  : number -> number -> Js World number :=
  match newFunction host ["x"; "y"; "Math"] (functionBody expression) with
  | Normal func =>
      fun x y =>
        tryCatch
          (fun w =>
             match func [VNumber x; VNumber y; Math host] w with
             | (Normal result, w') => (Normal (finiteOrZero result), w')
             | (Throw e, w') => (Throw e, w')
             end)
          (ret (lit 0))
  | Throw _ => fun _ _ => ret (lit 0)
  end.

(** [createFieldFunction3D(expression)], part_001 lines 8-26. *)
Definition createFieldFunction3D (expression : string)
  : number -> number -> number -> Js World number :=
  match newFunction host ["x"; "y"; "z"; "Math"] (functionBody expression) with
  | Normal func =>
      fun x y z =>
        tryCatch
          (fun w =>
             match func [VNumber x; VNumber y; VNumber z; Math host] w with
             | (Normal result, w') => (Normal (finiteOrZero result), w')
             | (Throw e, w') => (Throw e, w')
             end)
          (ret (lit 0))
  | Throw _ => fun _ _ _ => ret (lit 0)
  end.

(** The value a compiled field yields in a given ambient state. *)
Definition valueIn {A} (w : World) (c : Js World A) (default : A) : A :=
  match c w with
  | (Normal v, _) => v
  | (Throw _, _) => default
  end.
End ExpressionCompiler.

(** A compiled 2D field read as a function of the position, in the ambient
    state [w]. *)
Definition compiled {World} (host : Host World) (w : World)
  (expression : string) : number -> number -> number :=
  fun x y => valueIn w (createFieldFunction host expression x y) (lit 0).

(** The host evaluates the source [expression], with the parameters bound
    to [x] and [y], to the number [g x y]. *)
Definition evaluatesTo {World} (host : Host World) (expression : string)
  (g : number -> number -> number) : Prop :=
  exists func,
    newFunction host ["x"; "y"; "Math"] (functionBody expression) = Normal func
    /\ forall x y w,
         fst (func [VNumber x; VNumber y; Math host] w)
         = Normal (VNumber (g x y)).

(* ================================================================== *)
(** ** FieldEvaluator: base field plus point sources and sinks *)
(* ================================================================== *)

Inductive SourceType : Type := source | sink.

Module PointSource.
Record t : Type := {
  id : nat;
  x : number;
  y : number;
  strength : number;  (* positive = source, negative = sink *)
  type : SourceType
}.
End PointSource.

(** The closure [Fx] of the 2D effect, part_000 lines 260-269: the loop
    [for (const ps of pointSources) fx += ps.strength * dx / rSq]. *)
Definition Fx (baseFx : number -> number -> number)
  (pointSources : list PointSource.t) (x y : number) : number :=
  fold_left
    (fun fx ps =>
       let dx := x - PointSource.x ps in
       let dy := y - PointSource.y ps in
       let rSq := dx * dx + dy * dy + lit 0.01 in  (* avoid singularity *)
       fx + PointSource.strength ps * dx / rSq)
    pointSources (baseFx x y).

(** The closure [Fy], part_000 lines 271-280. *)
Definition Fy (baseFy : number -> number -> number)
  (pointSources : list PointSource.t) (x y : number) : number :=
  fold_left
    (fun fy ps =>
       let dx := x - PointSource.x ps in
       let dy := y - PointSource.y ps in
       let rSq := dx * dx + dy * dy + lit 0.01 in  (* avoid singularity *)
       fy + PointSource.strength ps * dy / rSq)
    pointSources (baseFy x y).

(** The combination rule in the words of the specification: the base
    component plus the sum over the sources of
    [strength * (position - source.position)_c / (|position - source.position|^2 + 0.01)]. *)
Definition sumOver {A} (term : A -> number) (l : list A) : number :=
  fold_right (fun a acc => term a + acc) (lit 0) l.

Definition separationSq (ps : PointSource.t) (x y : number) : number :=
  (x - PointSource.x ps) * (x - PointSource.x ps)
  + (y - PointSource.y ps) * (y - PointSource.y ps).

Definition effectiveX (baseFx : number -> number -> number)
  (pointSources : list PointSource.t) (x y : number) : number :=
  baseFx x y
  + sumOver (fun ps => PointSource.strength ps * (x - PointSource.x ps)
                       / (separationSq ps x y + lit 0.01))
            pointSources.

Definition effectiveY (baseFy : number -> number -> number)
  (pointSources : list PointSource.t) (x y : number) : number :=
  baseFy x y
  + sumOver (fun ps => PointSource.strength ps * (y - PointSource.y ps)
                       / (separationSq ps x y + lit 0.01))
            pointSources.

(** The physics presets, part_000 lines 165-208. *)
Module PhysicsPreset.
Record t : Type := {
  name : string;
  description : string;
  fx : string;
  fy : string;
  sources : list (number * number * number * SourceType)
            (* x, y, strength, type: a [PointSource] without its id *)
}.
End PhysicsPreset.

Definition electricDipole : PhysicsPreset.t :=
  {| PhysicsPreset.name := "Electric Dipole";
     PhysicsPreset.description := "Positive and negative charges";
     PhysicsPreset.fx := "0";
     PhysicsPreset.fy := "0";
     PhysicsPreset.sources :=
       [ (lit (-1), lit 0, lit 3, source);
         (lit 1, lit 0, lit (-3), sink) ] |}.

Definition earthMoonSystem : PhysicsPreset.t :=
  {| PhysicsPreset.name := "Earth-Moon System";
     PhysicsPreset.description := "Gravitational field";
     PhysicsPreset.fx := "0";
     PhysicsPreset.fy := "0";
     PhysicsPreset.sources :=
       [ (lit (-0.5), lit 0, lit (-4), sink);   (* Earth (larger mass) *)
         (lit 1.5, lit 0, lit (-1), sink) ] |}. (* Moon (smaller mass) *)

Definition quadrupole : PhysicsPreset.t :=
  {| PhysicsPreset.name := "Quadrupole";
     PhysicsPreset.description := "Four alternating charges";
     PhysicsPreset.fx := "0";
     PhysicsPreset.fy := "0";
     PhysicsPreset.sources :=
       [ (lit (-1), lit (-1), lit 2, source);
         (lit 1, lit (-1), lit (-2), sink);
         (lit 1, lit 1, lit 2, source);
         (lit (-1), lit 1, lit (-2), sink) ] |}.

Definition binaryStar : PhysicsPreset.t :=
  {| PhysicsPreset.name := "Binary Star";
     PhysicsPreset.description := "Two equal mass objects orbiting";
     PhysicsPreset.fx := "0";
     PhysicsPreset.fy := "0";
     PhysicsPreset.sources :=
       [ (lit (-1.2), lit 0, lit (-3), sink);
         (lit 1.2, lit 0, lit (-3), sink) ] |}.

Definition physicsPresets : list PhysicsPreset.t :=
  [ electricDipole; earthMoonSystem; quadrupole; binaryStar ].

(** [loadPhysicsPreset]: every preset source gets the next free id
    ([nextSourceIdRef.current++]); returns the sources and the counter. *)
Definition loadPhysicsPreset (preset : PhysicsPreset.t) (nextSourceId : nat)
  : list PointSource.t * nat :=
  fold_left
    (fun acc s =>
       let '(newSources, next) := acc in
       let '(sx, sy, sstrength, stype) := s in
       (app newSources [ {| PointSource.id := next;
                            PointSource.x := sx;
                            PointSource.y := sy;
                            PointSource.strength := sstrength;
                            PointSource.type := stype |} ],
        S next))
    (PhysicsPreset.sources preset) ([], nextSourceId).

(** The point sources with every [strength] multiplied by [k]. *)
Definition scaleStrengths (k : number) (pointSources : list PointSource.t)
  : list PointSource.t :=
  map (fun ps =>
         {| PointSource.id := PointSource.id ps;
            PointSource.x := PointSource.x ps;
            PointSource.y := PointSource.y ps;
            PointSource.strength := k * PointSource.strength ps;
            PointSource.type := PointSource.type ps |})
      pointSources.

(* ================================================================== *)
(** ** DivergenceField: central differences on the fine grid *)
(* ================================================================== *)

Inductive Axis : Type := axis_x | axis_y.

(** [derivative(f, x, y, axis)], part_000 lines 115-122. *)
Definition derivative (f : number -> number -> number) (x y : number)
  (axis : Axis) : number :=
  let h := lit 0.01 in
  match axis with
  | axis_x => (f (x + h) y - f (x - h) y) / (lit 2 * h)
  | axis_y => (f x (y + h) - f x (y - h)) / (lit 2 * h)
  end.

(** A JavaScript array: a slot is [None] when it is a hole.  Reading a hole
    or past the end gives [undefined] (here [None]); assigning past the end
    extends the array. *)
Definition JsArray (A : Type) : Type := list (option A).

Definition arrayGet {A} (a : JsArray A) (i : nat) : option A :=
  match nth_error a i with
  | Some slot => slot
  | None => None
  end.

Fixpoint arraySet {A} (a : JsArray A) (i : nat) (v : A) : JsArray A :=
  match a, i with
  | [], O => [Some v]
  | [], S i' => None :: arraySet [] i' v
  | _ :: rest, O => Some v :: rest
  | slot :: rest, S i' => slot :: arraySet rest i' v
  end.

(** Constants of the 2D effect, part_000 lines 242-246. *)
Definition gridSize : nat := 100.      (* fine grid for the divergence *)
Definition arrowGridSize : nat := 20.  (* coarser grid for the arrows *)
Definition range : number := lit 3.
Definition step : number := (lit 2 * range) / ofNat gridSize.
Definition arrowStep : number := (lit 2 * range) / ofNat arrowGridSize.

Record DivergenceState : Type := {
  divergenceGrid : JsArray (JsArray number);
  minDiv : number;
  maxDiv : number
}.

(** Body of the inner loop, part_000 lines 289-300.  [None] is the
    [TypeError] of writing into a row that does not exist. *)
Definition divergenceCell (Fx Fy : number -> number -> number) (i j : nat)
  (st : DivergenceState) : option DivergenceState :=
  let x := - range + ofNat i * step in
  let y := range - ofNat j * step in
  let dFx_dx := derivative Fx x y axis_x in
  let dFy_dy := derivative Fy x y axis_y in
  let div := dFx_dx + dFy_dy in
  match arrayGet (divergenceGrid st) i with
  | None => None
  | Some row =>
      let grid := arraySet (divergenceGrid st) i (arraySet row j div) in
      if isFinite div
      then Some {| divergenceGrid := grid;
                   minDiv := Math_min (minDiv st) div;
                   maxDiv := Math_max (maxDiv st) div |}
      else Some {| divergenceGrid := grid;
                   minDiv := minDiv st;
                   maxDiv := maxDiv st |}
  end.

(** [for (let k = 0; k <= n; k++) body(k)] over a state that may fail. *)
Definition forUpTo {S} (n : nat) (body : nat -> S -> option S) (st : S)
  : option S :=
  fold_left
    (fun acc k => match acc with Some s => body k s | None => None end)
    (seq 0 (n + 1)) (Some st).

(** Body of the outer loop: [divergenceGrid[i] = []] and the inner loop. *)
Definition divergenceRow (Fx Fy : number -> number -> number) (i : nat)
  (st : DivergenceState) : option DivergenceState :=
  forUpTo gridSize (divergenceCell Fx Fy i)
    {| divergenceGrid := arraySet (divergenceGrid st) i [];
       minDiv := minDiv st;
       maxDiv := maxDiv st |}.

(** The divergence pass of the effect, part_000 lines 251-302: a fresh
    array, [minDiv = Infinity], [maxDiv = -Infinity], then both loops. *)
Definition computeDivergence (Fx Fy : number -> number -> number)
  : option DivergenceState :=
  forUpTo gridSize (divergenceRow Fx Fy)
    {| divergenceGrid := [];
       minDiv := PosInfinity;
       maxDiv := NegInfinity |}.

(** The divergence at grid node [(i, j)], as the inner loop computes it. *)
Definition divergenceAt (Fx Fy : number -> number -> number) (i j : nat)
  : number :=
  let x := - range + ofNat i * step in
  let y := range - ofNat j * step in
  derivative Fx x y axis_x + derivative Fy x y axis_y.

(** [divergenceGrid[i][j]] *)
Definition gridEntry (grid : JsArray (JsArray number)) (i j : nat)
  : option number :=
  match arrayGet grid i with
  | Some row => arrayGet row j
  | None => None
  end.

(** The normalisation of the background pass, part_000 lines 346-347. *)
Definition normalized (div minDiv maxDiv : number) : number :=
  if maxDiv === minDiv then lit 0.5
  else (div - minDiv) / (maxDiv - minDiv).

(** The cells the background pass draws ([i, j < gridSize], finite
    divergence only) with the value handed to [getColor]. *)
Definition backgroundCells (st : DivergenceState)
  : list (nat * nat * number) :=
  flat_map
    (fun i =>
       flat_map
         (fun j =>
            match gridEntry (divergenceGrid st) i j with
            | Some div =>
                if isFinite div
                then [(i, j, normalized div (minDiv st) (maxDiv st))]
                else []
            | None => []
            end)
         (seq 0 gridSize))
    (seq 0 gridSize).

(* ================================================================== *)
(** ** ParticleIntegrator: the particle tick of both views *)
(* ================================================================== *)

(** [Math.random()] is the only source of randomness.  The generator is
    the sequence of its future results and the number already drawn. *)
Record RandomSource : Type := {
  draws : nat -> number;
  drawn : nat
}.

Definition Math_random (rng : RandomSource) : number * RandomSource :=
  (draws rng (drawn rng), {| draws := draws rng; drawn := S (drawn rng) |}).

Module Particle.
Record t : Type := {
  x : number;
  y : number;
  life : number
}.
End Particle.

(** First half of the loop body, part_000 lines 401-412: sample the field,
    advance by Euler integration if the velocity is finite, decay. *)
Definition advance (Fx Fy : number -> number -> number)
  (animationSpeed : number) (particle : Particle.t) : Particle.t :=
  let dt := lit 0.016 * animationSpeed in
  let vx := Fx (Particle.x particle) (Particle.y particle) in
  let vy := Fy (Particle.x particle) (Particle.y particle) in
  let particle :=
    if isFinite vx && isFinite vy
    then {| Particle.x := Particle.x particle + vx * dt;
            Particle.y := Particle.y particle + vy * dt;
            Particle.life := Particle.life particle |}
    else particle in
  {| Particle.x := Particle.x particle;
     Particle.y := Particle.y particle;
     Particle.life := Particle.life particle - lit 0.005 * animationSpeed |}.

(** The condition of the respawn test, part_000 line 415. *)
Definition outOfPlay (particle : Particle.t) : bool :=
  (Particle.life particle <=? lit 0)
  || (Math_abs (Particle.x particle) >? range)
  || (Math_abs (Particle.y particle) >? range).

(** Second half, part_000 lines 415-419. *)
Definition respawn (particle : Particle.t) (rng : RandomSource)
  : Particle.t * RandomSource :=
  if outOfPlay particle
  then
    let (r1, rng) := Math_random rng in
    let (r2, rng) := Math_random rng in
    ({| Particle.x := (r1 * lit 2 - lit 1) * range;
        Particle.y := (r2 * lit 2 - lit 1) * range;
        Particle.life := lit 1 |}, rng)
  else (particle, rng).

Definition updateParticle (Fx Fy : number -> number -> number)
  (animationSpeed : number) (particle : Particle.t) (rng : RandomSource)
  : Particle.t * RandomSource :=
  respawn (advance Fx Fy animationSpeed particle) rng.

(** [for (const particle of particlesRef.current)]: one pass, every
    element updated where it stands. *)
Fixpoint updateParticles (Fx Fy : number -> number -> number)
  (animationSpeed : number) (particles : list Particle.t)
  (rng : RandomSource) : list Particle.t * RandomSource :=
  match particles with
  | [] => ([], rng)
  | particle :: rest =>
      let (particle', rng) := updateParticle Fx Fy animationSpeed particle rng in
      let (rest', rng) := updateParticles Fx Fy animationSpeed rest rng in
      (particle' :: rest', rng)
  end.

(** The particle part of one [animate] frame, part_000 lines 397-419. *)
Definition animateParticles (isAnimating : bool)
  (Fx Fy : number -> number -> number) (animationSpeed : number)
  (particles : list Particle.t) (rng : RandomSource)
  : list Particle.t * RandomSource :=
  if isAnimating
  then updateParticles Fx Fy animationSpeed particles rng
  else (particles, rng).

(** Initialisation, part_000 lines 310-319: 500 particles, only when the
    array is empty. *)
Fixpoint pushParticles (n : nat) (particles : list Particle.t)
  (rng : RandomSource) : list Particle.t * RandomSource :=
  match n with
  | O => (particles, rng)
  | S n' =>
      let (r1, rng) := Math_random rng in
      let (r2, rng) := Math_random rng in
      let (r3, rng) := Math_random rng in
      pushParticles n'
        (app particles
             [ {| Particle.x := (r1 * lit 2 - lit 1) * range;
                  Particle.y := (r2 * lit 2 - lit 1) * range;
                  Particle.life := r3 |} ])
        rng
  end.

Definition initParticles (particles : list Particle.t) (rng : RandomSource)
  : list Particle.t * RandomSource :=
  match particles with
  | [] => pushParticles 500 particles rng
  | _ => (particles, rng)
  end.

(** [n] consecutive frames with the animation on, same field and speed. *)
Fixpoint runFrames (n : nat) (Fx Fy : number -> number -> number)
  (animationSpeed : number) (particles : list Particle.t)
  (rng : RandomSource) : list Particle.t * RandomSource :=
  match n with
  | O => (particles, rng)
  | S n' =>
      let (particles', rng) :=
        animateParticles true Fx Fy animationSpeed particles rng in
      runFrames n' Fx Fy animationSpeed particles' rng
  end.

(** *** The 3D view *)

Module Vector3.
Record t : Type := {
  x : number;
  y : number;
  z : number
}.
End Vector3.

Module Particle3D.
Record t : Type := {
  position : Vector3.t;
  velocity : Vector3.t;
  life : number
}.
End Particle3D.

Section ParticleSystem.
(** Props of [ParticleSystem] and the frame time of [useFrame]. *)
Variables (Fx Fy Fz : number -> number -> number -> number).
Variables (range speed delta : number).

(** part_001 lines 201-215. *)
Definition advance3D (particle : Particle3D.t) : Particle3D.t :=
  let x := Vector3.x (Particle3D.position particle) in
  let y := Vector3.y (Particle3D.position particle) in
  let z := Vector3.z (Particle3D.position particle) in
  let vx := Fx x y z in
  let vy := Fy x y z in
  let vz := Fz x y z in
  let position :=
    if isFinite vx && isFinite vy && isFinite vz
    then {| Vector3.x := x + vx * delta * speed;
            Vector3.y := y + vy * delta * speed;
            Vector3.z := z + vz * delta * speed |}
    else Particle3D.position particle in
  {| Particle3D.position := position;
     Particle3D.velocity := Particle3D.velocity particle;
     Particle3D.life := Particle3D.life particle - delta * lit 0.3 * speed |}.

(** part_001 lines 218-221. *)
Definition outOfPlay3D (particle : Particle3D.t) : bool :=
  (Particle3D.life particle <=? lit 0)
  || (Math_abs (Vector3.x (Particle3D.position particle)) >? range)
  || (Math_abs (Vector3.y (Particle3D.position particle)) >? range)
  || (Math_abs (Vector3.z (Particle3D.position particle)) >? range).

(** part_001 lines 218-228. *)
Definition respawn3D (particle : Particle3D.t) (rng : RandomSource)
  : Particle3D.t * RandomSource :=
  if outOfPlay3D particle
  then
    let (r1, rng) := Math_random rng in
    let (r2, rng) := Math_random rng in
    let (r3, rng) := Math_random rng in
    ({| Particle3D.position :=
          {| Vector3.x := (r1 * lit 2 - lit 1) * range;
             Vector3.y := (r2 * lit 2 - lit 1) * range;
             Vector3.z := (r3 * lit 2 - lit 1) * range |};
        Particle3D.velocity := Particle3D.velocity particle;
        Particle3D.life := lit 1 |}, rng)
  else (particle, rng).

Definition updateParticle3D (particle : Particle3D.t) (rng : RandomSource)
  : Particle3D.t * RandomSource :=
  respawn3D (advance3D particle) rng.

(** [particlesRef.current.forEach(...)] *)
Fixpoint updateParticles3D (particles : list Particle3D.t)
  (rng : RandomSource) : list Particle3D.t * RandomSource :=
  match particles with
  | [] => ([], rng)
  | particle :: rest =>
      let (particle', rng) := updateParticle3D particle rng in
      let (rest', rng) := updateParticles3D rest rng in
      (particle' :: rest', rng)
  end.

(** The [useFrame] callback, part_001 lines 194-247, without the copy of
    positions and colours into the geometry buffers.  [mounted] is
    [pointsRef.current] being set. *)
Definition useFrame (isAnimating mounted : bool)
  (particles : list Particle3D.t) (rng : RandomSource)
  : list Particle3D.t * RandomSource :=
  if negb isAnimating || negb mounted
  then (particles, rng)
  else updateParticles3D particles rng.
End ParticleSystem.

(** A coordinate inside [[-r, r]]. *)
Definition within (r v : number) : bool := (- r <=? v) && (v <=? r).

(** A result of [Math.random()] lies in [[0, 1)]. *)
Definition unitInterval (v : number) : bool := (lit 0 <=? v) && (v <? lit 1).

(** A particle of the 2D view inside [[-range, range]] on both axes. *)
Definition inDomain (particle : Particle.t) : bool :=
  within range (Particle.x particle) && within range (Particle.y particle).

(** A particle of the 3D view inside [[-range3, range3]] on all axes. *)
Definition inDomain3D (range3 : number) (particle : Particle3D.t) : bool :=
  within range3 (Vector3.x (Particle3D.position particle))
  && within range3 (Vector3.y (Particle3D.position particle))
  && within range3 (Vector3.z (Particle3D.position particle)).

(** The coordinates of a particle are real numbers. *)
Definition realPosition (particle : Particle.t) : bool :=
  isFinite (Particle.x particle) && isFinite (Particle.y particle).

Definition realPosition3D (particle : Particle3D.t) : bool :=
  isFinite (Vector3.x (Particle3D.position particle))
  && isFinite (Vector3.y (Particle3D.position particle))
  && isFinite (Vector3.z (Particle3D.position particle)).

(* ================================================================== *)
(** ** ColorMapper: [colorMaps] and [getColor] *)
(* ================================================================== *)

Inductive ColorTheme : Type :=
  viridis | plasma | cool | hot | rainbow | grayscale.

(** An anchor [[r, g, b]] of a colour map. *)
Definition Anchor : Type := (number * number * number)%type.

Definition rgb (r g b : Q) : Anchor := (lit r, lit g, lit b).

(** part_000 lines 7-64. *)
Definition colorMaps (theme : ColorTheme) : list Anchor :=
  match theme with
  | viridis =>
      [ rgb 68 1 84; rgb 72 40 120; rgb 62 73 137; rgb 49 104 142;
        rgb 38 130 142; rgb 31 158 137; rgb 53 183 121; rgb 110 206 88;
        rgb 181 222 43; rgb 253 231 37 ]
  | plasma =>
      [ rgb 13 8 135; rgb 75 3 161; rgb 125 3 168; rgb 168 34 150;
        rgb 203 70 121; rgb 229 107 93; rgb 248 148 65; rgb 253 195 40;
        rgb 240 249 33 ]
  | cool =>
      [ rgb 0 255 255; rgb 51 204 255; rgb 102 153 255; rgb 153 102 255;
        rgb 204 51 255; rgb 255 0 255 ]
  | hot =>
      [ rgb 0 0 0; rgb 128 0 0; rgb 255 0 0; rgb 255 128 0;
        rgb 255 255 0; rgb 255 255 128; rgb 255 255 255 ]
  | rainbow =>
      [ rgb 148 0 211; rgb 75 0 130; rgb 0 0 255; rgb 0 255 0;
        rgb 255 255 0; rgb 255 127 0; rgb 255 0 0 ]
  | grayscale =>
      [ rgb 0 0 0; rgb 64 64 64; rgb 128 128 128; rgb 192 192 192;
        rgb 255 255 255 ]
  end.

(** The array index a number denotes when used as a property key:
    a non-negative integer; anything else names no element. *)
Definition arrayIndex (n : number) : option nat :=
  match n with
  | Finite q =>
      if Qc_eq_bool q (Q2Qc (inject_Z (Qfloor q))) && (0 <=? Qfloor q)%Z
      then Some (Z.to_nat (Qfloor q))
      else None
  | _ => None
  end.

(** [colors[k]] for a numeric key: [None] is [undefined]. *)
Definition element {A} (colors : list A) (k : number) : option A :=
  match arrayIndex k with
  | Some i => nth_error colors i
  | None => None
  end.

(** [Math.round(c1[k] + (c2[k] - c1[k]) * frac)] *)
Definition mix (c1 c2 frac : number) : number :=
  Math_round (c1 + (c2 - c1) * frac).

(** [getColor(t, theme)] on an explicit colour table, part_000 lines 66-90.
    The result is the channel triple the returned string [rgb(r, g, b)]
    prints; [None] is the [TypeError] of reading a channel of
    [undefined]. *)
Definition getColorFrom (colors : list Anchor) (t : number) : option Anchor :=
  (* Clamp t to [0, 1] *)
  let t := Math_max (lit 0) (Math_min (lit 1) t) in
  (* Interpolate through the colormap *)
  let scaled := t * (ofNat (List.length colors) - lit 1) in
  let idx := Math_floor scaled in
  let frac := scaled - idx in
  if idx >=? ofNat (List.length colors) - lit 1
  then element colors (ofNat (List.length colors) - lit 1)
  else
    match element colors idx, element colors (idx + lit 1) with
    | Some (r1, g1, b1), Some (r2, g2, b2) =>
        Some (mix r1 r2 frac, mix g1 g2 frac, mix b1 b2 frac)
    | _, _ => None
    end.

Definition getColor (t : number) (theme : ColorTheme) : option Anchor :=
  getColorFrom (colorMaps theme) t.

(** A channel value in [[0, 255]]. *)
Definition channel (v : number) : bool := (lit 0 <=? v) && (v <=? lit 255).

Definition channels (c : Anchor) : bool :=
  let '(r, g, b) := c in channel r && channel g && channel b.

(* ================================================================== *)
(** ** A reference host *)
(* ================================================================== *)

(** An instance of [Host] for the smallest fragment of JavaScript that
    shows how a [Function]-constructed function resolves names: the source
    is one decimal integer literal or one identifier; an identifier is
    looked up among the parameters first and then in the global object,
    and is a [ReferenceError] when neither has it.  Sources outside the
    fragment are reported as [SyntaxError]: the instance serves to
    exercise the statements below on concrete inputs, it is not an
    engine. *)
Module ReferenceHost.

(** The ambient state: the properties of the global object. *)
Definition World : Type := list (string * JsValue).

Fixpoint lookup (name : string) (env : list (string * JsValue))
  : option JsValue :=
  match env with
  | [] => None
  | (k, v) :: rest => if (k =? name)%string then Some v else lookup name rest
  end.

Definition isDigit (c : ascii) : bool :=
  let n := nat_of_ascii c in (48 <=? n)%nat && (n <=? 57)%nat.

Definition isLetter (c : ascii) : bool :=
  let n := nat_of_ascii c in
  ((65 <=? n)%nat && (n <=? 90)%nat) || ((97 <=? n)%nat && (n <=? 122)%nat)
  || (n =? 95)%nat || (n =? 36)%nat.

Fixpoint allChars (p : ascii -> bool) (s : string) : bool :=
  match s with
  | EmptyString => true
  | String c rest => p c && allChars p rest
  end.

Definition reserved : list string :=
  [ "return"; "if"; "else"; "for"; "while"; "do"; "var"; "let"; "const";
    "function"; "new"; "delete"; "typeof"; "void"; "in"; "this"; "null";
    "true"; "false"; "throw"; "try"; "catch"; "class"; "yield"; "static" ].

Definition isIdentifier (s : string) : bool :=
  match s with
  | EmptyString => false
  | String c rest =>
      isLetter c && allChars (fun d => isLetter d || isDigit d) rest
      && negb (existsb (String.eqb s) reserved)
  end.

Definition isLiteral (s : string) : bool :=
  match s with
  | EmptyString => false
  | String _ _ => allChars isDigit s
  end.

Fixpoint literalValue (s : string) (acc : Z) : Z :=
  match s with
  | EmptyString => acc
  | String c rest =>
      literalValue rest (10 * acc + Z.of_nat (nat_of_ascii c - 48))%Z
  end.

Definition bodyPrefix : string :=
  newline ++ "      'use strict';" ++ newline ++ "      return ".

Definition bodySuffix : string := ";" ++ newline ++ "    ".

(** The expression between [return] and the final semicolon. *)
Definition returned (body : string) : option string :=
  let n := String.length body in
  let p := String.length bodyPrefix in
  let s := String.length bodySuffix in
  if (p + s <=? n)%nat
     && (substring 0 p body =? bodyPrefix)%string
     && (substring (n - s) s body =? bodySuffix)%string
  then Some (substring p (n - p - s) body)
  else None.

Definition evaluate (expression : string) (params : list string)
  (args : list JsValue) (w : World) : Completion JsValue :=
  if isLiteral expression
  then Normal (VNumber (lit (inject_Z (literalValue expression 0))))
  else
    match lookup expression (combine params args) with
    | Some v => Normal v
    | None =>
        match lookup expression w with
        | Some v => Normal v
        | None => Throw (VString "ReferenceError")
        end
    end.

Definition newFunction (params : list string) (body : string)
  : Completion (list JsValue -> Js World JsValue) :=
  match returned body with
  | Some expression =>
      if isLiteral expression || isIdentifier expression
      then Normal (fun args w => (evaluate expression params args w, w))
      else Throw (VString "SyntaxError")
  | None => Throw (VString "SyntaxError")
  end.

Definition host : Host World :=
  Build_Host World newFunction (VObject 0).

End ReferenceHost.

(* ================================================================== *)
(** ** The divergence of a node in binary64 *)
(* ================================================================== *)

(** The formulas of [derivative] and of the inner loop once more, on the
    binary64 numbers the engine computes with (primitive floats, every
    operation correctly rounded), for the one place where the
    specification speaks of a tolerance.  A decimal literal is the
    correctly rounded quotient of two integers, as in the source. *)
Module Binary64.

Definition ofZ (z : Z) : float := of_uint63 (Uint63.of_Z z).
Definition ofNat (n : nat) : float := ofZ (Z.of_nat n).

Definition h : float := (ofZ 1 / ofZ 100)%float.               (* 0.01 *)
Definition tolerance : float := (ofZ 1 / ofZ 1000000)%float.   (* 1e-6 *)
Definition range : float := ofNat 3.
Definition step : float := (ofNat 2 * range / ofNat gridSize)%float.

Definition derivative (f : float -> float -> float) (x y : float)
  (axis : Axis) : float :=
  match axis with
  | axis_x => ((f (x + h) y - f (x - h) y) / (ofNat 2 * h))%float
  | axis_y => ((f x (y + h) - f x (y - h)) / (ofNat 2 * h))%float
  end.

Definition divergenceAt (Fx Fy : float -> float -> float) (i j : nat)
  : float :=
  let x := (- range + ofNat i * step)%float in
  let y := (range - ofNat j * step)%float in
  (derivative Fx x y axis_x + derivative Fy x y axis_y)%float.

(** [|d - 2| <= 1e-6] *)
Definition nearTwo (d : float) : bool :=
  PrimFloat.leb (PrimFloat.abs (d - ofNat 2)%float) tolerance.

(** A predicate holds at every node [(i, j)], [0 <= i, j <= gridSize]. *)
Definition atEveryNode (p : nat -> nat -> bool) : bool :=
  forallb (fun i => forallb (p i) (seq 0 (gridSize + 1)))
          (seq 0 (gridSize + 1)).

End Binary64.

(* ================================================================== *)
(** ** Predicates and sample inputs of the statements *)
(* ================================================================== *)

(** A point source at a real position with a real strength. *)
Definition realSource (ps : PointSource.t) : Prop :=
  isFinite (PointSource.x ps) = true
  /\ isFinite (PointSource.y ps) = true
  /\ isFinite (PointSource.strength ps) = true.

(** The rotational default field of the 2D view, [fx = "-y"], [fy = "x"],
    as functions of the position. *)
Definition rotationalFx (x y : number) : number := - y.
Definition rotationalFy (x y : number) : number := x.

(** The first [n] slots of row [i] hold the divergence at the nodes
    [(i, 0) .. (i, n - 1)] and the row has no further slot. *)
Definition rowFilled (Fx Fy : number -> number -> number) (i n : nat)
  (row : JsArray number) : Prop :=
  List.length row = n
  /\ forall j, (j < n)%nat -> arrayGet row j = Some (divergenceAt Fx Fy i j).

Definition rowsFilled (Fx Fy : number -> number -> number) (i : nat)
  (grid : JsArray (JsArray number)) : Prop :=
  forall i', (i' < i)%nat ->
    exists row, arrayGet grid i' = Some row
                /\ rowFilled Fx Fy i' (S gridSize) row.

(** Before the first sample the extrema are the initial infinities; from
    the first sample on, both are [c]. *)
Definition extrema (c : Qc) (seen : bool) (st : DivergenceState) : Prop :=
  if seen
  then minDiv st = Finite c /\ maxDiv st = Finite c
  else minDiv st = PosInfinity /\ maxDiv st = NegInfinity.

(** A colour table: at least one anchor, every channel in [[0, 255]]. *)
Definition palette (colors : list Anchor) : Prop :=
  colors <> [] /\ Forall (fun c => channels c = true) colors.

(** Sample inputs of the ticks: a 2D particle about to leave the domain
    in the radial field, a 3D particle whose life runs out. *)
Definition sampleRandom : RandomSource :=
  {| draws := fun _ => lit 0.75; drawn := 0 |}.

Definition sampleParticle : Particle.t :=
  {| Particle.x := lit 2.99; Particle.y := lit 0; Particle.life := lit 0.5 |}.

Definition sampleParticle3D : Particle3D.t :=
  {| Particle3D.position :=
       {| Vector3.x := lit 1; Vector3.y := lit 0; Vector3.z := lit 0 |};
     Particle3D.velocity :=
       {| Vector3.x := lit 0; Vector3.y := lit 0; Vector3.z := lit 0 |};
     Particle3D.life := lit 0.001 |}.

(* ================================================================== *)
(** ** Interaction of the 2D view: coordinates and point sources *)
(* ================================================================== *)

(** The canvas is 600 pixels wide and high. *)
Definition size : number := lit 600.

(** [canvasToFieldCoords(canvasX, canvasY)], part_000 lines 625-631. *)
Definition canvasToFieldCoords (canvasX canvasY : number)
  : number * number :=
  let size := lit 600 in
  let range := lit 3 in
  let fieldX := ((canvasX / size) * (lit 2 * range)) - range in
  let fieldY := range - ((canvasY / size) * (lit 2 * range)) in
  (fieldX, fieldY).

(** Where [animate] draws a field point: part_000 lines 421-422 (particles),
    481-482 (arrows), 528-529 (sources). *)
Definition canvasX (x : number) : number :=
  ((x + range) / (lit 2 * range)) * size.

Definition canvasY (y : number) : number :=
  ((range - y) / (lit 2 * range)) * size.

Inductive InteractionMode : Type := none | add_source | add_sink | drag.

Definition InteractionMode_eqb (a b : InteractionMode) : bool :=
  match a, b with
  | none, none | add_source, add_source | add_sink, add_sink
  | drag, drag => true
  | _, _ => false
  end.

(** The state the handlers of [VectorField2D] read and write:
    [fx], [fy], [interactionMode], [pointSources], [draggedSourceId]
    ([None] is [null]) and [nextSourceIdRef.current]. *)
Record ViewState : Type := {
  fx : string;
  fy : string;
  interactionMode : InteractionMode;
  pointSources : list PointSource.t;
  draggedSourceId : option nat;
  nextSourceId : nat
}.

(** The state of a freshly mounted view, part_000 lines 212-225. *)
Definition initialView : ViewState :=
  {| fx := "-y"; fy := "x"; interactionMode := none; pointSources := [];
     draggedSourceId := None; nextSourceId := 0 |}.

Section Handlers.
(** [Math.sqrt] is the engine's; no property of it is assumed. *)
Variable Math_sqrt : number -> number.

(** The loop of the [drag] branch, part_000 lines 644-652: the id of the
    first source within the click radius, if any. *)
Fixpoint clickedSource (pointSources : list PointSource.t)
  (fieldX fieldY : number) : option nat :=
  match pointSources with
  | [] => None
  | ps :: rest =>
      let dx := PointSource.x ps - fieldX in
      let dy := PointSource.y ps - fieldY in
      let distance := Math_sqrt (dx * dx + dy * dy) in
      if distance <? lit 0.3   (* click radius in field coordinates *)
      then Some (PointSource.id ps)
      else clickedSource rest fieldX fieldY
  end.

(** [handleCanvasMouseDown], part_000 lines 633-672.  [mounted] is
    [canvasRef.current] being set; [clickX], [clickY] are the pointer
    position relative to the canvas. *)
Definition handleCanvasMouseDown (mounted : bool) (clickX clickY : number)
  (st : ViewState) : ViewState :=
  if negb mounted then st
  else
    let (fieldX, fieldY) := canvasToFieldCoords clickX clickY in
    match interactionMode st with
    | drag =>
        match clickedSource (pointSources st) fieldX fieldY with
        | Some id =>
            {| fx := fx st; fy := fy st;
               interactionMode := interactionMode st;
               pointSources := pointSources st;
               draggedSourceId := Some id;
               nextSourceId := nextSourceId st |}
        | None => st
        end
    | add_source =>
        {| fx := fx st; fy := fy st;
           interactionMode := none;
           pointSources :=
             app (pointSources st)
                 [ {| PointSource.id := nextSourceId st;
                      PointSource.x := fieldX;
                      PointSource.y := fieldY;
                      PointSource.strength := lit 2;
                      PointSource.type := source |} ];
           draggedSourceId := draggedSourceId st;
           nextSourceId := S (nextSourceId st) |}
    | add_sink =>
        {| fx := fx st; fy := fy st;
           interactionMode := none;
           pointSources :=
             app (pointSources st)
                 [ {| PointSource.id := nextSourceId st;
                      PointSource.x := fieldX;
                      PointSource.y := fieldY;
                      PointSource.strength := lit (-2);
                      PointSource.type := sink |} ];
           draggedSourceId := draggedSourceId st;
           nextSourceId := S (nextSourceId st) |}
    | none => st
    end.
End Handlers.

(** [handleCanvasMouseMove], part_000 lines 674-688. *)
Definition handleCanvasMouseMove (mounted : bool) (moveX moveY : number)
  (st : ViewState) : ViewState :=
  match draggedSourceId st with
  | None => st
  | Some dragged =>
      if negb mounted then st
      else
        let (fieldX, fieldY) := canvasToFieldCoords moveX moveY in
        {| fx := fx st; fy := fy st;
           interactionMode := interactionMode st;
           pointSources :=
             map (fun ps =>
                    if (PointSource.id ps =? dragged)%nat
                    then {| PointSource.id := PointSource.id ps;
                            PointSource.x := fieldX;
                            PointSource.y := fieldY;
                            PointSource.strength := PointSource.strength ps;
                            PointSource.type := PointSource.type ps |}
                    else ps)
                 (pointSources st);
           draggedSourceId := draggedSourceId st;
           nextSourceId := nextSourceId st |}
  end.

(** [handleCanvasMouseUp], part_000 lines 690-692. *)
Definition handleCanvasMouseUp (st : ViewState) : ViewState :=
  {| fx := fx st; fy := fy st; interactionMode := interactionMode st;
     pointSources := pointSources st;
     draggedSourceId := None;
     nextSourceId := nextSourceId st |}.

(** [removePointSource(id)], part_000 lines 694-696. *)
Definition removePointSource (id : nat) (st : ViewState) : ViewState :=
  {| fx := fx st; fy := fy st; interactionMode := interactionMode st;
     pointSources :=
       filter (fun ps => negb (PointSource.id ps =? id)%nat)
              (pointSources st);
     draggedSourceId := draggedSourceId st;
     nextSourceId := nextSourceId st |}.

(** [clearPointSources], part_000 lines 698-700. *)
Definition clearPointSources (st : ViewState) : ViewState :=
  {| fx := fx st; fy := fy st; interactionMode := interactionMode st;
     pointSources := [];
     draggedSourceId := draggedSourceId st;
     nextSourceId := nextSourceId st |}.

(** [handlePreset(preset)], part_000 lines 620-623: the two sources of a
    field preset replace the current ones. *)
Definition handlePreset (presetFx presetFy : string) (st : ViewState)
  : ViewState :=
  {| fx := presetFx; fy := presetFy;
     interactionMode := interactionMode st;
     pointSources := pointSources st;
     draggedSourceId := draggedSourceId st;
     nextSourceId := nextSourceId st |}.

(** [loadPhysicsPreset(preset)] on the view state, part_000 lines 702-710. *)
Definition loadPreset (preset : PhysicsPreset.t) (st : ViewState)
  : ViewState :=
  let (newSources, next) := loadPhysicsPreset preset (nextSourceId st) in
  {| fx := PhysicsPreset.fx preset; fy := PhysicsPreset.fy preset;
     interactionMode := interactionMode st;
     pointSources := newSources;
     draggedSourceId := draggedSourceId st;
     nextSourceId := next |}.

(** The three mode buttons, part_000 lines 832, 842 and 852:
    [setInteractionMode(interactionMode === m ? 'none' : m)]. *)
Definition toggleMode (m : InteractionMode) (st : ViewState) : ViewState :=
  {| fx := fx st; fy := fy st;
     interactionMode :=
       if InteractionMode_eqb (interactionMode st) m then none else m;
     pointSources := pointSources st;
     draggedSourceId := draggedSourceId st;
     nextSourceId := nextSourceId st |}.

(** What the user can do to the view. *)
Inductive Action : Type :=
  | MouseDown (mounted : bool) (clickX clickY : number)
  | MouseMove (mounted : bool) (moveX moveY : number)
  | MouseUp
  | Remove (id : nat)
  | ClearAll
  | Preset (presetFx presetFy : string)
  | Physics (preset : PhysicsPreset.t)
  | Toggle (m : InteractionMode).

Definition act (Math_sqrt : number -> number) (st : ViewState) (a : Action)
  : ViewState :=
  match a with
  | MouseDown mounted clickX clickY =>
      handleCanvasMouseDown Math_sqrt mounted clickX clickY st
  | MouseMove mounted moveX moveY =>
      handleCanvasMouseMove mounted moveX moveY st
  | MouseUp => handleCanvasMouseUp st
  | Remove id => removePointSource id st
  | ClearAll => clearPointSources st
  | Preset presetFx presetFy => handlePreset presetFx presetFy st
  | Physics preset => loadPreset preset st
  | Toggle m => toggleMode m st
  end.

(** The view after a sequence of actions. *)
Definition actAll (Math_sqrt : number -> number) (st : ViewState)
  (actions : list Action) : ViewState :=
  fold_left (act Math_sqrt) actions st.

(** The ids of the sources are pairwise distinct and below the counter. *)
Definition wellNumbered (st : ViewState) : Prop :=
  NoDup (map PointSource.id (pointSources st))
  /\ Forall (fun ps => (PointSource.id ps < nextSourceId st)%nat)
            (pointSources st).

(** The source [ps] moved to [(x, y)]. *)
Definition movedTo (x y : number) (ps : PointSource.t) : PointSource.t :=
  {| PointSource.id := PointSource.id ps;
     PointSource.x := x;
     PointSource.y := y;
     PointSource.strength := PointSource.strength ps;
     PointSource.type := PointSource.type ps |}.

(** The test of the [drag] loop: the source is within the click radius of
    [(fieldX, fieldY)], as [Math_sqrt] reports the distance. *)
Definition withinReach (Math_sqrt : number -> number) (fieldX fieldY : number)
  (ps : PointSource.t) : bool :=
  let dx := PointSource.x ps - fieldX in
  let dy := PointSource.y ps - fieldY in
  Math_sqrt (dx * dx + dy * dy) <? lit 0.3.

(** The field without a base: every component zero. *)
Definition zeroField (x y : number) : number := lit 0.

(** A single source of the given strength at [(px, py)]. *)
Definition sourceAt (px py strength : number) : PointSource.t :=
  {| PointSource.id := 0;
     PointSource.x := px;
     PointSource.y := py;
     PointSource.strength := strength;
     PointSource.type := source |}.


(** The remaining life of a particle is in [[0, 1]]; it is positive. *)
Definition lifeWithin (particle : Particle.t) : bool :=
  (lit 0 <=? Particle.life particle) && (Particle.life particle <=? lit 1).

Definition lifePositive (particle : Particle.t) : bool :=
  lit 0 <? Particle.life particle.

(* ================================================================== *)
(** ** The particle system of the 3D view over many frames *)
(* ================================================================== *)

Definition zeroVector : Vector3.t :=
  {| Vector3.x := lit 0; Vector3.y := lit 0; Vector3.z := lit 0 |}.

(** [Array.from({ length: count }, () => ...)], part_001 lines 183-192:
    the callback runs once per index in increasing order and draws the
    three coordinates, then the life. *)
Fixpoint initParticles3D (count : nat) (range : number) (rng : RandomSource)
  : list Particle3D.t * RandomSource :=
  match count with
  | O => ([], rng)
  | S count' =>
      let (r1, rng) := Math_random rng in
      let (r2, rng) := Math_random rng in
      let (r3, rng) := Math_random rng in
      let (r4, rng) := Math_random rng in
      let particle :=
        {| Particle3D.position :=
             {| Vector3.x := (r1 * lit 2 - lit 1) * range;
                Vector3.y := (r2 * lit 2 - lit 1) * range;
                Vector3.z := (r3 * lit 2 - lit 1) * range |};
           Particle3D.velocity := zeroVector;
           Particle3D.life := r4 |} in
      let (rest, rng) := initParticles3D count' range rng in
      (particle :: rest, rng)
  end.

(** Consecutive calls of the [useFrame] callback with the animation on
    and the points mounted; [deltas] are the frame times handed in. *)
Fixpoint runFrames3D (Fx Fy Fz : number -> number -> number -> number)
  (range speed : number) (deltas : list number)
  (particles : list Particle3D.t) (rng : RandomSource)
  : list Particle3D.t * RandomSource :=
  match deltas with
  | [] => (particles, rng)
  | delta :: rest =>
      let (particles', rng) :=
        useFrame Fx Fy Fz range speed delta true true particles rng in
      runFrames3D Fx Fy Fz range speed rest particles' rng
  end.

Definition lifeWithin3D (particle : Particle3D.t) : bool :=
  (lit 0 <=? Particle3D.life particle) && (Particle3D.life particle <=? lit 1).

(** What the particle system keeps of every particle. *)
Definition inPlay3D (range3 : number) (particle : Particle3D.t) : Prop :=
  inDomain3D range3 particle = true
  /\ lifeWithin3D particle = true
  /\ Particle3D.velocity particle = zeroVector.

(* ================================================================== *)
(** ** The opacity of a background cell *)
(* ================================================================== *)

Section Pulse.
(** [Math.sin] and [Math.PI] of the host. *)
Variable Math_sin : number -> number.
Variable Math_PI : number.


End Pulse.


(* ================================================================== *)
(** ** Drawing a particle *)
(* ================================================================== *)

(** A line on the canvas with the opacity of its stroke style. *)
Record Stroke : Type := {
  fromX : number;
  fromY : number;
  toX : number;
  toY : number;
  strokeAlpha : number
}.

Section ParticleArrow.
Variable Math_sqrt : number -> number.

(** The shaft of the arrow of a particle, part_000 lines 421-446; [vx]
    and [vy] are the samples taken at the top of the loop body.  [None]:
    nothing is drawn. *)
Definition particleArrow (vx vy : number) (particle : Particle.t)
  : option Stroke :=
  let canvasX := canvasX (Particle.x particle) in
  let canvasY := canvasY (Particle.y particle) in
  let magnitude := Math_sqrt (vx * vx + vy * vy) in
  let alpha :=
    Particle.life particle * Math_min (lit 1) (magnitude * lit 0.3 + lit 0.5) in
  if magnitude >? lit 0.01
  then
    let arrowScale := lit 8 in
    let arrowLength := Math_min (magnitude * arrowScale) (lit 15) in
    let dirX := vx / magnitude in
    let dirY := (- vy) / magnitude in
    let endX := canvasX + dirX * arrowLength in
    let endY := canvasY + dirY * arrowLength in
    Some {| fromX := canvasX; fromY := canvasY;
            toX := endX; toY := endY; strokeAlpha := alpha |}
  else None.

(** The whole loop body for one particle, part_000 lines 400-465: sample,
    update, draw. *)
Definition drawParticle (Fx Fy : number -> number -> number)
  (animationSpeed : number) (particle : Particle.t) (rng : RandomSource)
  : Particle.t * option Stroke * RandomSource :=
  let vx := Fx (Particle.x particle) (Particle.y particle) in
  let vy := Fy (Particle.x particle) (Particle.y particle) in
  let (particle', rng) := updateParticle Fx Fy animationSpeed particle rng in
  (particle', particleArrow vx vy particle', rng).
End ParticleArrow.

(** A coordinate on the canvas. *)
Definition onCanvas (c : number) : bool := (lit 0 <=? c) && (c <=? size).

(** A square root of the host is real and not negative on real,
    non-negative arguments. *)
Definition realRoot (Math_sqrt : number -> number) : Prop :=
  forall v, isFinite v = true -> (lit 0 <=? v) = true ->
            isFinite (Math_sqrt v) = true /\ (lit 0 <=? Math_sqrt v) = true.

(* ================================================================== *)
(** ** The lifetime of a particle *)
(* ================================================================== *)


(* ================================================================== *)
(** ** The arrows of the 3D view *)
(* ================================================================== *)

Module ArrowData.
Record t : Type := {
  position : number * number * number;
  direction : number * number * number;
  magnitude : number
}.
End ArrowData.

Section VectorArrows.
Variable Math_sqrt : number -> number.
Variables Fx Fy Fz : number -> number -> number -> number.

(** The body of the innermost loop of [VectorArrows], part_001 lines
    71-88: the arrow pushed for the node [(i, j, k)], if any. *)
Definition arrowAt (range step : number) (i j k : nat)
  : option ArrowData.t :=
  let x := - range + ofNat i * step in
  let y := - range + ofNat j * step in
  let z := - range + ofNat k * step in
  let vx := Fx x y z in
  let vy := Fy x y z in
  let vz := Fz x y z in
  if negb (isFinite vx) || negb (isFinite vy) || negb (isFinite vz)
  then None
  else
    let magnitude := Math_sqrt (vx * vx + vy * vy + vz * vz) in
    if magnitude <? lit 0.01 then None
    else Some {| ArrowData.position := (x, y, z);
                 ArrowData.direction := (vx, vy, vz);
                 ArrowData.magnitude := magnitude |}.

(** [arrowData] of [VectorArrows], part_001 lines 60-93: the three loops
    run for [0 <= i, j, k <= gridSize] and push in that order. *)
Definition VectorArrows (gridSize : nat) (range : number)
  : list ArrowData.t :=
  let step := (lit 2 * range) / ofNat gridSize in
  flat_map
    (fun i =>
       flat_map
         (fun j =>
            flat_map
              (fun k =>
                 match arrowAt range step i j k with
                 | Some arrow => [arrow]
                 | None => []
                 end)
              (seq 0 (S gridSize)))
         (seq 0 (S gridSize)))
    (seq 0 (S gridSize)).
End VectorArrows.

(** The dimensions [Arrow] gives to an arrow, part_001 lines 133-134. *)
Definition arrowLength (magnitude : number) : number :=
  Math_min (magnitude * lit 0.3) (lit 0.5).

Definition arrowHeadLength (magnitude : number) : number :=
  arrowLength magnitude * lit 0.25.

(** The height of the shaft cylinder, part_001 line 145. *)
Definition arrowShaftLength (magnitude : number) : number :=
  arrowLength magnitude - arrowHeadLength magnitude.

(** A point of the cube [[-r, r]^3]; a triple of real numbers. *)
Definition inCube (r : number) (p : number * number * number) : bool :=
  let '(x, y, z) := p in within r x && within r y && within r z.

Definition realVector (v : number * number * number) : bool :=
  let '(x, y, z) := v in isFinite x && isFinite y && isFinite z.

(* ================================================================== *)
(** ** The volumetric view of the 3D field *)
(* ================================================================== *)


Section VolumetricField.
Variable Math_sqrt : number -> number.
Variables Fx Fy Fz : number -> number -> number -> number.






End VolumetricField.


(* ================================================================== *)
(** ** The static arrows of the 2D view *)
(* ================================================================== *)

(** [a || b] on numbers: [b] when [a] is 0 or [NaN]. *)
Definition orElse (a b : number) : number :=
  match a with
  | NaN => b
  | Finite q => if Qc_eq_bool q (Q2Qc 0) then b else a
  | _ => a
  end.

(** The centre of the cell [(i, j)] of the arrow grid, part_000 lines
    472-473. *)
Definition arrowNodeX (i : nat) : number :=
  - range + ofNat i * arrowStep + arrowStep / lit 2.

Definition arrowNodeY (j : nat) : number :=
  range - ofNat j * arrowStep - arrowStep / lit 2.

Section StaticArrows.
Variable Math_sqrt : number -> number.
Variables Fx Fy : number -> number -> number.

(** The body of the loops over the arrow grid, part_000 lines 472-505:
    the shaft drawn for the cell [(i, j)], if any. *)
Definition staticArrow (isAnimating : bool) (i j : nat) : option Stroke :=
  let x := arrowNodeX i in
  let y := arrowNodeY j in
  let vx := Fx x y in
  let vy := Fy x y in
  if negb (isFinite vx) || negb (isFinite vy) then None
  else
    let magnitude := Math_sqrt (vx * vx + vy * vy) in
    let canvasX := canvasX x in
    let canvasY := canvasY y in
    let scale := lit 15 in
    let arrowLength := magnitude * scale in
    if arrowLength <? lit 0.5 then None
    else
      let dirX := vx / orElse magnitude (lit 1) in
      let dirY := (- vy) / orElse magnitude (lit 1) in
      let endX := canvasX + dirX * arrowLength in
      let endY := canvasY + dirY * arrowLength in
      (* More visible when paused, faded when animating with particles *)
      let baseAlpha :=
        if isAnimating
        then Math_min (lit 1) (magnitude * lit 0.3 + lit 0.2) * lit 0.3
        else Math_min (lit 1) (magnitude * lit 0.5 + lit 0.4) in
      Some {| fromX := canvasX; fromY := canvasY;
              toX := endX; toY := endY; strokeAlpha := baseAlpha |}.

(** The two loops, part_000 lines 470-524, as the list of shafts drawn,
    in order. *)
Definition staticArrows (isAnimating : bool) : list Stroke :=
  flat_map
    (fun i =>
       flat_map
         (fun j =>
            match staticArrow isAnimating i j with
            | Some stroke => [stroke]
            | None => []
            end)
         (seq 0 arrowGridSize))
    (seq 0 arrowGridSize).
End StaticArrows.

(* ================================================================== *)
(** * Properties *)
(* ================================================================== *)

Local Open Scope string_scope.
Local Open Scope js_scope.

(** ** Arithmetic of [number] *)

Lemma this_Q2Qc (q : Q) : (this (Q2Qc q) == q)%Q.
Proof. apply Qred_correct. Qed.

#[global] Instance Q2Qc_Proper : Proper (Qeq ==> eq) Q2Qc.
Proof. intros p q E. now apply Q2Qc_eq_iff. Qed.

(** Turns a goal on canonical rationals into one on plain rationals,
    where [lra], [nra] and [field] apply. *)
Ltac to_Q :=
  unfold Qcle, Qclt, Qcdiv, Qcminus, Qcplus, Qcmult, Qcopp, Qcinv in *;
  repeat match goal with
  | H : ?a = ?b :> Qc |- _ =>
      let H' := fresh H in
      assert (H' : (this a == this b)%Q) by (rewrite H; reflexivity); clear H
  | H : _ <> _ :> Qc |- _ =>
      let H' := fresh H in
      assert (H' := fun e => H (Qc_is_canon _ _ e)); clear H
  end;
  try apply Qc_is_canon;
  repeat match goal with
  | H : context [this (Q2Qc _)] |- _ => setoid_rewrite this_Q2Qc in H
  | |- context [this (Q2Qc _)] => setoid_rewrite this_Q2Qc
  end.

Lemma le_Finite (p q : Qc) : (Finite p <=? Finite q) = true <-> (p <= q)%Qc.
Proof.
  unfold le. rewrite Qcle_alt.
  destruct (p ?= q)%Qc; split; intros; congruence.
Qed.

Lemma lt_Finite (p q : Qc) : (Finite p <? Finite q) = true <-> (p < q)%Qc.
Proof.
  unfold lt. rewrite Qclt_alt.
  destruct (p ?= q)%Qc; split; intros; congruence.
Qed.

Lemma gt_Finite_false (p q : Qc) :
  (Finite p >? Finite q) = false <-> (p <= q)%Qc.
Proof.
  unfold gt, lt. rewrite Qcle_alt. unfold Qccompare.
  rewrite <- (Qcompare_antisym p q).
  destruct (p ?= q)%Q; cbn; split; intros; congruence.
Qed.

Lemma strictEq_Finite (p q : Qc) : (Finite p === Finite q) = true <-> p = q.
Proof.
  cbn. split.
  - apply Qc_eq_bool_correct.
  - intros ->. unfold Qc_eq_bool. destruct (Qc_eq_dec q q); congruence.
Qed.

Lemma sgn_Eq (q : Qc) : sgn q = Eq <-> q = Q2Qc 0.
Proof. unfold sgn. symmetry. apply Qceq_alt. Qed.

Lemma sgn_Lt (q : Qc) : sgn q = Lt <-> (q < Q2Qc 0)%Qc.
Proof. unfold sgn. symmetry. apply Qclt_alt. Qed.

Lemma sgn_Gt (q : Qc) : sgn q = Gt <-> (Q2Qc 0 < q)%Qc.
Proof. unfold sgn. symmetry. apply (Qcgt_alt q (Q2Qc 0)). Qed.

Lemma isFinite_inv (a : number) : isFinite a = true -> exists q, a = Finite q.
Proof. destruct a; try discriminate. eauto. Qed.

Lemma add_assoc (a b c : number) : a + (b + c) = (a + b) + c.
Proof.
  destruct a, b, c; cbn; try reflexivity.
  f_equal. apply Qcplus_assoc.
Qed.

Lemma add_0_r (a : number) : a + lit 0 = a.
Proof. destruct a; cbn; try reflexivity. f_equal. apply Qcplus_0_r. Qed.


Lemma div_Finite (p q : Qc) :
  q <> Q2Qc 0 -> Finite p / Finite q = Finite (p / q)%Qc.
Proof.
  intros H. unfold div.
  destruct (sgn q) eqn:E; try reflexivity.
  apply sgn_Eq in E. contradiction.
Qed.

Lemma Finite_eq (p q : Qc) : (p == q)%Q -> Finite p = Finite q.
Proof. intros H. f_equal. now apply Qc_is_canon. Qed.

(** Decides an equation between closed finite numbers by evaluation. *)
Ltac number_eq := vm_compute; apply Finite_eq; vm_compute; reflexivity.

(** Destructs the numbers known to be finite. *)
Ltac finite :=
  repeat match goal with
  | H : isFinite ?a = true |- _ =>
      let q := fresh "q" in
      apply isFinite_inv in H; destruct H as [q ->]
  end.

Section ExpressionCompilerFacts.
Context {World : Type} (host : Host World).

Lemma finiteOrZero_isFinite (v : JsValue) : isFinite (finiteOrZero v) = true.
Proof.
  destruct v as [n| | | | |]; try reflexivity.
  cbn. destruct n; reflexivity.
Qed.

Lemma finiteOrZero_number (n : number) :
  finiteOrZero (VNumber n) = if isFinite n then n else lit 0.
Proof. reflexivity. Qed.
End ExpressionCompilerFacts.

(** C1.  For every host, source string, argument tuple and ambient state,
    a call of the function returned by [createFieldFunction] (and by
    [createFieldFunction3D]) completes normally: when [new Function]
    throws it yields 0; when the evaluation throws it yields 0; when the
    evaluation returns something that is not a finite number it yields 0;
    otherwise it yields the evaluated number.  The result is always a
    finite number, never a [Throw]. *)
Theorem createFieldFunction_total :
  forall (World : Type) (host : Host World) (expression : string)
         (x y z : number) (w : World),
    let outcome (evaluation : Completion JsValue * World) :=
      match evaluation with
      | (Throw _, w') => (Normal (lit 0), w')
      | (Normal (VNumber n), w') =>
          (Normal (if isFinite n then n else lit 0), w')
      | (Normal _, w') => (Normal (lit 0), w')
      end in
    createFieldFunction host expression x y w =
      match newFunction host ["x"; "y"; "Math"] (functionBody expression) with
      | Throw _ => (Normal (lit 0), w)
      | Normal func => outcome (func [VNumber x; VNumber y; Math host] w)
      end
    /\ createFieldFunction3D host expression x y z w =
      match newFunction host ["x"; "y"; "z"; "Math"]
                        (functionBody expression) with
      | Throw _ => (Normal (lit 0), w)
      | Normal func =>
          outcome (func [VNumber x; VNumber y; VNumber z; Math host] w)
      end
    /\ (exists n w', createFieldFunction host expression x y w = (Normal n, w')
                     /\ isFinite n = true)
    /\ (exists n w', createFieldFunction3D host expression x y z w
                     = (Normal n, w')
                     /\ isFinite n = true).
Proof.
  intros World host expression x y z w outcome.
  unfold createFieldFunction, createFieldFunction3D, tryCatch, ret.
  destruct (newFunction host ["x"; "y"; "Math"] (functionBody expression))
    as [f2|e2];
  destruct (newFunction host ["x"; "y"; "z"; "Math"] (functionBody expression))
    as [f3|e3];
  repeat split;
  repeat match goal with
  | |- context [f2 ?a ?w] => destruct (f2 a w) as [[[n| | | | |]|?] ?]
  | |- context [f3 ?a ?w] => destruct (f3 a w) as [[[n| | | | |]|?] ?]
  end; cbn; try reflexivity;
  try (eexists; eexists; split; [reflexivity|]);
  try reflexivity;
  try (destruct n; reflexivity).
Qed.

(** On the reference host: the malformed source ["x +"] does not compile
    and yields the zero function; the unbound identifier ["foo"] compiles,
    throws a [ReferenceError] at every call, and yields 0; the source
    ["x"] yields its first argument when that is finite and 0 when it is
    not. *)
Example malformed_source_is_zero (x y : number) (w : ReferenceHost.World) :
  createFieldFunction ReferenceHost.host "x +" x y w = (Normal (lit 0), w).
Proof. reflexivity. Qed.

Example unbound_identifier_is_zero (x y : number) :
  createFieldFunction ReferenceHost.host "foo" x y [] = (Normal (lit 0), []).
Proof. reflexivity. Qed.

Example non_finite_result_is_zero :
  createFieldFunction ReferenceHost.host "x" (lit 1.5) (lit 0) []
  = (Normal (lit 1.5), [])
  /\ createFieldFunction ReferenceHost.host "x" PosInfinity (lit 0) []
     = (Normal (lit 0), [])
  /\ createFieldFunction ReferenceHost.host "x" NaN (lit 0) []
     = (Normal (lit 0), []).
Proof. repeat split; reflexivity. Qed.

(** The wrapper adds no isolation of its own: a finite number the host
    function computes, and the ambient state it leaves, are passed on as
    they are. *)
Lemma createFieldFunction_transparent {World} (host : Host World)
  (expression : string) (func : list JsValue -> Js World JsValue)
  (x y n : number) (w w' : World) :
  newFunction host ["x"; "y"; "Math"] (functionBody expression) = Normal func ->
  func [VNumber x; VNumber y; Math host] w = (Normal (VNumber n), w') ->
  isFinite n = true ->
  createFieldFunction host expression x y w = (Normal n, w').
Proof.
  intros Hnew Hrun Hfin. unfold createFieldFunction, tryCatch.
  rewrite Hnew, Hrun. cbn. now rewrite Hfin.
Qed.

(** C2 is not what the code does.  On the reference host, whose functions
    resolve a free identifier in the global object as the [Function]
    constructor prescribes, the source ["innerWidth"] compiles, and the
    compiled function, called twice with the arguments (0, 0), returns 800
    when the global [innerWidth] is 800 and 1024 when it is 1024: the
    identifier is neither a declared variable nor [Math], and the result
    depends on ambient state.  The 3D wrapper behaves alike. *)
Theorem createFieldFunction_reads_global_state :
  let narrow := [("innerWidth", VNumber (lit 800))] in
  let wide := [("innerWidth", VNumber (lit 1024))] in
  let f := createFieldFunction ReferenceHost.host "innerWidth" in
  let f3 := createFieldFunction3D ReferenceHost.host "innerWidth" in
  f (lit 0) (lit 0) narrow = (Normal (lit 800), narrow)
  /\ f (lit 0) (lit 0) wide = (Normal (lit 1024), wide)
  /\ f3 (lit 0) (lit 0) (lit 0) narrow = (Normal (lit 800), narrow)
  /\ f3 (lit 0) (lit 0) (lit 0) wide = (Normal (lit 1024), wide)
  /\ fst (f (lit 0) (lit 0) narrow) <> fst (f (lit 0) (lit 0) wide).
Proof.
  cbv zeta. repeat split; try (vm_compute; reflexivity).
  vm_compute. discriminate.
Qed.

(* ================================================================== *)
(** ** FieldEvaluator *)
(* ================================================================== *)

Lemma fold_left_sumOver {A} (term : A -> number) (l : list A) (acc : number) :
  fold_left (fun s a => s + term a) l acc = acc + sumOver term l.
Proof.
  revert acc. induction l as [|a l IH]; intros acc; cbn.
  - symmetry. apply add_0_r.
  - rewrite IH. symmetry. apply add_assoc.
Qed.

Lemma Fx_effectiveX baseFx pointSources x y :
  Fx baseFx pointSources x y = effectiveX baseFx pointSources x y.
Proof. unfold Fx, effectiveX. apply fold_left_sumOver. Qed.

Lemma Fy_effectiveY baseFy pointSources x y :
  Fy baseFy pointSources x y = effectiveY baseFy pointSources x y.
Proof. unfold Fy, effectiveY. apply fold_left_sumOver. Qed.

(** The regularised squared distance to a source at a real position is a
    real number not below 0.01. *)
Lemma denominator_bound (ps : PointSource.t) (x y : number) :
  isFinite x = true -> isFinite y = true ->
  isFinite (PointSource.x ps) = true -> isFinite (PointSource.y ps) = true ->
  exists q, separationSq ps x y + lit 0.01 = Finite q
            /\ (Q2Qc 0.01 <= q)%Qc.
Proof.
  intros Hx Hy Hpx Hpy. unfold separationSq.
  destruct ps as [i px py s ty]; cbn in *. finite.
  cbn. eexists; split; [reflexivity|].
  to_Q.
  match goal with
  | |- (_ <= ?a * ?a + ?b * ?b + _)%Q => generalize a, b; intros u v
  end.
  nra.
Qed.

(** C5.  Each component of the effective field is the base component plus
    the sum over the sources of
    [strength * (position - source.position)_c / (|position - source.position|^2 + 0.01)];
    with no sources it is the base component; and for a real position and
    a source at a real position the denominator is a real number not
    below 0.01, in particular not zero. *)
Theorem effective_field_combination :
  forall (baseFx baseFy : number -> number -> number)
         (pointSources : list PointSource.t) (x y : number),
    Fx baseFx pointSources x y = effectiveX baseFx pointSources x y
    /\ Fy baseFy pointSources x y = effectiveY baseFy pointSources x y
    /\ Fx baseFx [] x y = baseFx x y
    /\ Fy baseFy [] x y = baseFy x y
    /\ (forall ps,
          isFinite x = true -> isFinite y = true ->
          isFinite (PointSource.x ps) = true ->
          isFinite (PointSource.y ps) = true ->
          isFinite (separationSq ps x y + lit 0.01) = true
          /\ (lit 0.01 <=? separationSq ps x y + lit 0.01) = true
          /\ (separationSq ps x y + lit 0.01 === lit 0) = false).
Proof.
  intros. repeat split; try reflexivity.
  - apply Fx_effectiveX.
  - apply Fy_effectiveY.
  - destruct (denominator_bound ps x y) as [q [-> _]]; auto.
  - destruct (denominator_bound ps x y) as [q [-> Hq]]; auto.
    now apply le_Finite.
  - destruct (denominator_bound ps x y) as [q [-> Hq]]; auto.
    destruct (Finite q === lit 0) eqn:E; [|reflexivity].
    apply strictEq_Finite in E. subst q. exfalso. revert Hq. to_Q. lra.
Qed.

(** C5 at the origin and the source of the dipole preset. *)
Lemma effective_field_combination_witness :
  let ps := {| PointSource.id := 0; PointSource.x := lit (-1);
               PointSource.y := lit 0; PointSource.strength := lit 3;
               PointSource.type := source |} in
  isFinite (separationSq ps (lit 0) (lit 0) + lit 0.01) = true
  /\ (lit 0.01 <=? separationSq ps (lit 0) (lit 0) + lit 0.01) = true
  /\ (separationSq ps (lit 0) (lit 0) + lit 0.01 === lit 0) = false.
Proof.
  intro ps.
  apply (effective_field_combination
           (fun _ _ => lit 0) (fun _ _ => lit 0) [ps] (lit 0) (lit 0));
    reflexivity.
Defined.

(** A compiled source that the host evaluates to a finite number yields
    that number, in every ambient state. *)
Lemma compiled_evaluatesTo {World} (host : Host World) (w : World)
  (expression : string) (g : number -> number -> number) (x y : number) :
  evaluatesTo host expression g ->
  isFinite (g x y) = true ->
  compiled host w expression x y = g x y.
Proof.
  intros [func [Hnew Hrun]] Hfin.
  unfold compiled, valueIn, createFieldFunction. rewrite Hnew.
  unfold tryCatch. specialize (Hrun x y w).
  destruct (func [VNumber x; VNumber y; Math host] w) as [c w'].
  cbn in Hrun. subst c. cbn. now rewrite Hfin.
Qed.


(** One term of the superposition is a real number and is linear in the
    strength. *)
Lemma term_scales (k : Qc) (ps : PointSource.t) (x y d : number) :
  realSource ps -> isFinite x = true -> isFinite y = true ->
  isFinite d = true ->
  exists q,
    PointSource.strength ps * d / (separationSq ps x y + lit 0.01) = Finite q
    /\ (Finite k * PointSource.strength ps) * d
       / (separationSq ps x y + lit 0.01) = Finite (k * q)%Qc.
Proof.
  intros (Hpx & Hpy & Hs) Hx Hy Hd.
  destruct (denominator_bound ps x y Hx Hy Hpx Hpy) as [r [-> Hr]].
  assert (r <> Q2Qc 0) by (intros ->; revert Hr; to_Q; lra).
  destruct ps as [i px py s ty]; cbn in *. finite. cbn [mul].
  rewrite !div_Finite by assumption.
  eexists; split; [reflexivity|]. f_equal.
  to_Q. field. assumption.
Qed.

Lemma Fx_scales (k q : Qc) (pointSources : list PointSource.t) (x y : number) :
  Forall realSource pointSources ->
  isFinite x = true -> isFinite y = true ->
  exists q',
    Fx (fun _ _ => Finite q) pointSources x y = Finite q'
    /\ Fx (fun _ _ => Finite (k * q)%Qc)
          (scaleStrengths (Finite k) pointSources) x y
       = Finite (k * q')%Qc.
Proof.
  intros Hall Hx Hy. unfold Fx. revert q.
  induction Hall as [|ps l Hps Hl IH]; intros q; cbn [fold_left scaleStrengths map].
  - eauto.
  - cbn [PointSource.x PointSource.y PointSource.strength].
    destruct (term_scales k ps x y (x - PointSource.x ps)) as [t [E1 E2]];
      auto.
    { destruct Hps as (Hpx & _). finite. reflexivity. }
    unfold separationSq in E1, E2. rewrite E1, E2.
    cbn [add]. replace (k * q + k * t)%Qc with (k * (q + t))%Qc by ring.
    apply IH.
Qed.

Lemma Fy_scales (k q : Qc) (pointSources : list PointSource.t) (x y : number) :
  Forall realSource pointSources ->
  isFinite x = true -> isFinite y = true ->
  exists q',
    Fy (fun _ _ => Finite q) pointSources x y = Finite q'
    /\ Fy (fun _ _ => Finite (k * q)%Qc)
          (scaleStrengths (Finite k) pointSources) x y
       = Finite (k * q')%Qc.
Proof.
  intros Hall Hx Hy. unfold Fy. revert q.
  induction Hall as [|ps l Hps Hl IH]; intros q; cbn [fold_left scaleStrengths map].
  - eauto.
  - cbn [PointSource.x PointSource.y PointSource.strength].
    destruct (term_scales k ps x y (y - PointSource.y ps)) as [t [E1 E2]];
      auto.
    { destruct Hps as (_ & Hpy & _). finite. reflexivity. }
    unfold separationSq in E1, E2. rewrite E1, E2.
    cbn [add]. replace (k * q + k * t)%Qc with (k * (q + t))%Qc by ring.
    apply IH.
Qed.

Lemma Fx_base_ext b b' pointSources x y :
  b x y = b' x y -> Fx b pointSources x y = Fx b' pointSources x y.
Proof. unfold Fx. now intros ->. Qed.

Lemma Fy_base_ext b b' pointSources x y :
  b x y = b' x y -> Fy b pointSources x y = Fy b' pointSources x y.
Proof. unfold Fy. now intros ->. Qed.

Lemma electricDipole_sources_real (nextSourceId : nat) :
  Forall realSource (fst (loadPhysicsPreset electricDipole nextSourceId)).
Proof. cbn. repeat constructor. Qed.

(** The reference host evaluates the literal [0] to zero. *)
Lemma ReferenceHost_evaluates_0 :
  evaluatesTo ReferenceHost.host "0" (fun _ _ => lit 0).
Proof.
  eexists; split; [vm_compute; reflexivity|].
  intros x y w. reflexivity.
Qed.

(** C6.  For the Electric Dipole preset (sources [fx = fy = "0"], a source
    of strength 3 at (-1, 0) and a sink of strength -3 at (1, 0)) on a host
    that evaluates the source ["0"] to zero: the evaluated vector at the
    origin is finite and non-zero (it is (600/101, 0)), and at every real
    point the vector evaluated with both strengths doubled is exactly twice
    the vector evaluated with the preset's strengths. *)
Theorem dipole_superposition :
  forall (World : Type) (host : Host World) (w : World) (nextSourceId : nat),
    evaluatesTo host "0" (fun _ _ => lit 0) ->
    let pointSources := fst (loadPhysicsPreset electricDipole nextSourceId) in
    let baseFx := compiled host w (PhysicsPreset.fx electricDipole) in
    let baseFy := compiled host w (PhysicsPreset.fy electricDipole) in
    isFinite (Fx baseFx pointSources (lit 0) (lit 0)) = true
    /\ isFinite (Fy baseFy pointSources (lit 0) (lit 0)) = true
    /\ (Fx baseFx pointSources (lit 0) (lit 0) === lit 0) = false
    /\ Fx baseFx pointSources (lit 0) (lit 0) = lit (600 # 101)
    /\ Fy baseFy pointSources (lit 0) (lit 0) = lit 0
    /\ forall x y,
         isFinite x = true -> isFinite y = true ->
         Fx baseFx (scaleStrengths (lit 2) pointSources) x y
         = lit 2 * Fx baseFx pointSources x y
         /\ Fy baseFy (scaleStrengths (lit 2) pointSources) x y
            = lit 2 * Fy baseFy pointSources x y.
Proof.
  intros World host w nextSourceId H0 pointSources baseFx baseFy.
  assert (Hbase : forall x y, compiled host w "0" x y = lit 0)
    by (intros; now apply (compiled_evaluatesTo host w "0" (fun _ _ => lit 0))).
  assert (Ex : Fx baseFx pointSources (lit 0) (lit 0) = lit (600 # 101)).
  { rewrite (Fx_base_ext baseFx (fun _ _ => lit 0)) by apply Hbase.
    number_eq. }
  assert (Ey : Fy baseFy pointSources (lit 0) (lit 0) = lit 0).
  { rewrite (Fy_base_ext baseFy (fun _ _ => lit 0)) by apply Hbase.
    number_eq. }
  rewrite Ex, Ey. repeat split; try reflexivity.
  - rewrite (Fx_base_ext baseFx (fun _ _ => lit 0)) by apply Hbase.
    rewrite (Fx_base_ext baseFx (fun _ _ => lit 0) pointSources)
      by apply Hbase.
    destruct (Fx_scales (Q2Qc 2) (Q2Qc 0) pointSources x y
                (electricDipole_sources_real nextSourceId))
      as [q [E1 E2]]; [assumption..|].
    unfold lit. rewrite E1. rewrite Qcmult_0_r in E2. rewrite E2. reflexivity.
  - rewrite (Fy_base_ext baseFy (fun _ _ => lit 0)) by apply Hbase.
    rewrite (Fy_base_ext baseFy (fun _ _ => lit 0) pointSources)
      by apply Hbase.
    destruct (Fy_scales (Q2Qc 2) (Q2Qc 0) pointSources x y
                (electricDipole_sources_real nextSourceId))
      as [q [E1 E2]]; [assumption..|].
    unfold lit. rewrite E1. rewrite Qcmult_0_r in E2. rewrite E2. reflexivity.
Qed.

(** C6 on the reference host, with the doubling read at (1/2, 1). *)
Lemma dipole_superposition_witness :
  evaluatesTo ReferenceHost.host "0" (fun _ _ => lit 0)
  /\ let pointSources := fst (loadPhysicsPreset electricDipole 0) in
     let baseFx := compiled ReferenceHost.host [] "0" in
     (Fx baseFx pointSources (lit 0) (lit 0) === lit 0) = false
     /\ Fx baseFx (scaleStrengths (lit 2) pointSources) (lit 0.5) (lit 1)
        = lit 2 * Fx baseFx pointSources (lit 0.5) (lit 1).
Proof.
  assert (H : evaluatesTo ReferenceHost.host "0" (fun _ _ => lit 0)).
  { eexists; split; [vm_compute; reflexivity|]. intros x y w. reflexivity. }
  split; [exact H|].
  destruct (dipole_superposition _ ReferenceHost.host [] 0 H)
    as (_ & _ & Hnz & _ & _ & Hdouble).
  split; [exact Hnz|].
  apply (Hdouble (lit 0.5) (lit 1)); reflexivity.
Defined.

(* ================================================================== *)
(** ** DivergenceField *)
(* ================================================================== *)

Section Arrays.
Local Open Scope nat_scope.


Lemma arrayGet_arraySet_same {A} (a : JsArray A) (i : nat) (v : A) :
  arrayGet (arraySet a i v) i = Some v.
Proof.
  revert a. induction i as [|i IH]; intros [|slot rest]; cbn; try reflexivity.
  - apply (IH []).
  - apply IH.
Qed.

Lemma arrayGet_arraySet_other {A} (a : JsArray A) (i j : nat) (v : A) :
  i <> j -> arrayGet (arraySet a i v) j = arrayGet a j.
Proof.
  unfold arrayGet.
  revert a j. induction i as [|i IH]; intros [|slot rest] [|j] H;
    try congruence; cbn [arraySet nth_error].
  - now destruct j.
  - reflexivity.
  - reflexivity.
  - rewrite (IH [] j) by congruence. now destruct j.
  - reflexivity.
  - apply IH. congruence.
Qed.

Lemma length_arraySet {A} (a : JsArray A) (i : nat) (v : A) :
  List.length (arraySet a i v) = Nat.max (List.length a) (S i).
Proof.
  revert a. induction i as [|i IH]; intros [|slot rest]; cbn; try reflexivity.
  - now destruct (List.length rest).
  - now rewrite (IH []).
  - now rewrite IH.
Qed.

(** A counting loop that keeps an invariant runs to its end. *)
Lemma fold_seq_invariant {S} (P : nat -> S -> Prop)
  (body : nat -> S -> option S) (len start : nat) (st : S) :
  P start st ->
  (forall k s, start <= k < start + len -> P k s ->
               exists s', body k s = Some s' /\ P (Datatypes.S k) s') ->
  exists s',
    fold_left
      (fun acc k => match acc with Some s => body k s | None => None end)
      (seq start len) (Some st) = Some s'
    /\ P (start + len) s'.
Proof.
  revert start st. induction len as [|len IH]; intros start st H0 Hstep.
  - cbn. exists st. now rewrite Nat.add_0_r.
  - cbn [seq fold_left].
    destruct (Hstep start st) as [s1 [E1 H1]]; [lia|assumption|].
    rewrite E1.
    destruct (IH (Datatypes.S start) s1 H1) as [s' [E' H']].
    + intros k s Hk. apply Hstep. lia.
    + exists s'. split; [assumption|].
      now replace (start + Datatypes.S len) with (Datatypes.S start + len) by lia.
Qed.

Lemma forUpTo_invariant {S} (P : nat -> S -> Prop)
  (body : nat -> S -> option S) (n : nat) (st : S) :
  P 0 st ->
  (forall k s, k <= n -> P k s ->
               exists s', body k s = Some s' /\ P (Datatypes.S k) s') ->
  exists s', forUpTo n body st = Some s' /\ P (Datatypes.S n) s'.
Proof.
  intros H0 Hstep. unfold forUpTo.
  destruct (fold_seq_invariant P body (n + 1) 0 st H0) as [s' [E H]].
  - intros k s Hk. apply Hstep. lia.
  - exists s'. split; [assumption|].
    now replace (Datatypes.S n) with (0 + (n + 1)) by lia.
Qed.

End Arrays.

Section Grid.
Local Open Scope nat_scope.
Variables Fx Fy : number -> number -> number.


Lemma divergenceCell_step (i j : nat) (st : DivergenceState) :
  List.length (divergenceGrid st) = Datatypes.S i ->
  rowsFilled Fx Fy i (divergenceGrid st) ->
  (exists row, arrayGet (divergenceGrid st) i = Some row
               /\ rowFilled Fx Fy i j row) ->
  exists st',
    divergenceCell Fx Fy i j st = Some st'
    /\ List.length (divergenceGrid st') = Datatypes.S i
    /\ rowsFilled Fx Fy i (divergenceGrid st')
    /\ (exists row, arrayGet (divergenceGrid st') i = Some row
                    /\ rowFilled Fx Fy i (Datatypes.S j) row).
Proof.
  intros Hlen Hrows [row [Hrow [Hrl Hre]]].
  unfold divergenceCell. rewrite Hrow.
  fold (divergenceAt Fx Fy i j).
  set (grid' := arraySet (divergenceGrid st) i
                  (arraySet row j (divergenceAt Fx Fy i j))).
  assert (Hlen' : List.length grid' = Datatypes.S i).
  { unfold grid'. rewrite length_arraySet, Hlen. lia. }
  assert (Hrows' : rowsFilled Fx Fy i grid').
  { intros i' Hi'. unfold grid'.
    rewrite arrayGet_arraySet_other by lia. now apply Hrows. }
  assert (Hrow' : exists row', arrayGet grid' i = Some row'
                               /\ rowFilled Fx Fy i (Datatypes.S j) row').
  { eexists. split; [apply arrayGet_arraySet_same|]. split.
    - rewrite length_arraySet, Hrl. lia.
    - intros j' Hj'. destruct (Nat.eq_dec j' j) as [->|Hne].
      + apply arrayGet_arraySet_same.
      + rewrite arrayGet_arraySet_other by lia. apply Hre. lia. }
  destruct (isFinite (divergenceAt Fx Fy i j));
    eexists; (split; [reflexivity|]); cbn; auto.
Qed.

Lemma divergenceRow_step (i : nat) (st : DivergenceState) :
  List.length (divergenceGrid st) = i ->
  rowsFilled Fx Fy i (divergenceGrid st) ->
  exists st',
    divergenceRow Fx Fy i st = Some st'
    /\ List.length (divergenceGrid st') = Datatypes.S i
    /\ rowsFilled Fx Fy (Datatypes.S i) (divergenceGrid st').
Proof.
  intros Hlen Hrows. unfold divergenceRow.
  set (st0 := {| divergenceGrid := arraySet (divergenceGrid st) i [];
                 minDiv := minDiv st; maxDiv := maxDiv st |}).
  destruct (forUpTo_invariant
              (fun j s =>
                 List.length (divergenceGrid s) = Datatypes.S i
                 /\ rowsFilled Fx Fy i (divergenceGrid s)
                 /\ exists row, arrayGet (divergenceGrid s) i = Some row
                                /\ rowFilled Fx Fy i j row)
              (divergenceCell Fx Fy i) gridSize st0)
    as [st' [E (Hl & Hr & row & Hg & Hf)]].
  - cbn. repeat split.
    + rewrite length_arraySet, Hlen. lia.
    + intros i' Hi'. rewrite arrayGet_arraySet_other by lia. now apply Hrows.
    + exists []. split; [apply arrayGet_arraySet_same|].
      split; [reflexivity|]. intros j Hj. lia.
  - intros j s _ (Hl & Hr & Hrow).
    destruct (divergenceCell_step i j s Hl Hr Hrow) as [s' (E & ? & ? & ?)].
    exists s'. auto.
  - exists st'. repeat split; try assumption.
    intros i' Hi'. destruct (Nat.eq_dec i' i) as [->|Hne].
    + exists row. split; assumption.
    + apply Hr. lia.
Qed.

(** The divergence pass always completes; the grid it returns has
    [gridSize + 1] rows of [gridSize + 1] samples, the sample at [(i, j)]
    being the divergence at node [(i, j)]. *)
Lemma computeDivergence_filled :
  exists st,
    computeDivergence Fx Fy = Some st
    /\ List.length (divergenceGrid st) = Datatypes.S gridSize
    /\ rowsFilled Fx Fy (Datatypes.S gridSize) (divergenceGrid st).
Proof.
  unfold computeDivergence.
  destruct (forUpTo_invariant
              (fun i s => List.length (divergenceGrid s) = i
                          /\ rowsFilled Fx Fy i (divergenceGrid s))
              (divergenceRow Fx Fy) gridSize
              {| divergenceGrid := []; minDiv := PosInfinity;
                 maxDiv := NegInfinity |})
    as [st [E [Hl Hr]]].
  - split; [reflexivity|]. intros i' Hi'. lia.
  - intros i s _ [Hl Hr].
    destruct (divergenceRow_step i s Hl Hr) as [s' (E & ? & ?)].
    exists s'. auto.
  - exists st. auto.
Qed.

Lemma computeDivergence_entry (st : DivergenceState) (i j : nat) :
  computeDivergence Fx Fy = Some st ->
  i <= gridSize -> j <= gridSize ->
  gridEntry (divergenceGrid st) i j = Some (divergenceAt Fx Fy i j).
Proof.
  intros E Hi Hj.
  destruct computeDivergence_filled as [st' (E' & _ & Hr)].
  rewrite E in E'. injection E' as <-.
  destruct (Hr i) as [row [Hrow [_ Hre]]]; [lia|].
  unfold gridEntry. rewrite Hrow. apply Hre. lia.
Qed.
End Grid.

Lemma node_x_finite (i : nat) : isFinite (- range + ofNat i * step) = true.
Proof. reflexivity. Qed.

Lemma node_y_finite (j : nat) : isFinite (range - ofNat j * step) = true.
Proof. reflexivity. Qed.

(** The central difference of a field that returns its first coordinate
    is 1 along x; likewise for the second along y. *)
Lemma derivative_first (f : number -> number -> number) (x y : number) :
  (forall a b, isFinite a = true -> f a b = a) ->
  isFinite x = true ->
  derivative f x y axis_x = lit 1.
Proof.
  intros Hf Hx. finite. unfold derivative.
  rewrite !Hf by reflexivity. cbn [lit add sub neg mul].
  rewrite div_Finite by discriminate.
  apply Finite_eq. to_Q. field.
Qed.

Lemma derivative_second (f : number -> number -> number) (x y : number) :
  (forall a b, isFinite b = true -> f a b = b) ->
  isFinite y = true ->
  derivative f x y axis_y = lit 1.
Proof.
  intros Hf Hy. finite. unfold derivative.
  rewrite !Hf by reflexivity. cbn [lit add sub neg mul].
  rewrite div_Finite by discriminate.
  apply Finite_eq. to_Q. field.
Qed.


Section GridClaims.
Local Open Scope nat_scope.

(** C4, as stated, fails: the grid built for the default field does not
    have 100 rows of 100 samples.  The loops run over [0 .. gridSize]
    inclusive. *)
Lemma fine_grid_is_not_100_by_100 :
  ~ (forall st,
       computeDivergence rotationalFx rotationalFy = Some st ->
       List.length (divergenceGrid st) = 100
       /\ forall i row, arrayGet (divergenceGrid st) i = Some row ->
                        List.length row = 100).
Proof.
  intros H.
  destruct (computeDivergence_filled rotationalFx rotationalFy)
    as [st (E & Hl & _)].
  destruct (H st E) as [Hl' _].
  rewrite Hl in Hl'. discriminate.
Qed.

(** C4, amended.  For every field the divergence pass completes and
    returns a grid of fixed dimensions: [gridSize + 1 = 101] rows of 101
    samples (nodes 0..100 on both axes, both edges of the domain
    included), of which the background pass reads only those with both
    indices below 100.  The grid is rebuilt from an empty array: every
    sample is the divergence of the current field at its node, whatever
    was computed before. *)
Theorem divergence_grid_dimensions :
  forall (Fx Fy : number -> number -> number),
  exists st,
    computeDivergence Fx Fy = Some st
    /\ List.length (divergenceGrid st) = 101
    /\ (forall i, i <= 100 ->
          exists row,
            arrayGet (divergenceGrid st) i = Some row
            /\ List.length row = 101
            /\ forall j, j <= 100 ->
                 arrayGet row j = Some (divergenceAt Fx Fy i j))
    /\ (forall i j v, In (i, j, v) (backgroundCells st) -> i < 100 /\ j < 100).
Proof.
  intros Fx Fy.
  destruct (computeDivergence_filled Fx Fy) as [st (E & Hl & Hr)].
  exists st. repeat split; try assumption.
  - intros i Hi. destruct (Hr i) as [row [Hrow [Hrl Hre]]];
      [unfold gridSize; lia|].
    exists row. repeat split; try assumption.
    intros j Hj. apply Hre. unfold gridSize. lia.
  - unfold backgroundCells in H.
    apply in_flat_map in H. destruct H as [i' [Hi' H]].
    apply in_flat_map in H. destruct H as [j' [Hj' H]].
    apply in_seq in Hi'.
    destruct (gridEntry (divergenceGrid st) i' j') as [d|]; [|destruct H].
    destruct (isFinite d); [|destruct H].
    destruct H as [H|[]]. injection H as -> -> _. unfold gridSize in Hi'. lia.
  - unfold backgroundCells in H.
    apply in_flat_map in H. destruct H as [i' [Hi' H]].
    apply in_flat_map in H. destruct H as [j' [Hj' H]].
    apply in_seq in Hj'.
    destruct (gridEntry (divergenceGrid st) i' j') as [d|]; [|destruct H].
    destruct (isFinite d); [|destruct H].
    destruct H as [H|[]]. injection H as -> -> _. unfold gridSize in Hj'. lia.
Qed.

(** C4 amended, on the default field: the last node (100, 100) is there. *)
Lemma divergence_grid_dimensions_witness :
  exists st row,
    computeDivergence rotationalFx rotationalFy = Some st
    /\ List.length (divergenceGrid st) = 101
    /\ arrayGet (divergenceGrid st) 100 = Some row
    /\ arrayGet row 100
       = Some (divergenceAt rotationalFx rotationalFy 100 100).
Proof.
  destruct (divergence_grid_dimensions rotationalFx rotationalFy)
    as [st (E & Hl & Hrows & _)].
  destruct (Hrows 100) as [row (Hrow & _ & Hentries)]; [lia|].
  exists st, row. repeat split; try assumption.
  apply Hentries. lia.
Defined.
End GridClaims.

(** The reference host evaluates the parameters to the arguments. *)
Lemma ReferenceHost_evaluates_x :
  evaluatesTo ReferenceHost.host "x" (fun x _ => x).
Proof.
  eexists; split; [vm_compute; reflexivity|].
  intros x y w. reflexivity.
Qed.

Lemma ReferenceHost_evaluates_y :
  evaluatesTo ReferenceHost.host "y" (fun _ y => y).
Proof.
  eexists; split; [vm_compute; reflexivity|].
  intros x y w. reflexivity.
Qed.

(** C9.  On a host that evaluates the sources ["x"] and ["y"] to the
    coordinates, the divergence pass for [fx = "x"], [fy = "y"] without
    point sources completes, and the sample at every node [(i, j)],
    [i, j <= 100], is the sum of the two central differences with step
    [h = 0.01], each along its own axis, each equal to 1: the sample is 2
    (so within 1e-6 of 2). *)
Theorem radial_field_divergence :
  forall (World : Type) (host : Host World) (w : World),
    evaluatesTo host "x" (fun x _ => x) ->
    evaluatesTo host "y" (fun _ y => y) ->
    let radialFx := Fx (compiled host w "x") [] in
    let radialFy := Fy (compiled host w "y") [] in
    exists st,
      computeDivergence radialFx radialFy = Some st
      /\ forall i j, (i <= 100)%nat -> (j <= 100)%nat ->
           let x := - range + ofNat i * step in
           let y := range - ofNat j * step in
           let h := lit 0.01 in
           let dFx_dx := (radialFx (x + h) y - radialFx (x - h) y) / (lit 2 * h) in
           let dFy_dy := (radialFy x (y + h) - radialFy x (y - h)) / (lit 2 * h) in
           exists div,
             gridEntry (divergenceGrid st) i j = Some div
             /\ div = dFx_dx + dFy_dy
             /\ dFx_dx = lit 1 /\ dFy_dy = lit 1
             /\ div = lit 2
             /\ (Math_abs (div - lit 2) <=? lit 0.000001) = true.
Proof.
  intros World host w Hx Hy radialFx radialFy.
  destruct (computeDivergence_filled radialFx radialFy) as [st (E & _ & _)].
  exists st. split; [assumption|].
  intros i j Hi Hj x y h dFx_dx dFy_dy.
  assert (H1 : dFx_dx = lit 1).
  { apply (derivative_first radialFx x y); [|apply node_x_finite].
    intros a b Ha. unfold radialFx, Fx. cbn [fold_left].
    now apply (compiled_evaluatesTo host w "x" (fun x _ => x)). }
  assert (H2 : dFy_dy = lit 1).
  { apply (derivative_second radialFy x y); [|apply node_y_finite].
    intros a b Hb. unfold radialFy, Fy. cbn [fold_left].
    now apply (compiled_evaluatesTo host w "y" (fun _ y => y)). }
  exists (dFx_dx + dFy_dy). split.
  - now apply computeDivergence_entry.
  - rewrite H1, H2. repeat split; try reflexivity; number_eq.
Qed.

(** The same computation in binary64: with the coordinate fields, the
    divergence at each of the 101 x 101 nodes, rounding included, is within
    1e-6 of 2 (checked node by node); it is not 2 at every node. *)
Lemma radial_field_divergence_binary64 :
  Binary64.atEveryNode
    (fun i j => Binary64.nearTwo
                  (Binary64.divergenceAt (fun x _ => x) (fun _ y => y) i j))
  = true
  /\ Binary64.divergenceAt (fun x _ => x) (fun _ y => y) 7 13
     <> Binary64.ofNat 2.
Proof.
  split; [vm_compute; reflexivity|].
  vm_compute. intros H.
  apply (f_equal (fun f => PrimFloat.eqb f (Binary64.ofNat 2))) in H.
  vm_compute in H. discriminate.
Qed.

(** C9 on the reference host, at the corner node (100, 100). *)
Lemma radial_field_divergence_witness :
  evaluatesTo ReferenceHost.host "x" (fun x _ => x)
  /\ evaluatesTo ReferenceHost.host "y" (fun _ y => y)
  /\ exists st,
       computeDivergence (Fx (compiled ReferenceHost.host [] "x") [])
                         (Fy (compiled ReferenceHost.host [] "y") [])
       = Some st
       /\ gridEntry (divergenceGrid st) 100 100 = Some (lit 2).
Proof.
  assert (Hx : evaluatesTo ReferenceHost.host "x" (fun x _ => x)).
  { eexists; split; [vm_compute; reflexivity|]. intros x y w. reflexivity. }
  assert (Hy : evaluatesTo ReferenceHost.host "y" (fun _ y => y)).
  { eexists; split; [vm_compute; reflexivity|]. intros x y w. reflexivity. }
  split; [exact Hx|]. split; [exact Hy|].
  destruct (radial_field_divergence _ ReferenceHost.host [] Hx Hy)
    as [st [E Hall]].
  exists st. split; [exact E|].
  destruct (Hall 100%nat 100%nat) as [div (Hentry & _ & _ & _ & Hdiv & _)];
    [lia | lia |].
  rewrite Hentry. now rewrite Hdiv.
Defined.

(** ** Normalisation of the divergence *)

Lemma fold_option_None {S} (body : nat -> S -> option S) (l : list nat) :
  fold_left
    (fun acc k => match acc with Some s => body k s | None => None end)
    l None = None.
Proof. induction l as [|k l IH]; cbn; auto. Qed.

(** What a counting loop that ran to its end has preserved. *)
Lemma fold_seq_preserves {S} (Q : nat -> S -> Prop)
  (body : nat -> S -> option S) (len start : nat) (st s' : S) :
  fold_left
    (fun acc k => match acc with Some s => body k s | None => None end)
    (seq start len) (Some st) = Some s' ->
  Q start st ->
  (forall k s s2, Q k s -> body k s = Some s2 -> Q (Datatypes.S k) s2) ->
  Q (start + len)%nat s'.
Proof.
  revert start st. induction len as [|len IH]; intros start st E H0 Hstep.
  - cbn in E. injection E as <-. now rewrite Nat.add_0_r.
  - cbn [seq fold_left] in E.
    destruct (body start st) as [s1|] eqn:E1.
    + replace (start + Datatypes.S len)%nat
        with (Datatypes.S start + len)%nat by lia.
      apply (IH (Datatypes.S start) s1); auto.
      now apply (Hstep start st).
    + rewrite fold_option_None in E. discriminate.
Qed.

Section ConstantDivergence.
Variables Fx Fy : number -> number -> number.
Variable c : Qc.
Hypothesis constant : forall i j, divergenceAt Fx Fy i j = Finite c.


Lemma Math_min_c : Math_min (Finite c) (Finite c) = Finite c.
Proof. unfold Math_min. now destruct (Finite c <? Finite c). Qed.

Lemma Math_max_c : Math_max (Finite c) (Finite c) = Finite c.
Proof. unfold Math_max. now destruct (Finite c <? Finite c). Qed.

Lemma divergenceCell_extrema (i j : nat) (seen : bool)
  (st st' : DivergenceState) :
  extrema c seen st -> divergenceCell Fx Fy i j st = Some st' ->
  extrema c true st'.
Proof.
  unfold divergenceCell. fold (divergenceAt Fx Fy i j). rewrite constant.
  intros H E.
  destruct (arrayGet (divergenceGrid st) i); [|discriminate].
  cbn in E. injection E as <-. cbn.
  destruct seen; destruct H as [-> ->]; cbn;
    auto using Math_min_c, Math_max_c.
Qed.

Lemma divergenceRow_extrema (i : nat) (seen : bool)
  (st st' : DivergenceState) :
  extrema c seen st -> divergenceRow Fx Fy i st = Some st' ->
  extrema c true st'.
Proof.
  intros H E. unfold divergenceRow, forUpTo in E.
  apply (fold_seq_preserves
           (fun j s => extrema c (match j with O => seen | _ => true end) s))
    in E.
  - now replace (0 + (gridSize + 1))%nat with (Datatypes.S gridSize) in E
      by (unfold gridSize; lia).
  - destruct seen; exact H.
  - intros j s s2 Hs Es. eapply divergenceCell_extrema; eauto.
Qed.

Lemma computeDivergence_extrema (st : DivergenceState) :
  computeDivergence Fx Fy = Some st ->
  minDiv st = Finite c /\ maxDiv st = Finite c.
Proof.
  intros E. unfold computeDivergence, forUpTo in E.
  apply (fold_seq_preserves
           (fun i s => extrema c (match i with O => false | _ => true end) s))
    in E.
  - now replace (0 + (gridSize + 1))%nat with (Datatypes.S gridSize) in E
      by (unfold gridSize; lia).
  - split; reflexivity.
  - intros i s s2 Hs Es. eapply divergenceRow_extrema; eauto.
Qed.
End ConstantDivergence.

Lemma normalized_degenerate (div minDiv maxDiv : number) :
  (maxDiv === minDiv) = true -> normalized div minDiv maxDiv = lit 0.5.
Proof. unfold normalized. now intros ->. Qed.

(** C8.  When the recorded maximum of the divergence equals the recorded
    minimum, the normalisation of every finite sample is 0.5, and so is
    the value of every cell the background pass draws; no division takes
    place on that path. *)
Theorem constant_divergence_normalizes_to_midpoint :
  forall (st : DivergenceState),
    (maxDiv st === minDiv st) = true ->
    (forall div, isFinite div = true ->
                 normalized div (minDiv st) (maxDiv st) = lit 0.5)
    /\ (forall i j v, In (i, j, v) (backgroundCells st) -> v = lit 0.5).
Proof.
  intros st H. split.
  - intros div _. now apply normalized_degenerate.
  - intros i j v Hin. unfold backgroundCells in Hin.
    apply in_flat_map in Hin. destruct Hin as [i' [_ Hin]].
    apply in_flat_map in Hin. destruct Hin as [j' [_ Hin]].
    destruct (gridEntry (divergenceGrid st) i' j') as [d|]; [|destruct Hin].
    destruct (isFinite d); [|destruct Hin].
    destruct Hin as [Hin|[]]. injection Hin as _ _ <-.
    now apply normalized_degenerate.
Qed.

(** A field of constant finite divergence reaches that case: the pass
    records equal extrema. *)
Lemma constant_divergence_extrema_equal
  (Fx Fy : number -> number -> number) (c : Qc) (st : DivergenceState) :
  (forall i j, divergenceAt Fx Fy i j = Finite c) ->
  computeDivergence Fx Fy = Some st ->
  (maxDiv st === minDiv st) = true.
Proof.
  intros Hc E.
  destruct (computeDivergence_extrema Fx Fy c Hc st E) as [-> ->].
  now apply strictEq_Finite.
Qed.

(** When the extrema differ the divisor of the normalisation is not 0. *)
Lemma normalized_divisor_nonzero (minDiv maxDiv : number) :
  isFinite minDiv = true -> isFinite maxDiv = true ->
  (maxDiv === minDiv) = false ->
  (maxDiv - minDiv === lit 0) = false.
Proof.
  intros Hmin Hmax H.
  destruct minDiv as [p| | |], maxDiv as [q| | |]; try discriminate.
  cbn [sub neg add].
  destruct (Finite (q + - p)%Qc === lit 0) eqn:E; [|reflexivity].
  apply strictEq_Finite in E.
  assert (q = p) by (to_Q; lra).
  subst q. rewrite (proj2 (strictEq_Finite p p) eq_refl) in H. discriminate.
Qed.

(** C8 on a grid of one sample whose extrema are both 2. *)
Lemma constant_divergence_normalizes_to_midpoint_witness :
  let st := {| divergenceGrid := [Some [Some (lit 2)]];
               minDiv := lit 2; maxDiv := lit 2 |} in
  (maxDiv st === minDiv st) = true
  /\ normalized (lit 2) (minDiv st) (maxDiv st) = lit 0.5
  /\ forall i j v, In (i, j, v) (backgroundCells st) -> v = lit 0.5.
Proof.
  intro st.
  assert (H : (maxDiv st === minDiv st) = true) by reflexivity.
  split; [exact H|].
  destruct (constant_divergence_normalizes_to_midpoint st H) as [Hn Hc].
  split; [apply Hn; reflexivity | exact Hc].
Defined.

(* ================================================================== *)
(** ** ColorMapper *)
(* ================================================================== *)

Lemma lt_Finite_false (p q : Qc) :
  (Finite p <? Finite q) = false <-> (q <= p)%Qc.
Proof. apply (gt_Finite_false q p). Qed.

Lemma le_Finite_false (p q : Qc) :
  (Finite p <=? Finite q) = false <-> (q < p)%Qc.
Proof.
  unfold le. rewrite Qclt_alt. unfold Qccompare.
  rewrite <- (Qcompare_antisym p q).
  destruct (p ?= q)%Q; cbn; split; intros; congruence.
Qed.

(** The clamp of [getColor] maps every number but [NaN] into [[0, 1]]. *)
Lemma clamp_range (t : number) :
  isNaN t = false ->
  exists q, Math_max (lit 0) (Math_min (lit 1) t) = Finite q
            /\ (Q2Qc 0 <= q)%Qc /\ (q <= Q2Qc 1)%Qc.
Proof.
  intros Ht. destruct t as [q| | |]; try discriminate.
  - unfold lit. cbn [Math_min].
    destruct (Finite q <? Finite (Q2Qc 1)) eqn:E1.
    + cbn [Math_max]. destruct (Finite (Q2Qc 0) <? Finite q) eqn:E2.
      * exists q. apply lt_Finite in E1, E2. repeat split;
          now apply Qclt_le_weak.
      * exists (Q2Qc 0). repeat split; [apply Qcle_refl | discriminate].
    + exists (Q2Qc 1). repeat split; discriminate.
  - exists (Q2Qc 1). repeat split; discriminate.
  - exists (Q2Qc 0). repeat split; [apply Qcle_refl | discriminate].
Qed.

(** A number that equals the integer [k >= 0] is the array index [k]. *)
Lemma arrayIndex_integer (q : Qc) (k : Z) :
  (q == inject_Z k)%Q -> (0 <= k)%Z ->
  arrayIndex (Finite q) = Some (Z.to_nat k).
Proof.
  intros E Hk. unfold arrayIndex.
  assert (Hf : Qfloor q = k) by (rewrite E; apply Qfloor_Z).
  rewrite Hf.
  assert (Hq : q = Q2Qc (inject_Z k)).
  { apply Qc_is_canon. now rewrite this_Q2Qc. }
  rewrite <- Hq.
  unfold Qc_eq_bool. destruct (Qc_eq_dec q q); [|congruence].
  apply Z.leb_le in Hk. now rewrite Hk.
Qed.

Lemma channel_inv (v : number) :
  channel v = true ->
  exists q, v = Finite q /\ (Q2Qc 0 <= q)%Qc /\ (q <= Q2Qc 255)%Qc.
Proof.
  unfold channel. intros H. apply andb_prop in H. destruct H as [H1 H2].
  destruct v as [q| | |]; try discriminate.
  exists q. split; [reflexivity|]. split; now apply le_Finite.
Qed.

(** Interpolating two channel values with a fraction in [[0, 1]] and
    rounding gives a channel value. *)
Lemma mix_channel (c1 c2 : number) (f : Qc) :
  channel c1 = true -> channel c2 = true ->
  (Q2Qc 0 <= f)%Qc -> (f <= Q2Qc 1)%Qc ->
  channel (mix c1 c2 (Finite f)) = true.
Proof.
  intros H1 H2 Hf0 Hf1.
  apply channel_inv in H1, H2.
  destruct H1 as (a & -> & Ha0 & Ha1), H2 as (b & -> & Hb0 & Hb1).
  unfold mix. cbn [sub neg add mul Math_round lit].
  set (v := (a + (b + - a) * f + Q2Qc 0.5)%Qc).
  assert (Hv : (0.5 <= v /\ v <= 255.5)%Q).
  { unfold v. clear v. to_Q. nra. }
  unfold channel. apply andb_true_intro. split; apply le_Finite.
  - to_Q. change 0%Q with (inject_Z 0). rewrite <- Zle_Qle.
    assert (Hz : (Qfloor 0.5 <= Qfloor v)%Z) by (apply Qfloor_resp_le; tauto).
    exact Hz.
  - to_Q. change 255%Q with (inject_Z 255). rewrite <- Zle_Qle.
    assert (Hz : (Qfloor v <= Qfloor 255.5)%Z) by (apply Qfloor_resp_le; tauto).
    exact Hz.
Qed.


Lemma palette_nth (colors : list Anchor) (i : nat) :
  palette colors -> (i < List.length colors)%nat ->
  exists c, nth_error colors i = Some c /\ channels c = true.
Proof.
  intros [_ Hall] Hi.
  destruct (nth_error colors i) as [c|] eqn:E.
  - exists c. split; [reflexivity|].
    rewrite Forall_forall in Hall. apply Hall. eapply nth_error_In; eauto.
  - apply nth_error_None in E. lia.
Qed.

(** [getColor] on any colour table, for any argument but [NaN]: every
    lookup hits an anchor and the channels are in [[0, 255]]. *)
Lemma getColorFrom_channels (colors : list Anchor) (t : number) :
  palette colors -> isNaN t = false ->
  exists c, getColorFrom colors t = Some c /\ channels c = true.
Proof.
  intros Hp Ht. unfold getColorFrom.
  destruct (clamp_range t Ht) as (q & -> & Hq0 & Hq1).
  assert (HN : (1 <= List.length colors)%nat).
  { destruct Hp as [Hne _]. destruct colors; [congruence|cbn; lia]. }
  set (N := List.length colors) in *.
  unfold ofNat, lit. cbn [sub neg add mul Math_floor].
  set (m := (Q2Qc (inject_Z (Z.of_nat N)) + - Q2Qc 1)%Qc).
  assert (Hm : (m == inject_Z (Z.of_nat N - 1))%Q).
  { unfold m. to_Q. unfold Z.sub. rewrite inject_Z_plus, inject_Z_opp.
    reflexivity. }
  assert (Hm0 : (0 <= m)%Q).
  { rewrite Hm. change 0%Q with (inject_Z 0). rewrite <- Zle_Qle. lia. }
  set (k := Qfloor (q * m)%Qc).
  assert (Hqm : (0 <= (q * m)%Qc /\ (q * m)%Qc <= m)%Q).
  { revert Hq0 Hq1. to_Q. intros. nra. }
  assert (Hk0 : (0 <= k)%Z).
  { unfold k. change 0%Z with (Qfloor 0). apply Qfloor_resp_le. tauto. }
  assert (Hkle : (inject_Z k <= (q * m)%Qc)%Q) by apply Qfloor_le.
  assert (Hklt : ((q * m)%Qc < inject_Z (k + 1))%Q) by apply Qlt_floor.
  unfold lit.
  destruct (Finite (Q2Qc (inject_Z k)) >=? Finite m) eqn:E.
  - (* top edge *)
    unfold element.
    rewrite (arrayIndex_integer m (Z.of_nat N - 1)) by (assumption || lia).
    apply palette_nth; [assumption|]. lia.
  - (* between two anchors *)
    apply le_Finite_false in E.
    assert (Hk1 : (k < Z.of_nat N - 1)%Z).
    { revert E. to_Q. rewrite Hm. intros E. now rewrite Zlt_Qlt. }
    unfold element. cbn [sub neg add].
    assert (A1 : arrayIndex (Finite (Q2Qc (inject_Z k))) = Some (Z.to_nat k)).
    { apply arrayIndex_integer; [apply this_Q2Qc | assumption]. }
    rewrite A1.
    rewrite (arrayIndex_integer _ (k + 1)%Z).
    2:{ to_Q. rewrite inject_Z_plus. reflexivity. }
    2:{ lia. }
    destruct (palette_nth colors (Z.to_nat k) Hp) as ([[r1 g1] b1] & -> & H1);
      [lia|].
    destruct (palette_nth colors (Z.to_nat (k + 1)) Hp)
      as ([[r2 g2] b2] & -> & H2); [lia|].
    eexists. split; [reflexivity|].
    assert (Hf0 : (Q2Qc 0 <= q * m + - Q2Qc (inject_Z k))%Qc).
    { to_Q. lra. }
    assert (Hf1 : (q * m + - Q2Qc (inject_Z k) <= Q2Qc 1)%Qc).
    { revert Hklt. rewrite inject_Z_plus. change (inject_Z 1) with 1%Q.
      to_Q. intros. lra. }
    cbn [channels] in *.
    apply andb_prop in H1, H2. destruct H1 as [H1 Hb1], H2 as [H2 Hb2].
    apply andb_prop in H1, H2. destruct H1 as [Hr1 Hg1], H2 as [Hr2 Hg2].
    rewrite !mix_channel by assumption. reflexivity.
Qed.

Lemma colorMaps_palette (theme : ColorTheme) : palette (colorMaps theme).
Proof.
  destruct theme; (split; [discriminate|]); repeat constructor.
Qed.

Lemma getColorFrom_clamped (colors : list Anchor) (t t' : number) :
  Math_max (lit 0) (Math_min (lit 1) t)
  = Math_max (lit 0) (Math_min (lit 1) t') ->
  getColorFrom colors t = getColorFrom colors t'.
Proof. unfold getColorFrom. now intros ->. Qed.

Lemma clamp_above (t : number) :
  (lit 1 <=? t) = true ->
  Math_max (lit 0) (Math_min (lit 1) t) = lit 1.
Proof.
  intros H. destruct t as [q| | |]; try discriminate; [|reflexivity].
  unfold lit in *. cbn [Math_min].
  apply le_Finite in H. apply lt_Finite_false in H. now rewrite H.
Qed.

Lemma clamp_below (t : number) :
  (t <=? lit 0) = true ->
  Math_max (lit 0) (Math_min (lit 1) t) = lit 0.
Proof.
  intros H. destruct t as [q| | |]; try discriminate; [|reflexivity].
  unfold lit in *. cbn [Math_min].
  apply le_Finite in H.
  assert (H1 : (Finite q <? Finite (Q2Qc 1)) = true).
  { apply lt_Finite. revert H. to_Q. intros. lra. }
  rewrite H1. cbn [Math_max].
  apply lt_Finite_false in H. now rewrite H.
Qed.

Lemma getColor_first (theme : ColorTheme) :
  getColor (lit 0) theme = nth_error (colorMaps theme) 0.
Proof. destruct theme; vm_compute; reflexivity. Qed.

Lemma getColor_last (theme : ColorTheme) :
  getColor (lit 1) theme
  = nth_error (colorMaps theme) (List.length (colorMaps theme) - 1).
Proof. destruct theme; vm_compute; reflexivity. Qed.

Lemma colorMaps_last_element (theme : ColorTheme) :
  element (colorMaps theme) (ofNat (List.length (colorMaps theme)) - lit 1)
  = nth_error (colorMaps theme) (List.length (colorMaps theme) - 1).
Proof. destruct theme; vm_compute; reflexivity. Qed.

(** C7.  For every argument [t] other than [NaN] and every theme:
    [getColor] clamps [t] into [[0, 1]]; every anchor lookup succeeds and
    the three channels returned are in [[0, 255]]; at [t <= 0] (so at 0)
    the result is the first anchor; at [t >= 1] (so at 1), and whenever
    the floor index reaches [N - 1], the result is the last anchor as it
    stands in the table. *)
Theorem getColor_bounded :
  forall (t : number) (theme : ColorTheme),
    isNaN t = false ->
    let colors := colorMaps theme in
    let N := List.length colors in
    let clamped := Math_max (lit 0) (Math_min (lit 1) t) in
    let idx := Math_floor (clamped * (ofNat N - lit 1)) in
    (lit 0 <=? clamped) && (clamped <=? lit 1) = true
    /\ getColor t theme = getColor clamped theme
    /\ (exists c, getColor t theme = Some c /\ channels c = true)
    /\ (exists first, nth_error colors 0 = Some first
                      /\ getColor (lit 0) theme = Some first
                      /\ ((t <=? lit 0) = true ->
                          getColor t theme = Some first))
    /\ (exists last, nth_error colors (N - 1) = Some last
                     /\ getColor (lit 1) theme = Some last
                     /\ ((lit 1 <=? t) = true -> getColor t theme = Some last)
                     /\ ((idx >=? ofNat N - lit 1) = true ->
                         getColor t theme = Some last)).
Proof.
  intros t theme Ht colors N clamped idx.
  destruct (clamp_range t Ht) as (q & Hq & Hq0 & Hq1).
  assert (Hidem : Math_max (lit 0) (Math_min (lit 1) clamped) = clamped).
  { unfold clamped. rewrite Hq. unfold lit. cbn [Math_min].
    destruct (Finite q <? Finite (Q2Qc 1)) eqn:E1.
    - cbn [Math_max]. destruct (Finite (Q2Qc 0) <? Finite q) eqn:E2;
        [reflexivity|].
      apply lt_Finite_false in E2. f_equal. now apply Qcle_antisym.
    - apply lt_Finite_false in E1.
      assert (q = Q2Qc 1) by now apply Qcle_antisym. now subst q. }
  split; [|split; [|split; [|split]]].
  - unfold clamped. rewrite Hq. unfold lit.
    apply andb_true_intro. split; now apply le_Finite.
  - unfold getColor. apply getColorFrom_clamped. now rewrite Hidem.
  - apply getColorFrom_channels; [apply colorMaps_palette | assumption].
  - destruct (palette_nth colors 0 (colorMaps_palette theme)) as [c [Hc _]].
    { destruct theme; cbn; lia. }
    exists c. split; [assumption|]. rewrite <- Hc.
    split; [apply getColor_first|].
    intros Hle.
    transitivity (getColor (lit 0) theme); [|apply getColor_first].
    unfold getColor. apply getColorFrom_clamped.
    rewrite (clamp_below t Hle). symmetry. now apply clamp_below.
  - destruct (palette_nth colors (N - 1) (colorMaps_palette theme))
      as [c [Hc _]].
    { destruct theme; cbn; lia. }
    exists c. split; [assumption|]. rewrite <- Hc.
    split; [apply getColor_last|]. split.
    + intros Hge.
      transitivity (getColor (lit 1) theme); [|apply getColor_last].
      unfold getColor. apply getColorFrom_clamped.
      rewrite (clamp_above t Hge). symmetry. now apply clamp_above.
    + intros Hidx. unfold getColor, getColorFrom.
      fold colors. fold N. fold clamped. fold idx. rewrite Hidx.
      apply colorMaps_last_element.
Qed.

(** C7 at t = 0.55 on the viridis map: rgb(31, 157, 137). *)
Lemma getColor_bounded_witness :
  isNaN (lit 0.55) = false
  /\ exists c, getColor (lit 0.55) viridis = Some c /\ channels c = true.
Proof.
  assert (H : isNaN (lit 0.55) = false) by reflexivity.
  split; [exact H|].
  destruct (getColor_bounded (lit 0.55) viridis H) as (_ & _ & Hc & _).
  exact Hc.
Defined.

(** [NaN] is the one argument on which [getColor] faults: the clamp
    keeps it, no anchor is found under that key, and reading a channel of
    [undefined] throws. *)
Lemma getColor_NaN (theme : ColorTheme) : getColor NaN theme = None.
Proof. destruct theme; reflexivity. Qed.

(* ================================================================== *)
(** ** ParticleIntegrator *)
(* ================================================================== *)

(** A respawn coordinate lies in the domain. *)
Lemma respawn_coordinate_within (r R : number) :
  unitInterval r = true -> isFinite R = true -> (lit 0 <=? R) = true ->
  within R ((r * lit 2 - lit 1) * R) = true.
Proof.
  unfold unitInterval. intros Hr HR HR0.
  apply andb_prop in Hr. destruct Hr as [Hr0 Hr1].
  destruct r as [a| | |]; try discriminate. finite.
  unfold lit in *. apply le_Finite in Hr0, HR0. apply lt_Finite in Hr1.
  unfold within. cbn [mul sub neg add].
  apply andb_true_intro. split; apply le_Finite;
    revert Hr0 Hr1 HR0; to_Q; intros; nra.
Qed.

(** A real coordinate whose absolute value does not exceed [R] lies in
    [[-R, R]]. *)
Lemma abs_within (v R : number) :
  isFinite v = true -> isFinite R = true ->
  (Math_abs v >? R) = false -> within R v = true.
Proof.
  intros Hv HR H. destruct v as [a| | |], R as [b| | |]; try discriminate.
  unfold within. cbn [neg]. unfold Math_abs in H.
  apply andb_true_intro.
  destruct (sgn a) eqn:E; apply gt_Finite_false in H.
  - assert (Ha : a = Q2Qc 0) by (now apply sgn_Eq). clear E. subst a.
    split; apply le_Finite; to_Q; lra.
  - assert (Ha : (a < Q2Qc 0)%Qc) by (now apply sgn_Lt). clear E.
    split; apply le_Finite; to_Q; lra.
  - assert (Ha : (Q2Qc 0 < a)%Qc) by (now apply sgn_Gt). clear E.
    split; apply le_Finite; to_Q; lra.
Qed.

Lemma isFinite_add (a b : number) :
  isFinite a = true -> isFinite b = true -> isFinite (a + b) = true.
Proof. intros. finite. reflexivity. Qed.

Lemma isFinite_mul (a b : number) :
  isFinite a = true -> isFinite b = true -> isFinite (a * b) = true.
Proof. intros. finite. reflexivity. Qed.

Lemma range_real : isFinite range = true /\ (lit 0 <=? range) = true.
Proof. split; reflexivity. Qed.

Section Tick2D.
Variables Fx Fy : number -> number -> number.
Variable animationSpeed : number.
Hypothesis speed_real : isFinite animationSpeed = true.

Lemma advance_realPosition (particle : Particle.t) :
  realPosition particle = true ->
  realPosition (advance Fx Fy animationSpeed particle) = true.
Proof.
  unfold realPosition, advance. intros H.
  apply andb_prop in H. destruct H as [Hx Hy].
  destruct (isFinite (Fx _ _) && isFinite (Fy _ _)) eqn:E;
    cbn [Particle.x Particle.y].
  - apply andb_prop in E. destruct E as [Evx Evy].
    apply andb_true_intro.
    split; apply isFinite_add; auto; apply isFinite_mul; auto;
      now apply isFinite_mul.
  - now rewrite Hx, Hy.
Qed.

Lemma respawn_inDomain (particle : Particle.t) (rng : RandomSource) :
  realPosition particle = true ->
  (forall n, unitInterval (draws rng n) = true) ->
  inDomain (fst (respawn particle rng)) = true.
Proof.
  intros Hreal Hrng. unfold respawn.
  destruct (outOfPlay particle) eqn:E; cbn.
  - unfold inDomain. cbn. apply andb_true_intro.
    split; apply respawn_coordinate_within; auto; apply range_real.
  - unfold outOfPlay in E.
    apply orb_false_elim in E. destruct E as [E Ey].
    apply orb_false_elim in E. destruct E as [_ Ex].
    unfold realPosition in Hreal. apply andb_prop in Hreal.
    destruct Hreal as [Hx Hy].
    unfold inDomain. apply andb_true_intro.
    split; apply abs_within; auto.
Qed.

Lemma respawn_draws (particle : Particle.t) (rng : RandomSource) :
  draws (snd (respawn particle rng)) = draws rng.
Proof. unfold respawn. now destruct (outOfPlay particle). Qed.

Lemma updateParticles_inDomain (particles : list Particle.t)
  (rng : RandomSource) :
  Forall (fun p => realPosition p = true) particles ->
  (forall n, unitInterval (draws rng n) = true) ->
  Forall (fun p => inDomain p = true)
         (fst (updateParticles Fx Fy animationSpeed particles rng)).
Proof.
  intros Hall. revert rng.
  induction Hall as [|p l Hp Hl IH]; intros rng Hrng; cbn.
  - constructor.
  - unfold updateParticle.
    pose proof (respawn_inDomain (advance Fx Fy animationSpeed p) rng
                  (advance_realPosition p Hp) Hrng) as H1.
    pose proof (respawn_draws (advance Fx Fy animationSpeed p) rng) as H2.
    destruct (respawn (advance Fx Fy animationSpeed p) rng) as [p' rng'].
    cbn in H1, H2.
    specialize (IH rng'). rewrite H2 in IH. specialize (IH Hrng).
    destruct (updateParticles Fx Fy animationSpeed l rng') as [l' rng''].
    cbn in *. constructor; assumption.
Qed.
End Tick2D.

Section Tick3D.
Variables Fx3 Fy3 Fz3 : number -> number -> number -> number.
Variables range3 speed delta : number.
Hypothesis range3_real : isFinite range3 = true.
Hypothesis range3_nonneg : (lit 0 <=? range3) = true.
Hypothesis speed_real : isFinite speed = true.
Hypothesis delta_real : isFinite delta = true.

Lemma advance3D_realPosition (particle : Particle3D.t) :
  realPosition3D particle = true ->
  realPosition3D (advance3D Fx3 Fy3 Fz3 speed delta particle) = true.
Proof.
  unfold realPosition3D, advance3D. intros H.
  apply andb_prop in H. destruct H as [H Hz].
  apply andb_prop in H. destruct H as [Hx Hy].
  destruct (isFinite (Fx3 _ _ _) && isFinite (Fy3 _ _ _)
            && isFinite (Fz3 _ _ _)) eqn:E;
    cbn [Particle3D.position Vector3.x Vector3.y Vector3.z].
  - apply andb_prop in E. destruct E as [E Evz].
    apply andb_prop in E. destruct E as [Evx Evy].
    apply andb_true_intro; split; [apply andb_true_intro; split|];
      apply isFinite_add; auto; apply isFinite_mul; auto;
      now apply isFinite_mul.
  - now rewrite Hx, Hy, Hz.
Qed.

Lemma respawn3D_inDomain (particle : Particle3D.t) (rng : RandomSource) :
  realPosition3D particle = true ->
  (forall n, unitInterval (draws rng n) = true) ->
  inDomain3D range3 (fst (respawn3D range3 particle rng)) = true.
Proof.
  intros Hreal Hrng. unfold respawn3D.
  destruct (outOfPlay3D range3 particle) eqn:E;
    cbn [fst Math_random draws drawn].
  - unfold inDomain3D.
    cbn [Particle3D.position Vector3.x Vector3.y Vector3.z].
    apply andb_true_intro; split; [apply andb_true_intro; split|];
      apply respawn_coordinate_within; auto.
  - unfold outOfPlay3D in E.
    apply orb_false_elim in E. destruct E as [E Ez].
    apply orb_false_elim in E. destruct E as [E Ey].
    apply orb_false_elim in E. destruct E as [_ Ex].
    unfold realPosition3D in Hreal.
    apply andb_prop in Hreal. destruct Hreal as [Hreal Hz].
    apply andb_prop in Hreal. destruct Hreal as [Hx Hy].
    unfold inDomain3D.
    apply andb_true_intro; split; [apply andb_true_intro; split|];
      apply abs_within; auto.
Qed.

Lemma respawn3D_draws (particle : Particle3D.t) (rng : RandomSource) :
  draws (snd (respawn3D range3 particle rng)) = draws rng.
Proof. unfold respawn3D. now destruct (outOfPlay3D range3 particle). Qed.

End Tick3D.

(** *** The domain invariant from initialisation on *)

Lemma within_real (r v : number) :
  isFinite r = true -> within r v = true -> isFinite v = true.
Proof.
  intros Hr H. finite. unfold within in H. apply andb_prop in H.
  destruct H as [H1 H2]. now destruct v.
Qed.

Lemma inDomain_real (particle : Particle.t) :
  inDomain particle = true -> realPosition particle = true.
Proof.
  unfold inDomain, realPosition. intros H. apply andb_prop in H.
  destruct H as [Hx Hy]. apply andb_true_intro.
  split; eapply within_real; eauto; reflexivity.
Qed.

Lemma Math_random_draws (rng : RandomSource) :
  draws (snd (Math_random rng)) = draws rng.
Proof. reflexivity. Qed.

Lemma pushParticles_inDomain (n : nat) (particles : list Particle.t)
  (rng : RandomSource) :
  (forall k, unitInterval (draws rng k) = true) ->
  Forall (fun p => inDomain p = true) particles ->
  Forall (fun p => inDomain p = true) (fst (pushParticles n particles rng))
  /\ draws (snd (pushParticles n particles rng)) = draws rng.
Proof.
  revert particles rng. induction n as [|n IH]; intros particles rng Hrng Hall.
  - split; [assumption|reflexivity].
  - cbn [pushParticles Math_random].
    match goal with
    | |- context [pushParticles n ?ps ?g] =>
        destruct (IH ps g) as [H1 H2]
    end.
    + exact Hrng.
    + apply Forall_app. split; [assumption|].
      constructor; [|constructor].
      unfold inDomain. cbn [Particle.x Particle.y].
      apply andb_true_intro.
      split;
        (apply respawn_coordinate_within;
         [cbn [draws drawn]; apply Hrng | apply range_real..]).
    + split; [exact H1 | exact H2].
Qed.

Lemma updateParticles_draws (Fx Fy : number -> number -> number)
  (animationSpeed : number) (particles : list Particle.t)
  (rng : RandomSource) :
  draws (snd (updateParticles Fx Fy animationSpeed particles rng))
  = draws rng.
Proof.
  revert rng. induction particles as [|p l IH]; intros rng; cbn.
  - reflexivity.
  - unfold updateParticle.
    pose proof (respawn_draws (advance Fx Fy animationSpeed p) rng) as Hd.
    destruct (respawn (advance Fx Fy animationSpeed p) rng) as [p' rng'].
    specialize (IH rng').
    destruct (updateParticles Fx Fy animationSpeed l rng') as [l' rng''].
    cbn in *. congruence.
Qed.

(** From the initialisation on, after any number of frames, every particle
    of the 2D view is inside the domain. *)
Lemma particles_stay_in_domain (n : nat) (Fx Fy : number -> number -> number)
  (animationSpeed : number) (rng : RandomSource) :
  isFinite animationSpeed = true ->
  (forall k, unitInterval (draws rng k) = true) ->
  let (particles, rng') := initParticles [] rng in
  Forall (fun p => inDomain p = true)
         (fst (runFrames n Fx Fy animationSpeed particles rng')).
Proof.
  intros Hs Hrng. unfold initParticles.
  destruct (pushParticles_inDomain 500 [] rng Hrng (Forall_nil _))
    as [Hinit Hd].
  destruct (pushParticles 500 [] rng) as [particles rng'].
  cbn [fst snd] in Hinit, Hd.
  assert (Hrng' : forall k, unitInterval (draws rng' k) = true)
    by (now rewrite Hd).
  clear Hd Hrng. revert particles rng' Hinit Hrng'.
  induction n as [|n IH]; intros particles g Hall Hg; cbn [runFrames].
  - exact Hall.
  - unfold animateParticles.
    pose proof (updateParticles_inDomain Fx Fy animationSpeed Hs particles g)
      as Hstep.
    pose proof (updateParticles_draws Fx Fy animationSpeed particles g) as Hd.
    destruct (updateParticles Fx Fy animationSpeed particles g)
      as [particles' g'].
    cbn [fst snd] in Hstep, Hd. apply IH.
    + apply Hstep; [|assumption].
      eapply Forall_impl; [|exact Hall]. apply inDomain_real.
    + now rewrite Hd.
Qed.




(** ** The tick as an update in place *)

Section Frame2D.
Local Open Scope nat_scope.
Variables Fx Fy : number -> number -> number.
Variable animationSpeed : number.

Lemma updateParticles_length (particles : list Particle.t)
  (rng : RandomSource) :
  List.length (fst (updateParticles Fx Fy animationSpeed particles rng))
  = List.length particles.
Proof.
  revert rng. induction particles as [|p l IH]; intros rng; cbn.
  - reflexivity.
  - destruct (updateParticle Fx Fy animationSpeed p rng) as [p' rng'].
    specialize (IH rng').
    destruct (updateParticles Fx Fy animationSpeed l rng') as [l' rng''].
    cbn in *. now rewrite IH.
Qed.

(** The particle at index [i] after the pass is the update of the particle
    at index [i] before it; the generator it sees differs from the initial
    one only in the number of draws made for the particles before it. *)
Lemma updateParticles_nth (particles : list Particle.t) (rng : RandomSource)
  (i : nat) (particle : Particle.t) :
  nth_error particles i = Some particle ->
  exists g,
    draws g = draws rng
    /\ nth_error (fst (updateParticles Fx Fy animationSpeed particles rng)) i
       = Some (fst (updateParticle Fx Fy animationSpeed particle g)).
Proof.
  revert rng i. induction particles as [|p l IH]; intros rng i H.
  - destruct i; discriminate.
  - cbn [updateParticles].
    pose proof (respawn_draws (advance Fx Fy animationSpeed p) rng) as Hd.
    fold (updateParticle Fx Fy animationSpeed p rng) in Hd.
    destruct (updateParticle Fx Fy animationSpeed p rng) as [p' rng'] eqn:E.
    destruct i as [|i].
    + injection H as <-. exists rng. split; [reflexivity|].
      destruct (updateParticles Fx Fy animationSpeed l rng'). cbn.
      now rewrite E.
    + cbn in H. destruct (IH rng' i H) as [g [Hg Hn]].
      exists g. split; [now rewrite Hg|].
      destruct (updateParticles Fx Fy animationSpeed l rng'). exact Hn.
Qed.

Lemma advance_skipped (particle : Particle.t) :
  isFinite (Fx (Particle.x particle) (Particle.y particle))
  && isFinite (Fy (Particle.x particle) (Particle.y particle)) = false ->
  Particle.x (advance Fx Fy animationSpeed particle) = Particle.x particle
  /\ Particle.y (advance Fx Fy animationSpeed particle) = Particle.y particle.
Proof. unfold advance. intros ->. split; reflexivity. Qed.
End Frame2D.

Section Frame3D.
Local Open Scope nat_scope.
Variables Fx3 Fy3 Fz3 : number -> number -> number -> number.
Variables range3 speed delta : number.

Lemma updateParticles3D_length (particles : list Particle3D.t)
  (rng : RandomSource) :
  List.length (fst (updateParticles3D Fx3 Fy3 Fz3 range3 speed delta
                                      particles rng))
  = List.length particles.
Proof.
  revert rng. induction particles as [|p l IH]; intros rng; cbn.
  - reflexivity.
  - destruct (updateParticle3D Fx3 Fy3 Fz3 range3 speed delta p rng)
      as [p' rng'].
    specialize (IH rng').
    destruct (updateParticles3D Fx3 Fy3 Fz3 range3 speed delta l rng')
      as [l' rng''].
    cbn in *. now rewrite IH.
Qed.

Lemma updateParticles3D_nth (particles : list Particle3D.t)
  (rng : RandomSource) (i : nat) (particle : Particle3D.t) :
  nth_error particles i = Some particle ->
  exists g,
    draws g = draws rng
    /\ nth_error (fst (updateParticles3D Fx3 Fy3 Fz3 range3 speed delta
                                         particles rng)) i
       = Some (fst (updateParticle3D Fx3 Fy3 Fz3 range3 speed delta
                                     particle g)).
Proof.
  revert rng i. induction particles as [|p l IH]; intros rng i H.
  - destruct i; discriminate.
  - cbn [updateParticles3D].
    pose proof (respawn3D_draws range3
                  (advance3D Fx3 Fy3 Fz3 speed delta p) rng) as Hd.
    fold (updateParticle3D Fx3 Fy3 Fz3 range3 speed delta p rng) in Hd.
    destruct (updateParticle3D Fx3 Fy3 Fz3 range3 speed delta p rng)
      as [p' rng'] eqn:E.
    destruct i as [|i].
    + injection H as <-. exists rng. split; [reflexivity|].
      destruct (updateParticles3D Fx3 Fy3 Fz3 range3 speed delta l rng').
      cbn. now rewrite E.
    + cbn in H. destruct (IH rng' i H) as [g [Hg Hn]].
      exists g. split; [now rewrite Hg|].
      destruct (updateParticles3D Fx3 Fy3 Fz3 range3 speed delta l rng').
      exact Hn.
Qed.

Lemma updateParticle3D_velocity (particle : Particle3D.t)
  (rng : RandomSource) :
  Particle3D.velocity
    (fst (updateParticle3D Fx3 Fy3 Fz3 range3 speed delta particle rng))
  = Particle3D.velocity particle.
Proof.
  unfold updateParticle3D, respawn3D.
  now destruct (outOfPlay3D range3 _).
Qed.

Lemma advance3D_skipped (particle : Particle3D.t) :
  let x := Vector3.x (Particle3D.position particle) in
  let y := Vector3.y (Particle3D.position particle) in
  let z := Vector3.z (Particle3D.position particle) in
  isFinite (Fx3 x y z) && isFinite (Fy3 x y z) && isFinite (Fz3 x y z)
  = false ->
  Particle3D.position (advance3D Fx3 Fy3 Fz3 speed delta particle)
  = Particle3D.position particle.
Proof. unfold advance3D. cbn zeta. now intros ->. Qed.
End Frame3D.

(** C10, as stated, fails in its last clause: a particle whose sampled
    velocity is not finite and whose life runs out in the same tick is
    respawned, so its position changes.  Here the particle sits at (0, 0)
    with life 0.004, the field returns [NaN] along x, the speed is 1 and
    [Math.random()] returns 0.75: after the tick it is at (1.5, 1.5). *)
Lemma expiring_particle_moves_without_velocity :
  let particle :=
    {| Particle.x := lit 0; Particle.y := lit 0; Particle.life := lit 0.004 |} in
  let Fx := fun _ _ : number => NaN in
  let Fy := fun _ _ : number => lit 0 in
  let particle' := fst (updateParticle Fx Fy (lit 1) particle sampleRandom) in
  isFinite (Fx (Particle.x particle) (Particle.y particle))
  && isFinite (Fy (Particle.x particle) (Particle.y particle)) = false
  /\ Particle.x particle' = lit 1.5
  /\ Particle.y particle' = lit 1.5
  /\ Particle.x particle' <> Particle.x particle.
Proof.
  cbv zeta. split; [reflexivity|]. split; [number_eq|]. split; [number_eq|].
  vm_compute. discriminate.
Qed.

(** C10, amended.  A tick of either view keeps the number of particles
    and updates every particle where it stands: the particle at index [i]
    afterwards is the update of the particle at index [i] before; nothing
    happens while the animation is off (in 3D also while the points are
    not mounted).  The update writes the position and the life only: the
    [velocity] field of a 3D particle is never written.  When the sampled
    velocity is not finite the position is not advanced; it then stays
    what it was unless the respawn test of the same tick fires. *)
Theorem particle_tick_in_place :
  forall (Fx Fy : number -> number -> number) (animationSpeed : number)
         (isAnimating mounted : bool) (particles : list Particle.t)
         (Fx3 Fy3 Fz3 : number -> number -> number -> number)
         (range3 speed delta : number) (particles3D : list Particle3D.t)
         (rng : RandomSource),
    (* the 2D view *)
    List.length (fst (animateParticles isAnimating Fx Fy animationSpeed
                                       particles rng))
    = List.length particles
    /\ animateParticles false Fx Fy animationSpeed particles rng
       = (particles, rng)
    /\ (forall i particle,
          nth_error particles i = Some particle ->
          exists g,
            draws g = draws rng
            /\ nth_error (fst (animateParticles true Fx Fy animationSpeed
                                                particles rng)) i
               = Some (fst (updateParticle Fx Fy animationSpeed particle g)))
    /\ (forall particle g,
          isFinite (Fx (Particle.x particle) (Particle.y particle))
          && isFinite (Fy (Particle.x particle) (Particle.y particle))
          = false ->
          let moved := advance Fx Fy animationSpeed particle in
          let particle' :=
            fst (updateParticle Fx Fy animationSpeed particle g) in
          Particle.x moved = Particle.x particle
          /\ Particle.y moved = Particle.y particle
          /\ (outOfPlay moved = false ->
              Particle.x particle' = Particle.x particle
              /\ Particle.y particle' = Particle.y particle))
    (* the 3D view *)
    /\ List.length (fst (useFrame Fx3 Fy3 Fz3 range3 speed delta
                                  isAnimating mounted particles3D rng))
       = List.length particles3D
    /\ useFrame Fx3 Fy3 Fz3 range3 speed delta false mounted particles3D rng
       = (particles3D, rng)
    /\ useFrame Fx3 Fy3 Fz3 range3 speed delta isAnimating false
                particles3D rng
       = (particles3D, rng)
    /\ (forall i particle,
          nth_error particles3D i = Some particle ->
          exists g,
            draws g = draws rng
            /\ nth_error (fst (useFrame Fx3 Fy3 Fz3 range3 speed delta
                                        true true particles3D rng)) i
               = Some (fst (updateParticle3D Fx3 Fy3 Fz3 range3 speed delta
                                             particle g)))
    /\ (forall particle g,
          Particle3D.velocity
            (fst (updateParticle3D Fx3 Fy3 Fz3 range3 speed delta particle g))
          = Particle3D.velocity particle)
    /\ (forall particle g,
          let x := Vector3.x (Particle3D.position particle) in
          let y := Vector3.y (Particle3D.position particle) in
          let z := Vector3.z (Particle3D.position particle) in
          isFinite (Fx3 x y z) && isFinite (Fy3 x y z) && isFinite (Fz3 x y z)
          = false ->
          let moved := advance3D Fx3 Fy3 Fz3 speed delta particle in
          let particle' :=
            fst (updateParticle3D Fx3 Fy3 Fz3 range3 speed delta particle g) in
          Particle3D.position moved = Particle3D.position particle
          /\ (outOfPlay3D range3 moved = false ->
              Particle3D.position particle' = Particle3D.position particle)).
Proof.
  intros Fx Fy animationSpeed isAnimating mounted particles Fx3 Fy3 Fz3
         range3 speed delta particles3D rng.
  split; [|split; [|split; [|split; [|split; [|split; [|split;
    [|split; [|split]]]]]]]].
  - unfold animateParticles. destruct isAnimating; [|reflexivity].
    apply updateParticles_length.
  - reflexivity.
  - intros i particle H. now apply updateParticles_nth.
  - intros particle g H moved particle'.
    destruct (advance_skipped Fx Fy animationSpeed particle H) as [Hx Hy].
    split; [exact Hx|]. split; [exact Hy|].
    intros Hplay. unfold particle', updateParticle, respawn.
    fold moved. rewrite Hplay. cbn [fst]. split; assumption.
  - unfold useFrame. destruct (negb isAnimating || negb mounted);
      [reflexivity|]. apply updateParticles3D_length.
  - reflexivity.
  - unfold useFrame. now rewrite orb_true_r.
  - intros i particle H. now apply updateParticles3D_nth.
  - intros particle g. apply updateParticle3D_velocity.
  - intros particle g x y z H moved particle'.
    pose proof (advance3D_skipped Fx3 Fy3 Fz3 speed delta particle H) as Hp.
    split; [exact Hp|].
    intros Hplay. unfold particle', updateParticle3D, respawn3D.
    fold moved. rewrite Hplay. cbn [fst]. exact Hp.
Qed.

(** C10 amended, on the sample inputs: a particle in a field without a
    finite velocity that is not respawned stays where it was. *)
Lemma particle_tick_in_place_witness :
  let Fx := fun _ _ : number => NaN in
  let Fy := fun _ _ : number => lit 0 in
  List.length (fst (animateParticles true Fx Fy (lit 1)
                                     [sampleParticle] sampleRandom)) = 1%nat
  /\ Particle.x (fst (updateParticle Fx Fy (lit 1) sampleParticle sampleRandom))
     = Particle.x sampleParticle.
Proof.
  intros Fx Fy.
  destruct (particle_tick_in_place
              Fx Fy (lit 1) true true [sampleParticle]
              (fun _ y _ => - y) (fun x _ _ => x) (fun _ _ _ => lit 0)
              (lit 2) (lit 1) (lit 0.016) [sampleParticle3D] sampleRandom)
    as (Hlen & _ & _ & Hskip & _).
  split; [exact Hlen|].
  destruct (Hskip sampleParticle sampleRandom) as (_ & _ & Hstay);
    [reflexivity|].
  apply Hstay. reflexivity.
Defined.

(* ================================================================== *)
(** * Further properties of the code *)
(* ================================================================== *)

(** ** Canvas and field coordinates *)


Lemma canvasX_Finite (x : Qc) :
  canvasX (Finite x)
  = Finite ((x + Q2Qc 3) / (Q2Qc 2 * Q2Qc 3) * Q2Qc 600)%Qc.
Proof.
  unfold canvasX, range, size, lit. cbn [add mul].
  rewrite div_Finite by discriminate. reflexivity.
Qed.

Lemma canvasY_Finite (y : Qc) :
  canvasY (Finite y)
  = Finite ((Q2Qc 3 - y) / (Q2Qc 2 * Q2Qc 3) * Q2Qc 600)%Qc.
Proof.
  unfold canvasY, range, size, lit. cbn [sub neg add mul].
  rewrite div_Finite by discriminate. reflexivity.
Qed.



(** ** Point sources: ids, adding, dragging, removing *)

Section Sources.
Local Open Scope nat_scope.
Variable Math_sqrt : number -> number.

Lemma loadPhysicsPreset_fold (l : list (number * number * number * SourceType))
  (acc : list PointSource.t) (next : nat) :
  let result :=
    fold_left
      (fun acc s =>
         let '(newSources, next) := acc in
         let '(sx, sy, sstrength, stype) := s in
         (app newSources [ {| PointSource.id := next;
                              PointSource.x := sx;
                              PointSource.y := sy;
                              PointSource.strength := sstrength;
                              PointSource.type := stype |} ],
          S next))
      l (acc, next) in
  map PointSource.id (fst result)
  = app (map PointSource.id acc) (seq next (List.length l))
  /\ snd result = next + List.length l
  /\ map (fun ps => (PointSource.x ps, PointSource.y ps,
                     PointSource.strength ps, PointSource.type ps))
         (fst result)
     = app (map (fun ps => (PointSource.x ps, PointSource.y ps,
                            PointSource.strength ps, PointSource.type ps))
                acc) l.
Proof.
  revert acc next. induction l as [|[[[sx sy] ss] ty] l IH]; intros acc next.
  - cbn. rewrite !app_nil_r. auto.
  - cbn [fold_left]. specialize (IH (app acc [ {| PointSource.id := next;
                              PointSource.x := sx;
                              PointSource.y := sy;
                              PointSource.strength := ss;
                              PointSource.type := ty |} ]) (S next)).
    cbn zeta in IH. destruct IH as (H1 & H2 & H3).
    cbn zeta. rewrite H1, H2, H3. rewrite !map_app. cbn [map List.length seq].
    rewrite <- !app_assoc. cbn [app]. repeat split. lia.
Qed.

Lemma loadPhysicsPreset_ids (preset : PhysicsPreset.t) (next : nat) :
  map PointSource.id (fst (loadPhysicsPreset preset next))
  = seq next (List.length (PhysicsPreset.sources preset))
  /\ snd (loadPhysicsPreset preset next)
     = next + List.length (PhysicsPreset.sources preset)
  /\ map (fun ps => (PointSource.x ps, PointSource.y ps,
                     PointSource.strength ps, PointSource.type ps))
         (fst (loadPhysicsPreset preset next))
     = PhysicsPreset.sources preset.
Proof.
  unfold loadPhysicsPreset.
  exact (loadPhysicsPreset_fold (PhysicsPreset.sources preset) [] next).
Qed.

Lemma map_id_filter (i : nat) (l : list PointSource.t) :
  map PointSource.id
      (filter (fun ps => negb (PointSource.id ps =? i)) l)
  = filter (fun k => negb (k =? i)) (map PointSource.id l).
Proof.
  induction l as [|ps l IH]; cbn; [reflexivity|].
  destruct (PointSource.id ps =? i); cbn; now rewrite IH.
Qed.

Lemma map_id_moved (dragged : nat) (x y : number) (l : list PointSource.t) :
  map PointSource.id
      (map (fun ps =>
              if PointSource.id ps =? dragged
              then {| PointSource.id := PointSource.id ps;
                      PointSource.x := x;
                      PointSource.y := y;
                      PointSource.strength := PointSource.strength ps;
                      PointSource.type := PointSource.type ps |}
              else ps) l)
  = map PointSource.id l.
Proof.
  induction l as [|ps l IH]; cbn; [reflexivity|].
  rewrite IH. now destruct (PointSource.id ps =? dragged).
Qed.

Lemma wellNumbered_intro (st : ViewState) :
  NoDup (map PointSource.id (pointSources st)) ->
  (forall k, In k (map PointSource.id (pointSources st)) ->
             k < nextSourceId st) ->
  wellNumbered st.
Proof.
  intros H1 H2. split; [assumption|].
  apply Forall_forall. intros ps Hin. apply H2. now apply in_map.
Qed.

Lemma wellNumbered_below (st : ViewState) (k : nat) :
  wellNumbered st ->
  In k (map PointSource.id (pointSources st)) -> k < nextSourceId st.
Proof.
  intros [_ H] Hin. apply in_map_iff in Hin. destruct Hin as [ps [<- Hps]].
  rewrite Forall_forall in H. now apply H.
Qed.

Lemma act_wellNumbered (st : ViewState) (a : Action) :
  wellNumbered st ->
  wellNumbered (act Math_sqrt st a)
  /\ nextSourceId st <= nextSourceId (act Math_sqrt st a).
Proof.
  intros Hw. pose proof Hw as [Hnd Hlt].
  assert (Hadd : forall ps,
            PointSource.id ps = nextSourceId st ->
            NoDup (map PointSource.id (app (pointSources st) [ps]))
            /\ forall k, In k (map PointSource.id (app (pointSources st) [ps]))
                         -> k < S (nextSourceId st)).
  { intros ps Hid. rewrite map_app. cbn [map]. split.
    - apply NoDup_app.
      + assumption.
      + repeat constructor. intros [].
      + intros k Hk [Hk'|[]]. apply (wellNumbered_below st k Hw) in Hk. lia.
    - intros k Hk. apply in_app_or in Hk. destruct Hk as [Hk|[Hk|[]]].
      + apply (wellNumbered_below st k Hw) in Hk. lia.
      + lia. }
  destruct a as [mounted cx cy|mounted mx my| |i| |pfx pfy|preset|m];
    cbn [act].
  - unfold handleCanvasMouseDown. destruct mounted; cbn [negb]; [|auto].
    destruct (canvasToFieldCoords cx cy) as [fieldX fieldY].
    destruct (interactionMode st); [auto| | |].
    + split; [|cbn; lia].
      apply wellNumbered_intro; cbn; now apply Hadd.
    + split; [|cbn; lia].
      apply wellNumbered_intro; cbn; now apply Hadd.
    + destruct (clickedSource _ _ _ _); auto.
  - unfold handleCanvasMouseMove.
    destruct (draggedSourceId st) as [dragged|]; [|auto].
    destruct mounted; cbn [negb]; [|auto].
    destruct (canvasToFieldCoords mx my) as [fieldX fieldY].
    split; [|cbn; lia].
    apply wellNumbered_intro; cbn; rewrite map_id_moved.
    + assumption.
    + intros k Hk. now apply (wellNumbered_below st k Hw).
  - auto.
  - split; [|cbn; lia].
    apply wellNumbered_intro; cbn; rewrite map_id_filter.
    + now apply NoDup_filter.
    + intros k Hk. apply filter_In in Hk.
      now apply (wellNumbered_below st k Hw).
  - split; [|cbn; lia]. split; cbn; constructor.
  - auto.
  - unfold loadPreset.
    destruct (loadPhysicsPreset_ids preset (nextSourceId st))
      as (Hids & Hnext & _).
    destruct (loadPhysicsPreset preset (nextSourceId st)) as [new next].
    cbn [fst snd] in *. split; [|cbn; lia].
    apply wellNumbered_intro; cbn; rewrite Hids.
    + apply seq_NoDup.
    + intros k Hk. apply in_seq in Hk. lia.
  - auto.
Qed.

Lemma actAll_wellNumbered (actions : list Action) (st : ViewState) :
  wellNumbered st ->
  wellNumbered (actAll Math_sqrt st actions)
  /\ nextSourceId st <= nextSourceId (actAll Math_sqrt st actions).
Proof.
  revert st. induction actions as [|a l IH]; intros st Hw; cbn.
  - auto.
  - destruct (act_wellNumbered st a Hw) as [Hw' Hle].
    destruct (IH _ Hw') as [Hw'' Hle'].
    split; [assumption|]. unfold actAll in Hle'. lia.
Qed.
End Sources.

Section SourceTheorems.
Local Open Scope nat_scope.

Lemma act_no_reuse (Math_sqrt : number -> number) (st : ViewState)
  (a : Action) (k : nat) :
  wellNumbered st -> k < nextSourceId st ->
  ~ In k (map PointSource.id (pointSources st)) ->
  ~ In k (map PointSource.id (pointSources (act Math_sqrt st a))).
Proof.
  intros Hw Hk Hout.
  destruct a as [mounted cx cy|mounted mx my| |i| |pfx pfy|preset|m];
    cbn [act]; try assumption.
  - unfold handleCanvasMouseDown. destruct mounted; cbn [negb]; [|assumption].
    destruct (canvasToFieldCoords cx cy) as [fieldX fieldY].
    destruct (interactionMode st); try assumption.
    + cbn. rewrite map_app. cbn. intros H. apply in_app_or in H.
      destruct H as [H|[H|[]]]; [contradiction|lia].
    + cbn. rewrite map_app. cbn. intros H. apply in_app_or in H.
      destruct H as [H|[H|[]]]; [contradiction|lia].
    + destruct (clickedSource _ _ _ _); assumption.
  - unfold handleCanvasMouseMove.
    destruct (draggedSourceId st) as [dragged|]; [|assumption].
    destruct mounted; cbn [negb]; [|assumption].
    destruct (canvasToFieldCoords mx my) as [fieldX fieldY].
    cbn. now rewrite map_id_moved.
  - cbn. rewrite map_id_filter. intros H. apply filter_In in H. tauto.
  - cbn. tauto.
  - unfold loadPreset.
    destruct (loadPhysicsPreset_ids preset (nextSourceId st)) as (Hids & _).
    destruct (loadPhysicsPreset preset (nextSourceId st)) as [new next].
    cbn [fst] in Hids. cbn. rewrite Hids. intros H. apply in_seq in H. lia.
Qed.

(** X2.  Whatever the user does, starting from a freshly mounted view, the
    ids of the point sources are pairwise distinct and below the counter;
    the counter never decreases; and an id that has been handed out and is
    no longer in the list never comes back. *)
Theorem source_ids_unique :
  forall (Math_sqrt : number -> number) (actions more : list Action),
    let st := actAll Math_sqrt initialView actions in
    let st' := actAll Math_sqrt st more in
    NoDup (map PointSource.id (pointSources st))
    /\ Forall (fun ps => PointSource.id ps < nextSourceId st)
              (pointSources st)
    /\ nextSourceId st <= nextSourceId st'
    /\ forall k, k < nextSourceId st ->
                 ~ In k (map PointSource.id (pointSources st)) ->
                 ~ In k (map PointSource.id (pointSources st')).
Proof.
  intros Math_sqrt actions more st st'.
  assert (Hinit : wellNumbered initialView).
  { split; cbn; constructor. }
  destruct (actAll_wellNumbered Math_sqrt actions initialView Hinit)
    as [Hw _]. fold st in Hw.
  destruct (actAll_wellNumbered Math_sqrt more st Hw) as [_ Hle].
  fold st' in Hle. destruct Hw as [Hnd Hlt].
  split; [assumption|]. split; [assumption|]. split; [assumption|].
  intros k. unfold st'. clear Hle. generalize st (conj Hnd Hlt).
  clear. induction more as [|a l IH]; intros st Hw Hk Hout; cbn.
  - assumption.
  - destruct (act_wellNumbered Math_sqrt st a Hw) as [Hw' Hle].
    apply IH; [assumption | lia |].
    now apply act_no_reuse.
Qed.




End SourceTheorems.

Section DragTheorems.
Local Open Scope nat_scope.

(** X5.  Dragging moves and does nothing else: a pointer move while a
    source is being dragged keeps the number of sources, their ids,
    strengths and types and the counter; the source at each index stays
    as it is unless its id is the dragged one, in which case it is moved
    to the field position of the pointer.  Without a dragged source, or
    with the canvas unmounted, the move changes nothing. *)
Theorem drag_moves_only_the_dragged_source :
  forall (mounted : bool) (moveX moveY : number) (st : ViewState),
    let st' := handleCanvasMouseMove mounted moveX moveY st in
    let (fieldX, fieldY) := canvasToFieldCoords moveX moveY in
    List.length (pointSources st') = List.length (pointSources st)
    /\ map PointSource.id (pointSources st')
       = map PointSource.id (pointSources st)
    /\ map PointSource.strength (pointSources st')
       = map PointSource.strength (pointSources st)
    /\ map PointSource.type (pointSources st')
       = map PointSource.type (pointSources st)
    /\ nextSourceId st' = nextSourceId st
    /\ draggedSourceId st' = draggedSourceId st
    /\ (forall i ps dragged,
          draggedSourceId st = Some dragged -> mounted = true ->
          nth_error (pointSources st) i = Some ps ->
          nth_error (pointSources st') i
          = Some (if PointSource.id ps =? dragged
                  then movedTo fieldX fieldY ps else ps))
    /\ (draggedSourceId st = None \/ mounted = false -> st' = st)
    /\ handleCanvasMouseMove mounted moveX moveY (handleCanvasMouseUp st)
       = handleCanvasMouseUp st.
Proof.
  intros mounted moveX moveY st st'.
  unfold st', handleCanvasMouseMove.
  destruct (canvasToFieldCoords moveX moveY) as [fieldX fieldY].
  destruct (draggedSourceId st) as [dragged|] eqn:Ed.
  2:{ repeat split; intros; try reflexivity; congruence. }
  destruct mounted; cbn [negb].
  2:{ repeat split; intros; try reflexivity; congruence. }
  cbn [pointSources nextSourceId draggedSourceId].
  split; [apply length_map|].
  split; [apply map_id_moved|].
  split.
  { rewrite map_map. apply map_ext. intros ps.
    now destruct (PointSource.id ps =? dragged). }
  split.
  { rewrite map_map. apply map_ext. intros ps.
    now destruct (PointSource.id ps =? dragged). }
  split; [reflexivity|]. split; [reflexivity|]. split.
  { intros i ps d Hd _ Hn. injection Hd as <-.
    rewrite nth_error_map, Hn. reflexivity. }
  split; [intros [H|H]; discriminate | reflexivity].
Qed.

Lemma drag_moves_only_the_dragged_source_witness :
  let st0 := loadPreset electricDipole initialView in
  let st := {| fx := fx st0; fy := fy st0;
               interactionMode := drag;
               pointSources := pointSources st0;
               draggedSourceId := Some 1;
               nextSourceId := nextSourceId st0 |} in
  let st' := handleCanvasMouseMove true (lit 300) (lit 300) st in
  nth_error (pointSources st') 0 = nth_error (pointSources st) 0
  /\ option_map PointSource.x (nth_error (pointSources st') 1)
     = Some (lit 0).
Proof.
  intros st0 st st'.
  pose proof (drag_moves_only_the_dragged_source
                true (lit 300) (lit 300) st) as H.
  destruct (canvasToFieldCoords (lit 300) (lit 300)) as [fieldX fieldY] eqn:E.
  destruct H as (_ & _ & _ & _ & _ & _ & Hnth & _).
  subst st'. split.
  - rewrite (Hnth 0 _ 1 eq_refl eq_refl eq_refl). reflexivity.
  - rewrite (Hnth 1 _ 1 eq_refl eq_refl eq_refl). cbn.
    f_equal. injection E as <- _. number_eq.
Defined.

Lemma clickedSource_spec (Math_sqrt : number -> number)
  (l : list PointSource.t) (fieldX fieldY : number) :
  match clickedSource Math_sqrt l fieldX fieldY with
  | Some id =>
      exists before ps after,
        l = app before (ps :: after)
        /\ forallb (fun q => negb (withinReach Math_sqrt fieldX fieldY q))
                   before = true
        /\ withinReach Math_sqrt fieldX fieldY ps = true
        /\ id = PointSource.id ps
  | None =>
      forallb (fun q => negb (withinReach Math_sqrt fieldX fieldY q)) l = true
  end.
Proof.
  induction l as [|ps l IH]; cbn [clickedSource]; [reflexivity|].
  cbv zeta.
  destruct (Math_sqrt _ <? lit 0.3)%js eqn:En.
  - exists [], ps, l. repeat split. exact En.
  - destruct (clickedSource Math_sqrt l fieldX fieldY) as [id|].
    + destruct IH as (before & q & after & -> & Hb & Hq & ->).
      exists (ps :: before), q, after. repeat split; try assumption.
      cbn [forallb]. apply andb_true_intro. split; [|assumption].
      unfold withinReach. cbv zeta. now rewrite En.
    + cbn [forallb]. apply andb_true_intro. split; [|assumption].
      unfold withinReach. cbv zeta. now rewrite En.
Qed.

(** X6.  A click in [drag] mode never changes the sources or the counter.
    If it starts a drag, the dragged id is the id of the first source of
    the list whose distance to the click, as [Math.sqrt] reports it, is
    below 0.3; if no source is that close the state is unchanged. *)
Theorem drag_click_picks_first_source_in_reach :
  forall (Math_sqrt : number -> number) (mounted : bool)
         (clickX clickY : number) (st : ViewState),
    interactionMode st = drag ->
    let st' := handleCanvasMouseDown Math_sqrt mounted clickX clickY st in
    let near :=
      withinReach Math_sqrt (fst (canvasToFieldCoords clickX clickY))
                  (snd (canvasToFieldCoords clickX clickY)) in
    pointSources st' = pointSources st
    /\ nextSourceId st' = nextSourceId st
    /\ interactionMode st' = drag
    /\ (st' = st
        \/ exists before ps after,
             mounted = true
             /\ pointSources st = app before (ps :: after)
             /\ forallb (fun q => negb (near q)) before = true
             /\ near ps = true
             /\ draggedSourceId st' = Some (PointSource.id ps))
    /\ (forallb (fun q => negb (near q)) (pointSources st) = true ->
        st' = st).
Proof.
  intros Math_sqrt mounted clickX clickY st Hmode st' near.
  unfold st', handleCanvasMouseDown. clear st'. subst near.
  destruct (canvasToFieldCoords clickX clickY) as [fieldX fieldY].
  cbn [fst snd].
  destruct mounted; cbn [negb].
  2:{ repeat split; auto. }
  rewrite Hmode.
  pose proof (clickedSource_spec Math_sqrt (pointSources st) fieldX fieldY)
    as Hpick.
  destruct (clickedSource Math_sqrt (pointSources st) fieldX fieldY)
    as [id|] eqn:Ec.
  - destruct Hpick as (before & ps & after & Hl & Hb & Hps & ->).
    cbn. repeat split; try assumption.
    + right. exists before, ps, after. repeat split; assumption.
    + intros Hnone. rewrite Hl, forallb_app in Hnone.
      apply andb_prop in Hnone. destruct Hnone as [_ Hnone].
      cbn [forallb] in Hnone. rewrite Hps in Hnone. discriminate.
  - repeat split; auto.
Qed.

Lemma drag_click_picks_first_source_in_reach_witness :
  let st := toggleMode drag (loadPreset electricDipole initialView) in
  let st' := handleCanvasMouseDown Math_abs true (lit 200) (lit 300) st in
  pointSources st' = pointSources st /\ nextSourceId st' = nextSourceId st.
Proof.
  intros st st'.
  destruct (drag_click_picks_first_source_in_reach
              Math_abs true (lit 200) (lit 300) st eq_refl) as (H1 & H2 & _).
  split; assumption.
Defined.

(** X7.  Loading a physics preset replaces the sources: the new list has
    one source per preset entry, in order, with the preset's positions,
    strengths and types and with consecutive fresh ids starting at the
    counter, which advances by their number; [fx] and [fy] become the
    preset's.  No source that was there before survives. *)
Theorem physics_preset_replaces_sources :
  forall (preset : PhysicsPreset.t) (st : ViewState),
    wellNumbered st ->
    let st' := loadPreset preset st in
    let n := List.length (PhysicsPreset.sources preset) in
    map PointSource.id (pointSources st') = seq (nextSourceId st) n
    /\ map (fun ps => (PointSource.x ps, PointSource.y ps,
                       PointSource.strength ps, PointSource.type ps))
           (pointSources st')
       = PhysicsPreset.sources preset
    /\ nextSourceId st' = nextSourceId st + n
    /\ fx st' = PhysicsPreset.fx preset
    /\ fy st' = PhysicsPreset.fy preset
    /\ forall ps, In ps (pointSources st) ->
                  ~ In (PointSource.id ps)
                       (map PointSource.id (pointSources st')).
Proof.
  intros preset st Hw st' n. unfold st', loadPreset.
  destruct (loadPhysicsPreset_ids preset (nextSourceId st))
    as (Hids & Hnext & Hdata).
  destruct (loadPhysicsPreset preset (nextSourceId st)) as [new next].
  cbn [fst snd] in *. cbn.
  repeat split; try assumption.
  intros ps Hin. rewrite Hids. intros H. apply in_seq in H.
  destruct Hw as [_ Hlt]. rewrite Forall_forall in Hlt.
  specialize (Hlt ps Hin). lia.
Qed.

Lemma physics_preset_replaces_sources_witness :
  let st := loadPreset electricDipole initialView in
  map PointSource.id (pointSources (loadPreset quadrupole st))
  = [2; 3; 4; 5].
Proof.
  intros st.
  assert (Hw : wellNumbered st).
  { split; cbn; repeat constructor; cbn; intuition lia. }
  destruct (physics_preset_replaces_sources quadrupole st Hw) as (H & _).
  exact H.
Defined.
End DragTheorems.

(** ** More on the superposition of sources *)






Lemma Fx_real (b : Qc) (sources : list PointSource.t) (x y : number) :
  Forall realSource sources -> isFinite x = true -> isFinite y = true ->
  exists q, Fx (fun _ _ => Finite b) sources x y = Finite q.
Proof.
  intros Hall Hx Hy.
  destruct (Fx_scales (Q2Qc 1) b sources x y Hall Hx Hy) as [q [E _]].
  eauto.
Qed.

Lemma Fy_real (b : Qc) (sources : list PointSource.t) (x y : number) :
  Forall realSource sources -> isFinite x = true -> isFinite y = true ->
  exists q, Fy (fun _ _ => Finite b) sources x y = Finite q.
Proof.
  intros Hall Hx Hy.
  destruct (Fy_scales (Q2Qc 1) b sources x y Hall Hx Hy) as [q [E _]].
  eauto.
Qed.

(** X9.  With real sources, at a real position where the base field is
    finite, both components of the effective field are finite: the
    regularisation leaves no singularity, not even on a source.  At the
    position of a source that source contributes nothing. *)
Theorem effective_field_has_no_singularity :
  forall (baseFx baseFy : number -> number -> number)
         (sources : list PointSource.t) (x y px py strength : number),
    Forall realSource sources ->
    isFinite x = true -> isFinite y = true ->
    isFinite (baseFx x y) = true -> isFinite (baseFy x y) = true ->
    isFinite px = true -> isFinite py = true -> isFinite strength = true ->
    isFinite (Fx baseFx sources x y) = true
    /\ isFinite (Fy baseFy sources x y) = true
    /\ Fx zeroField [sourceAt px py strength] px py = lit 0
    /\ Fy zeroField [sourceAt px py strength] px py = lit 0.
Proof.
  intros baseFx baseFy sources x y px py strength Hall Hx Hy Hbx Hby
         Hpx Hpy Hs.
  split; [|split; [|split]].
  - apply isFinite_inv in Hbx. destruct Hbx as [b Hb].
    rewrite (Fx_base_ext baseFx (fun _ _ => Finite b)) by exact Hb.
    destruct (Fx_real b sources x y Hall Hx Hy) as [q ->]. reflexivity.
  - apply isFinite_inv in Hby. destruct Hby as [b Hb].
    rewrite (Fy_base_ext baseFy (fun _ _ => Finite b)) by exact Hb.
    destruct (Fy_real b sources x y Hall Hx Hy) as [q ->]. reflexivity.
  - finite. unfold Fx, zeroField, sourceAt, lit.
    cbn [fold_left PointSource.x PointSource.y PointSource.strength
         sub neg add mul].
    rewrite div_Finite.
    + apply Finite_eq. to_Q. field_simplify_eq; [ring|].
      intros H. nra.
    + intros H. to_Q. nra.
  - finite. unfold Fy, zeroField, sourceAt, lit.
    cbn [fold_left PointSource.x PointSource.y PointSource.strength
         sub neg add mul].
    rewrite div_Finite.
    + apply Finite_eq. to_Q. field_simplify_eq; [ring|].
      intros H. nra.
    + intros H. to_Q. nra.
Qed.

Lemma effective_field_has_no_singularity_witness :
  let dipole := fst (loadPhysicsPreset electricDipole 0) in
  isFinite (Fx zeroField dipole (lit (-1)) (lit 0)) = true
  /\ Fx zeroField [sourceAt (lit (-1)) (lit 0) (lit 3)] (lit (-1)) (lit 0)
     = lit 0.
Proof.
  intros dipole.
  destruct (effective_field_has_no_singularity
              zeroField zeroField dipole (lit (-1)) (lit 0)
              (lit (-1)) (lit 0) (lit 3))
    as (H1 & _ & H2 & _); try reflexivity.
  - repeat constructor.
  - split; assumption.
Defined.

Lemma single_source_term (s px py x y : Qc) :
  exists d : Qc,
    (Q2Qc 0 < d)%Qc
    /\ Fx zeroField [sourceAt (Finite px) (Finite py) (Finite s)]
          (Finite x) (Finite y)
       = Finite (s * (x - px) / d)%Qc
    /\ Fy zeroField [sourceAt (Finite px) (Finite py) (Finite s)]
          (Finite x) (Finite y)
       = Finite (s * (y - py) / d)%Qc.
Proof.
  exists ((x - px) * (x - px) + (y - py) * (y - py) + Q2Qc 0.01)%Qc.
  assert (Hd : (Q2Qc 0 < (x - px) * (x - px) + (y - py) * (y - py)
                          + Q2Qc 0.01)%Qc).
  { to_Q.
    match goal with
    | |- (_ < ?a * ?a + ?b * ?b + _)%Q => generalize a, b; intros u v
    end. nra. }
  split; [exact Hd|].
  assert (Hne : ((x - px) * (x - px) + (y - py) * (y - py) + Q2Qc 0.01)%Qc
                <> Q2Qc 0).
  { intros H. rewrite H in Hd. revert Hd. to_Q. lra. }
  unfold Fx, Fy, zeroField, sourceAt, lit.
  cbn [fold_left PointSource.x PointSource.y PointSource.strength
       sub neg add mul].
  fold (Qcminus x px). fold (Qcminus y py).
  rewrite !div_Finite by exact Hne. cbn [add].
  split; f_equal; apply Qcplus_0_l.
Qed.

Lemma Qc_div_pos (a d : Qc) :
  (Q2Qc 0 < d)%Qc ->
  ((Q2Qc 0 < a / d)%Qc <-> (Q2Qc 0 < a)%Qc)
  /\ ((a / d < Q2Qc 0)%Qc <-> (a < Q2Qc 0)%Qc).
Proof.
  intros Hd.
  assert (Hi : (0 < / d)%Q).
  { apply Qinv_lt_0_compat. revert Hd. to_Q. tauto. }
  revert Hi. to_Q. generalize (/ d)%Q. intros t Ht.
  split; split; intros H; nra.
Qed.

(** X10.  Sources repel and sinks attract.  With no base field, the
    component along x of the field of one source at a real point has the
    sign of [strength * (x - px)], and the component along y the sign of
    [strength * (y - py)]: a positive strength pushes away from the
    source, a negative one pulls towards it. *)
Theorem sources_repel_sinks_attract :
  forall (px py strength x y : number),
    isFinite px = true -> isFinite py = true -> isFinite strength = true ->
    isFinite x = true -> isFinite y = true ->
    let vx := Fx zeroField [sourceAt px py strength] x y in
    let vy := Fy zeroField [sourceAt px py strength] x y in
    (lit 0 <? vx) = (lit 0 <? strength * (x - px))
    /\ (vx <? lit 0) = (strength * (x - px) <? lit 0)
    /\ (lit 0 <? vy) = (lit 0 <? strength * (y - py))
    /\ (vy <? lit 0) = (strength * (y - py) <? lit 0).
Proof.
  intros px py strength x y Hpx Hpy Hs Hx Hy vx vy. subst vx vy.
  finite. rename q3 into px, q2 into py, q1 into s, q0 into x, q into y.
  destruct (single_source_term s px py x y) as (d & Hd & -> & ->).
  cbn [sub neg add mul]. fold (Qcminus x px). fold (Qcminus y py).
  unfold lit.
  destruct (Qc_div_pos (s * (x - px)) d Hd) as [Hxp Hxn].
  destruct (Qc_div_pos (s * (y - py)) d Hd) as [Hyp Hyn].
  repeat split; apply eq_true_iff_eq; rewrite !lt_Finite; assumption.
Qed.

Lemma sources_repel_sinks_attract_witness :
  (* a sink at (1, 0) pulls the origin to the right *)
  (lit 0 <? Fx zeroField [sourceAt (lit 1) (lit 0) (lit (-3))] (lit 0) (lit 0))
  = true.
Proof.
  destruct (sources_repel_sinks_attract
              (lit 1) (lit 0) (lit (-3)) (lit 0) (lit 0)
              eq_refl eq_refl eq_refl eq_refl eq_refl)
    as (H & _).
  rewrite H. reflexivity.
Defined.



(** ** The central difference on polynomial fields *)







(** ** The extrema of the divergence *)

Lemma le_trans (a b c : number) :
  (a <=? b) = true -> (b <=? c) = true -> (a <=? c) = true.
Proof.
  destruct a as [p| | |], b as [q| | |], c as [r| | |];
    cbn; try discriminate; try reflexivity.
  fold (Finite p <=? Finite q). fold (Finite q <=? Finite r).
  fold (Finite p <=? Finite r). rewrite !le_Finite. apply Qcle_trans.
Qed.





Section Extrema.
Variables Fx Fy : number -> number -> number.



End Extrema.



(** ** The particle ensemble over many frames *)

Lemma updateParticles_Forall (P Q : Particle.t -> Prop)
  (Fx Fy : number -> number -> number) (animationSpeed : number) :
  (forall p g, P p -> (forall k, unitInterval (draws g k) = true) ->
               Q (fst (updateParticle Fx Fy animationSpeed p g))) ->
  forall particles rng,
    Forall P particles -> (forall k, unitInterval (draws rng k) = true) ->
    Forall Q (fst (updateParticles Fx Fy animationSpeed particles rng)).
Proof.
  intros Hstep particles rng Hall. revert rng.
  induction Hall as [|p l Hp Hl IH]; intros rng Hrng; cbn [updateParticles].
  - constructor.
  - pose proof (Hstep p rng Hp Hrng) as H1.
    pose proof (respawn_draws (advance Fx Fy animationSpeed p) rng) as H2.
    fold (updateParticle Fx Fy animationSpeed p rng) in H2.
    destruct (updateParticle Fx Fy animationSpeed p rng) as [p' rng'].
    cbn [fst snd] in H1, H2.
    specialize (IH rng'). rewrite H2 in IH. specialize (IH Hrng).
    destruct (updateParticles Fx Fy animationSpeed l rng') as [l' rng''].
    cbn [fst] in *. constructor; assumption.
Qed.

Lemma updateParticle_life (Fx Fy : number -> number -> number)
  (animationSpeed : number) (particle : Particle.t) (rng : RandomSource) :
  isFinite animationSpeed = true -> (lit 0 <=? animationSpeed) = true ->
  lifeWithin particle = true ->
  lifeWithin (fst (updateParticle Fx Fy animationSpeed particle rng)) = true
  /\ lifePositive (fst (updateParticle Fx Fy animationSpeed particle rng))
     = true.
Proof.
  intros Hs Hs0 Hl. unfold updateParticle, respawn.
  destruct (outOfPlay (advance Fx Fy animationSpeed particle)) eqn:E.
  - cbn. split; reflexivity.
  - cbn [fst]. unfold outOfPlay in E.
    apply orb_false_elim in E. destruct E as [E _].
    apply orb_false_elim in E. destruct E as [E _].
    unfold lifeWithin, lifePositive in *. unfold advance in *.
    cbn [Particle.life] in *.
    destruct (isFinite (Fx _ _) && isFinite (Fy _ _)); cbn [Particle.life] in *;
      apply andb_prop in Hl; destruct Hl as [Hl0 Hl1];
      destruct (Particle.life particle) as [l| | |]; try discriminate;
      apply isFinite_inv in Hs; destruct Hs as [s ->];
      unfold lit in *; cbn [mul sub neg add] in *;
      apply le_Finite in Hs0, Hl0, Hl1; apply le_Finite_false in E;
      (split; [apply andb_true_intro; split; apply le_Finite
              | apply lt_Finite]);
      revert Hs0 Hl0 Hl1 E; to_Q; intros; lra.
Qed.

Lemma pushParticles_length (n : nat) (particles : list Particle.t)
  (rng : RandomSource) :
  List.length (fst (pushParticles n particles rng))
  = (List.length particles + n)%nat.
Proof.
  revert particles rng. induction n as [|n IH]; intros particles rng.
  - cbn. now rewrite Nat.add_0_r.
  - cbn [pushParticles Math_random]. rewrite IH, length_app. cbn. lia.
Qed.

Lemma pushParticles_life (n : nat) (particles : list Particle.t)
  (rng : RandomSource) :
  (forall k, unitInterval (draws rng k) = true) ->
  Forall (fun p => lifeWithin p = true) particles ->
  Forall (fun p => lifeWithin p = true) (fst (pushParticles n particles rng)).
Proof.
  revert particles rng. induction n as [|n IH]; intros particles rng Hrng Hall.
  - assumption.
  - cbn [pushParticles Math_random]. apply IH.
    + exact Hrng.
    + apply Forall_app. split; [assumption|].
      constructor; [|constructor].
      unfold lifeWithin. cbn [Particle.life draws drawn].
      specialize (Hrng (S (S (drawn rng)))). unfold unitInterval in Hrng.
      apply andb_prop in Hrng. destruct Hrng as [H0 H1].
      rewrite H0. cbn [andb].
      destruct (draws rng (S (S (drawn rng)))) as [r| | |]; try discriminate.
      unfold lit in *. apply le_Finite. apply lt_Finite in H1.
      now apply Qclt_le_weak.
Qed.

Section Frames.
Variables Fx Fy : number -> number -> number.
Variable animationSpeed : number.
Hypothesis speed_real : isFinite animationSpeed = true.
Hypothesis speed_forward : (lit 0 <=? animationSpeed) = true.

Lemma updateParticle_invariant (p : Particle.t) (g : RandomSource) :
  inDomain p = true /\ lifeWithin p = true ->
  (forall k, unitInterval (draws g k) = true) ->
  (inDomain (fst (updateParticle Fx Fy animationSpeed p g)) = true
   /\ lifeWithin (fst (updateParticle Fx Fy animationSpeed p g)) = true)
  /\ lifePositive (fst (updateParticle Fx Fy animationSpeed p g)) = true.
Proof.
  intros [Hp1 Hp2] Hg.
  destruct (updateParticle_life Fx Fy animationSpeed p g
              speed_real speed_forward Hp2) as [L1 L2].
  split; [split|]; try assumption.
  unfold updateParticle. apply respawn_inDomain; [|assumption].
  apply advance_realPosition; [assumption|]. now apply inDomain_real.
Qed.

Lemma runFrames_invariant (n : nat) (particles : list Particle.t)
  (rng : RandomSource) :
  Forall (fun p => inDomain p = true /\ lifeWithin p = true) particles ->
  (forall k, unitInterval (draws rng k) = true) ->
  let after := fst (runFrames n Fx Fy animationSpeed particles rng) in
  List.length after = List.length particles
  /\ Forall (fun p => inDomain p = true /\ lifeWithin p = true) after
  /\ ((0 < n)%nat -> Forall (fun p => lifePositive p = true) after).
Proof.
  revert particles rng.
  induction n as [|n IH]; intros qs g Hq Hg; cbn [runFrames].
  - cbn [fst]. repeat split; try assumption. intros H. inversion H.
  - unfold animateParticles.
    pose proof (updateParticles_length Fx Fy animationSpeed qs g) as Hl'.
    pose proof (updateParticles_draws Fx Fy animationSpeed qs g) as Hd'.
    pose proof (updateParticles_Forall
                  (fun p => inDomain p = true /\ lifeWithin p = true)
                  (fun p => (inDomain p = true /\ lifeWithin p = true)
                            /\ lifePositive p = true)
                  Fx Fy animationSpeed
                  updateParticle_invariant qs g Hq Hg) as Hq'.
    destruct (updateParticles Fx Fy animationSpeed qs g) as [qs' g'].
    cbn [fst snd] in *.
    assert (Hg' : forall k, unitInterval (draws g' k) = true)
      by (now rewrite Hd').
    assert (Hpos : Forall (fun p => lifePositive p = true) qs').
    { eapply Forall_impl; [|exact Hq']. now intros p [_ H]. }
    assert (Hin : Forall (fun p => inDomain p = true /\ lifeWithin p = true)
                    qs').
    { eapply Forall_impl; [|exact Hq']. now intros p [H _]. }
    destruct (IH qs' g' Hin Hg') as (R1 & R2 & R3).
    split; [congruence|]. split; [assumption|].
    intros _. destruct n as [|n].
    + cbn [runFrames fst]. assumption.
    + apply R3. apply Nat.lt_0_succ.
Qed.
End Frames.

(** X15.  From the initialisation on, at a real animation speed that is
    not negative, the 2D view keeps exactly 500 particles, each inside
    the domain with a remaining life in [[0, 1]]; after the first frame
    every life is positive, so each frame starts from particles that are
    still in play. *)
Theorem particle_ensemble_invariant :
  forall (n : nat) (Fx Fy : number -> number -> number)
         (animationSpeed : number) (rng : RandomSource),
    isFinite animationSpeed = true ->
    (lit 0 <=? animationSpeed) = true ->
    (forall k, unitInterval (draws rng k) = true) ->
    let start := initParticles [] rng in
    let particles :=
      fst (runFrames n Fx Fy animationSpeed (fst start) (snd start)) in
    List.length particles = 500%nat
    /\ Forall (fun p => inDomain p = true /\ lifeWithin p = true) particles
    /\ ((0 < n)%nat -> Forall (fun p => lifePositive p = true) particles).
Proof.
  intros n Fx Fy s rng Hs Hs0 Hrng start particles.
  subst particles start. unfold initParticles.
  pose proof (pushParticles_length 500 [] rng) as Hlen.
  destruct (pushParticles_inDomain 500 [] rng Hrng (Forall_nil _))
    as [Hdom Hd].
  pose proof (pushParticles_life 500 [] rng Hrng (Forall_nil _)) as Hlife.
  destruct (pushParticles 500 [] rng) as [ps g]. cbn [fst snd] in *.
  assert (Hg : forall k, unitInterval (draws g k) = true)
    by (now rewrite Hd).
  assert (Hall : Forall (fun p => inDomain p = true /\ lifeWithin p = true) ps).
  { apply Forall_forall. intros p Hp. split.
    - now apply (proj1 (Forall_forall _ _) Hdom).
    - now apply (proj1 (Forall_forall _ _) Hlife). }
  destruct (runFrames_invariant Fx Fy s Hs Hs0 n ps g Hall Hg)
    as (R1 & R2 & R3).
  split; [|split; assumption].
  rewrite R1. exact Hlen.
Qed.

(** X15 for the rotation field at speed 1, three frames, every draw
    0.5. *)
Lemma particle_ensemble_invariant_witness :
  let rng := {| draws := fun _ => lit 0.5; drawn := 0 |} in
  let start := initParticles [] rng in
  let particles :=
    fst (runFrames 3 (fun _ y => - y) (fun x _ => x) (lit 1)
           (fst start) (snd start)) in
  List.length particles = 500%nat
  /\ Forall (fun p => inDomain p = true /\ lifeWithin p = true) particles
  /\ ((0 < 3)%nat -> Forall (fun p => lifePositive p = true) particles).
Proof.
  apply (particle_ensemble_invariant 3 (fun _ y => - y) (fun x _ => x)
           (lit 1) {| draws := fun _ => lit 0.5; drawn := 0 |}).
  - reflexivity.
  - reflexivity.
  - intros k. reflexivity.
Defined.

(** ** The particle system of the 3D view over many frames *)

Lemma inDomain3D_real (range3 : number) (particle : Particle3D.t) :
  isFinite range3 = true ->
  inDomain3D range3 particle = true -> realPosition3D particle = true.
Proof.
  unfold inDomain3D, realPosition3D. intros Hr H.
  apply andb_prop in H. destruct H as [H Hz].
  apply andb_prop in H. destruct H as [Hx Hy].
  apply andb_true_intro; split; [apply andb_true_intro; split|];
    eapply within_real; eauto.
Qed.

Section Frames3D.
Variables Fx3 Fy3 Fz3 : number -> number -> number -> number.
Variables range3 speed : number.
Hypothesis range3_real : isFinite range3 = true.
Hypothesis range3_nonneg : (lit 0 <=? range3) = true.
Hypothesis speed_real : isFinite speed = true.
Hypothesis speed_forward : (lit 0 <=? speed) = true.

Lemma updateParticle3D_life (delta : number) (particle : Particle3D.t)
  (rng : RandomSource) :
  isFinite delta = true -> (lit 0 <=? delta) = true ->
  lifeWithin3D particle = true ->
  lifeWithin3D
    (fst (updateParticle3D Fx3 Fy3 Fz3 range3 speed delta particle rng))
  = true.
Proof.
  intros Hd Hd0 Hl. unfold updateParticle3D, respawn3D.
  destruct (outOfPlay3D range3 (advance3D Fx3 Fy3 Fz3 speed delta particle))
    eqn:E.
  - reflexivity.
  - cbn [fst]. unfold outOfPlay3D in E.
    apply orb_false_elim in E. destruct E as [E _].
    apply orb_false_elim in E. destruct E as [E _].
    apply orb_false_elim in E. destruct E as [E _].
    unfold lifeWithin3D in *. unfold advance3D in *.
    cbn [Particle3D.life] in *.
    apply andb_prop in Hl. destruct Hl as [Hl0 Hl1].
    destruct (Particle3D.life particle) as [l| | |]; try discriminate.
    pose proof speed_real as Hs. pose proof speed_forward as Hs0.
    apply isFinite_inv in Hs. destruct Hs as [s Es].
    apply isFinite_inv in Hd. destruct Hd as [d Ed].
    rewrite Es in *. rewrite Ed in *.
    unfold lit in *. cbn [mul sub neg add] in *.
    apply le_Finite in Hs0, Hd0, Hl0, Hl1. apply le_Finite_false in E.
    apply andb_true_intro. split; apply le_Finite.
    + apply Qclt_le_weak. exact E.
    + apply Qcle_trans with (y := l); [|assumption].
      assert (H : (Q2Qc 0 <= d * Q2Qc 0.3 * s)%Qc).
      { revert Hs0 Hd0. to_Q. intros. nra. }
      revert H. generalize (d * Q2Qc 0.3 * s)%Qc. intros t. to_Q. lra.
Qed.

Lemma updateParticle3D_inPlay (delta : number) (particle : Particle3D.t)
  (rng : RandomSource) :
  isFinite delta = true -> (lit 0 <=? delta) = true ->
  (forall k, unitInterval (draws rng k) = true) ->
  inPlay3D range3 particle ->
  inPlay3D range3
    (fst (updateParticle3D Fx3 Fy3 Fz3 range3 speed delta particle rng)).
Proof.
  intros Hd Hd0 Hrng (H1 & H2 & H3). split; [|split].
  - unfold updateParticle3D.
    apply respawn3D_inDomain; try assumption.
    apply advance3D_realPosition; try assumption.
    now apply (inDomain3D_real range3).
  - now apply updateParticle3D_life.
  - now rewrite updateParticle3D_velocity.
Qed.

Lemma updateParticles3D_inPlay (delta : number)
  (particles : list Particle3D.t) (rng : RandomSource) :
  isFinite delta = true -> (lit 0 <=? delta) = true ->
  Forall (inPlay3D range3) particles ->
  (forall k, unitInterval (draws rng k) = true) ->
  Forall (inPlay3D range3)
         (fst (updateParticles3D Fx3 Fy3 Fz3 range3 speed delta
                                 particles rng))
  /\ draws (snd (updateParticles3D Fx3 Fy3 Fz3 range3 speed delta
                                   particles rng)) = draws rng.
Proof.
  intros Hd Hd0 Hall. revert rng.
  induction Hall as [|p l Hp Hl IH]; intros rng Hrng;
    cbn [updateParticles3D].
  - split; [constructor | reflexivity].
  - pose proof (updateParticle3D_inPlay delta p rng Hd Hd0 Hrng Hp) as H1.
    pose proof (respawn3D_draws range3
                  (advance3D Fx3 Fy3 Fz3 speed delta p) rng) as H2.
    fold (updateParticle3D Fx3 Fy3 Fz3 range3 speed delta p rng) in H2.
    destruct (updateParticle3D Fx3 Fy3 Fz3 range3 speed delta p rng)
      as [p' rng'].
    cbn [fst snd] in H1, H2.
    specialize (IH rng'). rewrite H2 in IH. specialize (IH Hrng).
    destruct (updateParticles3D Fx3 Fy3 Fz3 range3 speed delta l rng')
      as [l' rng''].
    cbn [fst snd] in *. destruct IH as [IH1 IH2].
    split; [constructor; assumption | assumption].
Qed.

Lemma initParticles3D_inPlay (count : nat) (rng : RandomSource) :
  (forall k, unitInterval (draws rng k) = true) ->
  List.length (fst (initParticles3D count range3 rng)) = count
  /\ Forall (inPlay3D range3) (fst (initParticles3D count range3 rng))
  /\ draws (snd (initParticles3D count range3 rng)) = draws rng.
Proof.
  revert rng. induction count as [|count IH]; intros rng Hrng.
  - cbn. repeat split. constructor.
  - cbn [initParticles3D Math_random].
    match goal with
    | |- context [initParticles3D count range3 ?g] =>
        destruct (IH g Hrng) as (I1 & I2 & I3);
        destruct (initParticles3D count range3 g) as [rest g']
    end.
    cbn [fst snd draws] in *.
    split; [cbn; now rewrite I1|]. split; [|assumption].
    constructor; [|assumption].
    split; [|split].
    + unfold inDomain3D.
      cbn [Particle3D.position Vector3.x Vector3.y Vector3.z draws drawn].
      apply andb_true_intro; split; [apply andb_true_intro; split|];
        apply respawn_coordinate_within; auto.
    + unfold lifeWithin3D. cbn [Particle3D.life draws drawn].
      specialize (Hrng (S (S (S (drawn rng))))). unfold unitInterval in Hrng.
      apply andb_prop in Hrng. destruct Hrng as [H0 H1].
      rewrite H0. cbn [andb].
      destruct (draws rng (S (S (S (drawn rng))))) as [r| | |];
        try discriminate.
      unfold lit in *. apply le_Finite. apply lt_Finite in H1.
      now apply Qclt_le_weak.
    + reflexivity.
Qed.

Lemma runFrames3D_inPlay (deltas : list number)
  (particles : list Particle3D.t) (rng : RandomSource) :
  Forall (fun delta => isFinite delta = true /\ (lit 0 <=? delta) = true)
         deltas ->
  Forall (inPlay3D range3) particles ->
  (forall k, unitInterval (draws rng k) = true) ->
  let after :=
    fst (runFrames3D Fx3 Fy3 Fz3 range3 speed deltas particles rng) in
  List.length after = List.length particles
  /\ Forall (inPlay3D range3) after.
Proof.
  intros Hd. revert particles rng.
  induction Hd as [|delta rest [Hd Hd0] Hrest IH]; intros ps g Hps Hg;
    cbn [runFrames3D].
  - split; [reflexivity | assumption].
  - unfold useFrame. cbn [negb orb].
    pose proof (updateParticles3D_length Fx3 Fy3 Fz3 range3 speed delta ps g)
      as Hl.
    destruct (updateParticles3D_inPlay delta ps g Hd Hd0 Hps Hg) as [U1 U2].
    destruct (updateParticles3D Fx3 Fy3 Fz3 range3 speed delta ps g)
      as [ps' g'].
    cbn [fst snd] in *.
    assert (Hg' : forall k, unitInterval (draws g' k) = true)
      by (now rewrite U2).
    destruct (IH ps' g' U1 Hg') as [R1 R2].
    split; [congruence | assumption].
Qed.
End Frames3D.

(** X16.  The particle system of the 3D view, from its initialisation
    through any sequence of frames with real, non-negative frame times
    (real, non-negative range and speed): it always holds exactly [count]
    particles, each inside the cube [[-range, range]^3] with a life in
    [[0, 1]], and the [velocity] vector of every particle is still
    [(0, 0, 0)]: the frame callback never writes it. *)
Theorem particle_system_3d_invariant :
  forall (Fx3 Fy3 Fz3 : number -> number -> number -> number)
         (range3 speed : number) (count : nat) (deltas : list number)
         (rng : RandomSource),
    isFinite range3 = true -> (lit 0 <=? range3) = true ->
    isFinite speed = true -> (lit 0 <=? speed) = true ->
    Forall (fun delta => isFinite delta = true /\ (lit 0 <=? delta) = true)
           deltas ->
    (forall k, unitInterval (draws rng k) = true) ->
    let start := initParticles3D count range3 rng in
    let particles :=
      fst (runFrames3D Fx3 Fy3 Fz3 range3 speed deltas
                       (fst start) (snd start)) in
    List.length particles = count
    /\ Forall (fun p => inDomain3D range3 p = true
                        /\ lifeWithin3D p = true
                        /\ Particle3D.velocity p = zeroVector) particles.
Proof.
  intros Fx3 Fy3 Fz3 range3 speed count deltas rng Hr Hr0 Hs Hs0 Hd Hrng
         start particles.
  subst particles start.
  destruct (initParticles3D_inPlay range3 Hr Hr0 count rng Hrng)
    as (I1 & I2 & I3).
  destruct (initParticles3D count range3 rng) as [ps g].
  cbn [fst snd] in *.
  assert (Hg : forall k, unitInterval (draws g k) = true)
    by (now rewrite I3).
  destruct (runFrames3D_inPlay Fx3 Fy3 Fz3 range3 speed Hr Hr0 Hs Hs0
              deltas ps g Hd I2 Hg) as [R1 R2].
  split; [congruence | exact R2].
Qed.

(** X16 for the rotation about z with the props of the view (range 2,
    300 particles), speed 1, two frames of 16 ms, every draw 0.5. *)
Lemma particle_system_3d_invariant_witness :
  let rng := {| draws := fun _ => lit 0.5; drawn := 0 |} in
  let start := initParticles3D 300 (lit 2) rng in
  let particles :=
    fst (runFrames3D (fun _ y _ => - y) (fun x _ _ => x) (fun _ _ _ => lit 0)
                     (lit 2) (lit 1) [lit 0.016; lit 0.016]
                     (fst start) (snd start)) in
  List.length particles = 300%nat
  /\ Forall (fun p => inDomain3D (lit 2) p = true
                      /\ lifeWithin3D p = true
                      /\ Particle3D.velocity p = zeroVector) particles.
Proof.
  apply (particle_system_3d_invariant
           (fun _ y _ => - y) (fun x _ _ => x) (fun _ _ _ => lit 0)
           (lit 2) (lit 1) 300 [lit 0.016; lit 0.016]
           {| draws := fun _ => lit 0.5; drawn := 0 |}).
  - reflexivity.
  - reflexivity.
  - reflexivity.
  - reflexivity.
  - repeat constructor.
  - intros k. reflexivity.
Defined.

(** ** The opacity of a background cell *)




(** ** The colour maps at their anchors *)

(** X18.  Every colour map passes through its anchors: with [N] anchors
    in the theme, [getColor] at [t = k / (N - 1)] returns anchor [k]
    unchanged, for every theme and every index [k] of its table. *)
Theorem color_map_passes_through_anchors :
  forall (theme : ColorTheme) (k : nat) (anchor : Anchor),
    nth_error (colorMaps theme) k = Some anchor ->
    getColor (ofNat k / (ofNat (List.length (colorMaps theme)) - lit 1)) theme
    = Some anchor.
Proof.
  intros theme k anchor H.
  destruct theme;
    do 10 (destruct k as [|k];
           [cbn in H;
            first [discriminate H
                  | injection H as <-; vm_compute; reflexivity]|]);
    cbn in H; destruct k; discriminate H.
Qed.

(** X18 at the fourth anchor of the plasma map, [t = 3/8]. *)
Lemma color_map_passes_through_anchors_witness :
  getColor (ofNat 3 / (ofNat (List.length (colorMaps plasma)) - lit 1)) plasma
  = Some (rgb 168 34 150).
Proof.
  apply (color_map_passes_through_anchors plasma 3 (rgb 168 34 150)).
  reflexivity.
Defined.

(** ** Drawing a particle *)

Lemma within_onCanvas (x y : number) :
  within range x = true -> within range y = true ->
  onCanvas (canvasX x) = true /\ onCanvas (canvasY y) = true.
Proof.
  intros Hx Hy.
  pose proof (within_real range x eq_refl Hx) as Fx.
  pose proof (within_real range y eq_refl Hy) as Fy.
  apply isFinite_inv in Fx, Fy. destruct Fx as [a ->], Fy as [b ->].
  unfold within, range, lit in Hx, Hy. cbn [neg] in Hx, Hy.
  apply andb_prop in Hx, Hy. destruct Hx as [X0 X1], Hy as [Y0 Y1].
  apply le_Finite in X0, X1, Y0, Y1.
  rewrite canvasX_Finite, canvasY_Finite. unfold onCanvas, size, lit.
  assert (E1 : ((a + Q2Qc 3) / (Q2Qc 2 * Q2Qc 3) * Q2Qc 600
                = (a + Q2Qc 3) * Q2Qc 100)%Qc).
  { apply Qc_is_canon. to_Q. field. }
  assert (E2 : ((Q2Qc 3 - b) / (Q2Qc 2 * Q2Qc 3) * Q2Qc 600
                = (Q2Qc 3 - b) * Q2Qc 100)%Qc).
  { apply Qc_is_canon. to_Q. field. }
  rewrite E1, E2.
  split; apply andb_true_intro; split; apply le_Finite;
    revert X0 X1 Y0 Y1; to_Q; intros; lra.
Qed.

Lemma opacity_factor (m : Qc) :
  (Q2Qc 0 <= m)%Qc ->
  exists q, Math_min (lit 1) (Finite m * lit 0.3 + lit 0.5) = Finite q
            /\ (Q2Qc 0.5 <= q)%Qc /\ (q <= Q2Qc 1)%Qc.
Proof.
  intros Hm. unfold lit. cbn [mul add]. cbn [Math_min].
  destruct (Finite (m * Q2Qc 0.3 + Q2Qc 0.5)%Qc <? Finite (Q2Qc 1)) eqn:E.
  - apply lt_Finite in E. eexists. split; [reflexivity|].
    split; [revert Hm; to_Q; intros; lra | now apply Qclt_le_weak].
  - eexists. split; [reflexivity|]. split; discriminate.
Qed.

(** X19.  A particle that is drawn is visible: with a real, non-negative
    animation speed, a host square root that is real and non-negative on
    real non-negative arguments, and real field samples, the arrow of a
    particle that was inside the domain with a life in [[0, 1]] before
    the loop body starts on the canvas ([0..600] on both axes) and has
    an opacity in [(0, 1]]. *)
Theorem drawn_particle_is_visible :
  forall (Math_sqrt : number -> number) (Fx Fy : number -> number -> number)
         (animationSpeed : number) (particle : Particle.t)
         (rng : RandomSource) (stroke : Stroke),
    realRoot Math_sqrt ->
    isFinite animationSpeed = true -> (lit 0 <=? animationSpeed) = true ->
    (forall k, unitInterval (draws rng k) = true) ->
    inDomain particle = true -> lifeWithin particle = true ->
    isFinite (Fx (Particle.x particle) (Particle.y particle)) = true ->
    isFinite (Fy (Particle.x particle) (Particle.y particle)) = true ->
    snd (fst (drawParticle Math_sqrt Fx Fy animationSpeed particle rng))
    = Some stroke ->
    onCanvas (fromX stroke) = true /\ onCanvas (fromY stroke) = true
    /\ (lit 0 <? strokeAlpha stroke) = true
    /\ (strokeAlpha stroke <=? lit 1) = true.
Proof.
  intros Math_sqrt Fx Fy s p rng stroke Hroot Hs Hs0 Hrng Hdom Hlife
         Hvx Hvy Hdraw.
  unfold drawParticle in Hdraw.
  destruct (updateParticle_invariant Fx Fy s Hs Hs0 p rng
              (conj Hdom Hlife) Hrng) as [[Hdom' Hlife'] Hpos'].
  destruct (updateParticle Fx Fy s p rng) as [p' rng'].
  cbn [fst snd] in *.
  unfold particleArrow in Hdraw.
  apply isFinite_inv in Hvx, Hvy.
  destruct Hvx as [vx Evx], Hvy as [vy Evy]. rewrite Evx, Evy in Hdraw.
  cbn [mul add] in Hdraw.
  assert (Hsq : (lit 0 <=? Finite (vx * vx + vy * vy)%Qc) = true).
  { unfold lit. apply le_Finite. to_Q. nra. }
  destruct (Hroot (Finite (vx * vx + vy * vy)%Qc) eq_refl Hsq) as [Hm Hm0].
  apply isFinite_inv in Hm. destruct Hm as [m Em]. rewrite Em in *.
  destruct (Finite m >? lit 0.01); [|discriminate].
  match type of Hdraw with
  | Some ?t = _ => assert (Es : stroke = t) by congruence
  end.
  rewrite Es. clear Es Hdraw. cbn [fromX fromY strokeAlpha].
  unfold inDomain in Hdom'. apply andb_prop in Hdom'.
  destruct Hdom' as [Hx Hy].
  destruct (within_onCanvas _ _ Hx Hy) as [C1 C2].
  split; [assumption|]. split; [assumption|].
  destruct (opacity_factor m) as (q & Eq & Q0 & Q1).
  { now apply le_Finite. }
  rewrite Eq.
  unfold lifeWithin, lifePositive in *.
  apply andb_prop in Hlife'. destruct Hlife' as [_ L1].
  destruct (Particle.life p') as [l| | |]; try discriminate.
  unfold lit in *. apply lt_Finite in Hpos'. apply le_Finite in L1.
  cbn [mul].
  split; [apply lt_Finite | apply le_Finite];
    revert Hpos' L1 Q0 Q1; to_Q; intros; nra.
Qed.

(** X19 for the field [(3, 4)] (magnitude 5) and a particle at the
    origin with life 0.5, at speed 1. *)
Lemma drawn_particle_is_visible_witness :
  exists stroke,
    snd (fst (drawParticle (fun _ => lit 5)
                (fun _ _ => lit 3) (fun _ _ => lit 4) (lit 1)
                {| Particle.x := lit 0; Particle.y := lit 0;
                   Particle.life := lit 0.5 |}
                sampleRandom)) = Some stroke
    /\ onCanvas (fromX stroke) = true /\ onCanvas (fromY stroke) = true
    /\ (lit 0 <? strokeAlpha stroke) = true
    /\ (strokeAlpha stroke <=? lit 1) = true.
Proof.
  eexists. split; [reflexivity|].
  apply (drawn_particle_is_visible (fun _ => lit 5)
           (fun _ _ => lit 3) (fun _ _ => lit 4) (lit 1)
           {| Particle.x := lit 0; Particle.y := lit 0;
              Particle.life := lit 0.5 |}
           sampleRandom).
  - intros v _ _. split; reflexivity.
  - reflexivity.
  - reflexivity.
  - intros k. reflexivity.
  - reflexivity.
  - reflexivity.
  - reflexivity.
  - reflexivity.
  - reflexivity.
Defined.

(** ** The lifetime of a particle *)





(** ** The arrows of the 3D view *)

Lemma ofNat_le (i n : nat) :
  (i <= n)%nat ->
  (Q2Qc 0 <= Q2Qc (inject_Z (Z.of_nat i)))%Qc
  /\ (Q2Qc (inject_Z (Z.of_nat i)) <= Q2Qc (inject_Z (Z.of_nat n)))%Qc.
Proof.
  intros H. split; to_Q.
  - change 0%Q with (inject_Z 0). rewrite <- Zle_Qle. lia.
  - rewrite <- Zle_Qle. lia.
Qed.

Lemma ofNat_pos (n : nat) :
  (0 < n)%nat -> (Q2Qc 0 < Q2Qc (inject_Z (Z.of_nat n)))%Qc.
Proof.
  intros H. to_Q. change 0%Q with (inject_Z 0). rewrite <- Zlt_Qlt. lia.
Qed.

(** A grid node [-r + i * (2r / n)] with [0 <= i <= n] lies in [[-r, r]]. *)
Lemma node_within (r : Qc) (i n : nat) :
  (Q2Qc 0 <= r)%Qc -> (0 < n)%nat -> (i <= n)%nat ->
  within (Finite r) (- Finite r + ofNat i * ((lit 2 * Finite r) / ofNat n))
  = true.
Proof.
  intros Hr Hn Hi.
  destruct (ofNat_le i n Hi) as [I0 I1]. pose proof (ofNat_pos n Hn) as N0.
  unfold ofNat, lit. cbn [mul].
  rewrite div_Finite.
  2:{ intros E. rewrite E in N0. revert N0. to_Q. intros. lra. }
  cbn [neg add mul]. unfold within. cbn [neg].
  revert I0 I1 N0.
  generalize (Q2Qc (inject_Z (Z.of_nat i))) (Q2Qc (inject_Z (Z.of_nat n))).
  intros iq nq I0 I1 N0.
  assert (Hu : (0 < / nq)%Q).
  { apply Qinv_lt_0_compat. revert N0. to_Q. intros. lra. }
  assert (Hone : (nq * / nq == 1)%Q).
  { apply Qmult_inv_r. revert N0. to_Q. intros. lra. }
  apply andb_true_intro.
  split; apply le_Finite; revert Hr I0 I1 N0 Hu Hone; to_Q;
    generalize (/ nq)%Q; intros u Hr I0 I1 N0 Hu Hone;
    assert (T0 : (0 <= iq * u)%Q) by nra;
    assert (T1 : (iq * u <= 1)%Q) by nra;
    nra.
Qed.

Lemma arrowLength_bounds (m : Qc) :
  (Q2Qc 0.01 <= m)%Qc ->
  exists len,
    arrowLength (Finite m) = Finite len
    /\ (Q2Qc 0.003 <= len)%Qc /\ (len <= Q2Qc 0.5)%Qc
    /\ arrowShaftLength (Finite m) = Finite (len - len * Q2Qc 0.25)%Qc.
Proof.
  intros Hm. unfold arrowShaftLength, arrowHeadLength, arrowLength, lit.
  cbn [mul]. cbn [Math_min].
  destruct (Finite (Q2Qc 0.5) <? Finite (m * Q2Qc 0.3)%Qc) eqn:E.
  - exists (Q2Qc 0.5). repeat split; discriminate.
  - apply lt_Finite_false in E. exists (m * Q2Qc 0.3)%Qc.
    split; [reflexivity|]. split; [|split; [assumption | reflexivity]].
    revert Hm. to_Q. intros. lra.
Qed.

Section ArrowFacts.
Variable Math_sqrt : number -> number.
Variables Fx Fy Fz : number -> number -> number -> number.
Hypothesis sqrt_real : realRoot Math_sqrt.

Lemma arrowAt_sound (r : Qc) (n i j k : nat) (arrow : ArrowData.t) :
  (Q2Qc 0 <= r)%Qc -> (0 < n)%nat ->
  (i <= n)%nat -> (j <= n)%nat -> (k <= n)%nat ->
  arrowAt Math_sqrt Fx Fy Fz (Finite r) ((lit 2 * Finite r) / ofNat n) i j k
  = Some arrow ->
  inCube (Finite r) (ArrowData.position arrow) = true
  /\ realVector (ArrowData.direction arrow) = true
  /\ (lit 0.01 <=? ArrowData.magnitude arrow) = true
  /\ isFinite (ArrowData.magnitude arrow) = true.
Proof.
  intros Hr Hn Hi Hj Hk H. unfold arrowAt in H.
  set (step := (lit 2 * Finite r) / ofNat n) in *.
  set (x := - Finite r + ofNat i * step) in *.
  set (y := - Finite r + ofNat j * step) in *.
  set (z := - Finite r + ofNat k * step) in *.
  destruct (isFinite (Fx x y z)) eqn:Ex; [|discriminate].
  destruct (isFinite (Fy x y z)) eqn:Ey; [|discriminate].
  destruct (isFinite (Fz x y z)) eqn:Ez; [|discriminate].
  cbn [negb orb] in H.
  apply isFinite_inv in Ex, Ey, Ez.
  destruct Ex as [vx Ex], Ey as [vy Ey], Ez as [vz Ez].
  rewrite Ex, Ey, Ez in H. cbn [mul add] in H.
  assert (Hsq : (lit 0 <=? Finite (vx * vx + vy * vy + vz * vz)%Qc) = true).
  { unfold lit. apply le_Finite. to_Q. nra. }
  destruct (sqrt_real (Finite (vx * vx + vy * vy + vz * vz)%Qc) eq_refl Hsq)
    as [Hm _].
  apply isFinite_inv in Hm. destruct Hm as [m Em]. rewrite Em in H.
  destruct (Finite m <? lit 0.01) eqn:E; [discriminate|].
  match type of H with
  | Some ?t = _ => assert (Es : arrow = t) by congruence
  end.
  rewrite Es. cbn [ArrowData.position ArrowData.direction ArrowData.magnitude].
  split; [|split; [|split]].
  - unfold inCube, x, y, z, step.
    rewrite !node_within by assumption. reflexivity.
  - reflexivity.
  - unfold lit in *. apply lt_Finite_false in E. now apply le_Finite.
  - reflexivity.
Qed.
End ArrowFacts.

Lemma flat_map_length_le {A B} (f : A -> list B) (l : list A) (c : nat) :
  (forall a, In a l -> (List.length (f a) <= c)%nat) ->
  (List.length (flat_map f l) <= List.length l * c)%nat.
Proof.
  induction l as [|a l IH]; intros H; cbn [flat_map List.length].
  - apply Nat.le_refl.
  - rewrite length_app.
    assert (H1 : (List.length (f a) <= c)%nat) by (apply H; now left).
    assert (H2 : (List.length (flat_map f l) <= List.length l * c)%nat).
    { apply IH. intros b Hb. apply H. now right. }
    cbn [Nat.mul]. lia.
Qed.

(** X21.  The arrows of the 3D view, for a grid of [gridSize > 0]
    intervals, a real range that is not negative and a host square root
    that is real and non-negative on real non-negative arguments: there
    are at most [(gridSize + 1)^3] of them; each one sits at a node inside
    the cube [[-range, range]^3], has a real direction and a magnitude of
    at least 0.01; and [Arrow] gives it a length in [[0.003, 0.5]] with a
    shaft of positive height. *)
Theorem vector_arrows_are_drawable :
  forall (Math_sqrt : number -> number)
         (Fx Fy Fz : number -> number -> number -> number)
         (gridSize : nat) (range3 : number),
    realRoot Math_sqrt ->
    (0 < gridSize)%nat ->
    isFinite range3 = true -> (lit 0 <=? range3) = true ->
    let arrows := VectorArrows Math_sqrt Fx Fy Fz gridSize range3 in
    (List.length arrows <= S gridSize * (S gridSize * S gridSize))%nat
    /\ forall arrow, In arrow arrows ->
         inCube range3 (ArrowData.position arrow) = true
         /\ realVector (ArrowData.direction arrow) = true
         /\ (lit 0.01 <=? ArrowData.magnitude arrow) = true
         /\ (lit 0.003 <=? arrowLength (ArrowData.magnitude arrow)) = true
         /\ (arrowLength (ArrowData.magnitude arrow) <=? lit 0.5) = true
         /\ (lit 0 <? arrowShaftLength (ArrowData.magnitude arrow)) = true.
Proof.
  intros Math_sqrt Fx Fy Fz n range3 Hroot Hn Hr Hr0 arrows.
  subst arrows. unfold VectorArrows. split.
  - eapply Nat.le_trans;
      [apply (flat_map_length_le _ _ (S n * S n))
      | rewrite length_seq; apply Nat.le_refl].
    intros i _.
    eapply Nat.le_trans;
      [apply (flat_map_length_le _ _ (S n))
      | rewrite length_seq; apply Nat.le_refl].
    intros j _.
    eapply Nat.le_trans;
      [apply (flat_map_length_le _ _ 1)
      | rewrite length_seq; lia].
    intros k _.
    destruct (arrowAt _ _ _ _ _ _ _ _ _); cbn; lia.
  - intros arrow Hin.
    apply in_flat_map in Hin. destruct Hin as (i & Hi & Hin).
    apply in_flat_map in Hin. destruct Hin as (j & Hj & Hin).
    apply in_flat_map in Hin. destruct Hin as (k & Hk & Hin).
    apply in_seq in Hi, Hj, Hk.
    destruct (arrowAt Math_sqrt Fx Fy Fz range3 _ i j k) as [a|] eqn:E;
      [|destruct Hin].
    destruct Hin as [<-|[]].
    apply isFinite_inv in Hr. destruct Hr as [r ->].
    unfold lit in Hr0. apply le_Finite in Hr0.
    destruct (arrowAt_sound Math_sqrt Fx Fy Fz Hroot r n i j k a Hr0 Hn)
      as (A1 & A2 & A3 & A4); try lia; try assumption.
    split; [assumption|]. split; [assumption|]. split; [assumption|].
    apply isFinite_inv in A4. destruct A4 as [m Em]. rewrite Em in *.
    unfold lit in A3. apply le_Finite in A3.
    destruct (arrowLength_bounds m A3) as (len & -> & L0 & L1 & ->).
    unfold lit.
    split; [now apply le_Finite|]. split; [now apply le_Finite|].
    apply lt_Finite. revert L0. to_Q. intros. lra.
Qed.

(** X21 for the radial field on the coarsest grid of the view (3
    intervals, range 2), with a host whose square root is constantly 2. *)
Lemma vector_arrows_are_drawable_witness :
  let arrows :=
    VectorArrows (fun _ => lit 2) (fun x _ _ => x) (fun _ y _ => y)
                 (fun _ _ z => z) 3 (lit 2) in
  (List.length arrows <= 4 * (4 * 4))%nat
  /\ forall arrow, In arrow arrows ->
       inCube (lit 2) (ArrowData.position arrow) = true
       /\ realVector (ArrowData.direction arrow) = true
       /\ (lit 0.01 <=? ArrowData.magnitude arrow) = true
       /\ (lit 0.003 <=? arrowLength (ArrowData.magnitude arrow)) = true
       /\ (arrowLength (ArrowData.magnitude arrow) <=? lit 0.5) = true
       /\ (lit 0 <? arrowShaftLength (ArrowData.magnitude arrow)) = true.
Proof.
  apply (vector_arrows_are_drawable (fun _ => lit 2)
           (fun x _ _ => x) (fun _ y _ => y) (fun _ _ z => z) 3 (lit 2)).
  - intros v _ _. split; reflexivity.
  - lia.
  - reflexivity.
  - reflexivity.
Defined.

(** ** The volumetric view of the 3D field *)



Section VolumeFacts.
Variable Math_sqrt : number -> number.
Variables Fx Fy Fz : number -> number -> number -> number.
Hypothesis sqrt_real : realRoot Math_sqrt.


End VolumeFacts.



(** ** The static arrows of the 2D view *)





(** ** The divergence of superposed fields *)





